(** * Source import pipeline of the interpreter (package [interp])

    Shallow embedding of [importSrc], [importSrcArchive],
    [rootFromSourceLocation], [pkgDir], [previousRoot], [effectivePkg] and
    [isPathRelative], together with the properties of the import pipeline
    that the design document states about them. *)

From Stdlib Require Import Ascii.
From stdpp Require Import base option list strings gmap.



(** ** Strings and paths (Go's [strings] and Unix [path/filepath]) *)

Module GoPath.

(** [filepath.Separator] on the platforms the interpreter resolves
    sources on. *)
Definition Separator : ascii := "/"%char.

(** [strings.Split(s, string(filepath.Separator))]: the pieces of [s]
    between separators; a string without separator (also the empty one)
    yields one piece. *)
Fixpoint Split (s : string) : list string :=
  match s with
  | EmptyString => [""]
  | String c s' =>
      if decide (c = Separator) then "" :: Split s'
      else match Split s' with
           | h :: t => String c h :: t
           | [] => [String c ""]
           end
  end.

(** [strings.Join(elems, string(filepath.Separator))]. *)
Fixpoint JoinSep (elems : list string) : string :=
  match elems with
  | [] => ""
  | [e] => e
  | e :: rest => e +:+ "/" +:+ JoinSep rest
  end.

(** [strings.HasPrefix(s, p)]. *)
Fixpoint HasPrefix (s p : string) : bool :=
  match p, s with
  | EmptyString, _ => true
  | String _ _, EmptyString => false
  | String b p', String a s' => bool_decide (a = b) && HasPrefix s' p'
  end.

(** [strings.TrimPrefix(s, p)]. *)
Fixpoint dropPrefix (s p : string) : option string :=
  match p, s with
  | EmptyString, _ => Some s
  | String _ _, EmptyString => None
  | String b p', String a s' =>
      if decide (a = b) then dropPrefix s' p' else None
  end.

Definition TrimPrefix (s p : string) : string :=
  default s (dropPrefix s p).

(** [strings.HasSuffix(s, p)]. *)
Definition HasSuffix (s p : string) : bool :=
  HasPrefix (String.rev s) (String.rev p).

(** The main loop of [filepath.Clean], run on the pieces of the path
    instead of its bytes: [out] is the output buffer (as pieces), [dotdot]
    the number of pieces of [out] that backtracking may not remove. *)
Fixpoint cleanLoop (rooted : bool) (segs out : list string) (dotdot : nat)
  : list string :=
  match segs with
  | [] => out
  | seg :: rest =>
      if decide (seg = "") then cleanLoop rooted rest out dotdot
      else if decide (seg = ".") then cleanLoop rooted rest out dotdot
      else if decide (seg = "..") then
        if decide (dotdot < length out)
        then cleanLoop rooted rest (removelast out) dotdot
        else if rooted then cleanLoop rooted rest out dotdot
        else cleanLoop rooted rest (out ++ [".."]) (length (out ++ [".."]))
      else cleanLoop rooted rest (out ++ [seg]) dotdot
  end.

(** [filepath.Clean(path)]. *)
Definition Clean (path : string) : string :=
  if decide (path = "") then "."
  else
    let rooted := HasPrefix path "/" in
    let out := cleanLoop rooted (Split path) [] 0 in
    match out with
    | [] => if rooted then "/" else "."
    | _ => (if rooted then "/" else "") +:+ JoinSep out
    end.

(** [filepath.Join(elem...)]: leading empty elements are dropped, the rest
    is joined with the separator and cleaned; no element left gives the
    empty string. *)
Fixpoint Join (elem : list string) : string :=
  match elem with
  | [] => ""
  | e :: rest =>
      if decide (e = "") then Join rest else Clean (JoinSep elem)
  end.

Fixpoint hasSeparator (s : string) : bool :=
  match s with
  | EmptyString => false
  | String c s' => bool_decide (c = Separator) || hasSeparator s'
  end.

(** The index scan of [filepath.Dir]: the path up to and including its
    last separator. *)
Fixpoint dirPrefix (s : string) : string :=
  match s with
  | EmptyString => ""
  | String c s' => if hasSeparator s then String c (dirPrefix s') else ""
  end.

(** [filepath.Dir(path)]. *)
Definition Dir (path : string) : string := Clean (dirPrefix path).

End GoPath.

Import GoPath.

(** ** The vendor chain: [previousRoot] and [effectivePkg] *)

(** [const vendor = "vendor"]. *)
Definition vendor : string := "vendor".

(** The loop of [previousRoot]:
    [for i := len(splitRoot) - 1; i >= 0; i-- { if splitRoot[i] == "vendor"
    { index = i; break } }], entered with [i = n - 1]; the result is the value
    of [index] after the loop ([index] starts at 0). *)
Fixpoint previousRootLoop (splitRoot : list string) (n : nat) : nat :=
  match n with
  | 0 => 0
  | S i =>
      if decide (splitRoot !! i = Some "vendor") then i
      else previousRootLoop splitRoot i
  end.

(** [previousRoot]: the previous source root (vendor > vendor > ... >
    GOPATH). *)
Definition previousRoot (root : string) : string :=
  let splitRoot := Split root in
  let index := previousRootLoop splitRoot (length splitRoot) in
  if decide (index = 0) then ""
  else Join (take index splitRoot).

(** The loop state of [effectivePkg]. *)
Record epState := EpState {
  ep_result : list string;
  ep_rootIndex : nat;
  ep_prevRootIndex : nat
}.

(** One iteration of the loop of [effectivePkg], at index [i]. In
    [index := len(splitRoot) - 1 - rootIndex] the subtraction is on Go's
    signed [int]; the element is read only when [index > 0], that is when
    [rootIndex + 1 < len(splitRoot)]. *)
Definition effectivePkgStep (splitRoot splitPath : list string) (i : nat)
    (s : epState) : epState :=
  let part := default "" (splitPath !! (length splitPath - 1 - i)) in
  let index := length splitRoot - 1 - ep_rootIndex s in
  if bool_decide (ep_rootIndex s + 1 < length splitRoot)
     && bool_decide (splitRoot !! index = Some part)
     && negb (bool_decide (i = 0))
  then EpState (ep_result s) (S (ep_rootIndex s)) (ep_rootIndex s)
  else if decide (ep_prevRootIndex s = ep_rootIndex s)
  then EpState (ep_result s ++ [part]) (ep_rootIndex s) (ep_prevRootIndex s)
  else s.

(** [for i := 0; i < len(splitPath); i++ { ... }], with [todo] iterations
    left. *)
Fixpoint effectivePkgLoop (splitRoot splitPath : list string) (i todo : nat)
    (s : epState) : epState :=
  match todo with
  | 0 => s
  | S todo' =>
      effectivePkgLoop splitRoot splitPath (S i) todo'
        (effectivePkgStep splitRoot splitPath i s)
  end.

(** [for i := len(result) - 1; i >= 0; i-- { frag = filepath.Join(frag,
    result[i]) }], on the reversed [result]. *)
Definition joinFrag (reversed : list string) : string :=
  foldl (fun frag part => Join [frag; part]) "" reversed.

Definition effectivePkgKept (root path : string) : list string :=
  let splitRoot := Split root in
  let splitPath := Split path in
  ep_result
    (effectivePkgLoop splitRoot splitPath 0 (length splitPath)
       (EpState [] 0 0)).

(** [effectivePkg]. *)
Definition effectivePkg (root path : string) : string :=
  Join [root; joinFrag (rev (effectivePkgKept root path))].

(** [isPathRelative]: true if the path starts with "./" or "../". *)
Definition isPathRelative (s : string) : bool :=
  let p := "." +:+ "/" in
  HasPrefix s p || HasPrefix s ("." +:+ p).


(** ** Errors, outcomes and the interpreter state *)

(** The error values the import pipeline builds itself, and [ErrOther] for an
    error value handed over by a callee outside this file. *)
Inductive error :=
| ErrInconsistent (importPath : string)
    (* "inconsistent knowledge about %s" *)
| ErrImportCycle (importPath : string)
    (* "import cycle not allowed\n\timports %s" *)
| ErrPackages (pkgName pname dir : string)
    (* "found packages %s and %s in %s" *)
| ErrNotInGopath (pkgDir : string)
    (* "package location %s not in GOPATH" *)
| ErrNoSource (path : string)
    (* "unable to find source related to: %q" *)
| ErrOther (msg : string).

Global Instance error_eq_dec : EqDecision error.
Proof. solve_decision. Defined.

(** How a call ends: a normal return, [return "", err], a run-time panic (a
    nil pointer dereference), or the recursion bound of the model reached. *)
Inductive outcome (A : Type) :=
| Ok (a : A)
| Fail (e : error)
| Panic
| OutOfFuel.
Arguments Ok {A} a.
Arguments Fail {A} e.
Arguments Panic {A}.
Arguments OutOfFuel {A}.

(** Modelled from the spec: the [node] struct is declared outside this
    file; AST nodes are held by reference and told apart by identity. *)
Record node := Node { node_id : nat }.

Global Instance node_eq_dec : EqDecision node.
Proof. solve_decision. Defined.

(** Modelled from the spec: of a [symbol] the pipeline reads the field
    [node] only. *)
Record symbol := Symbol { sym_node : node }.

Global Instance symbol_eq_dec : EqDecision symbol.
Proof. solve_decision. Defined.

(** Modelled from the spec: of a [scope] the pipeline reads the symbol table
    [sym] only. *)
Record scope := Scope { sym : gmap string symbol }.

(** Modelled from the spec: the identifier of the entry point and of the entry
    package. *)
Definition mainID : string := "main".

(** The frame argument of [interp.run]: [nil] or [interp.frame]. *)
Inductive frameArg := NilFrame | InterpFrame.

Global Instance frameArg_eq_dec : EqDecision frameArg.
Proof. solve_decision. Defined.

(** Observable steps of an import, recorded in program order. They are
    written, never read, by the pipeline. *)
Inductive event :=
| EvReadDir (dir : string)
| EvReadFile (name : string)
| EvAst (importPath name : string) (res : error + string * option node)
| EvAstDot (name : string)
| EvGta (importPath : string) (root : node)
| EvGtaRetry (importPath : string) (nodes : list node)
| EvCfg (importPath : string) (root : node)
| EvCycle (importPath : string) (inProgress : list string)
| EvRegister (importPath pkgName : string)
| EvResizeFrame
| EvGenRun (n : node)
| EvRun (n : node) (f : frameArg).

Global Instance event_eq_dec : EqDecision event.
Proof. solve_decision. Defined.

(** The fields of [Interpreter] the pipeline uses. [events] and [importing]
    (the import paths whose [importSrc] call is running, innermost first) are
    bookkeeping of the model: they are only written. *)
Record Interpreter := MkInterpreter {
  name : string;                            (* interp.name *)
  GOPATH : string;                          (* interp.context.GOPATH *)
  astDot : bool;
  srcPkg : gmap string (gmap string symbol);
  pkgNames : gmap string string;
  rdir : gmap string bool;
  scopes : gmap string scope;
  events : list event;
  importing : list string
}.

Definition set_srcPkg f (i : Interpreter) : Interpreter :=
  MkInterpreter (name i) (GOPATH i) (astDot i) (f (srcPkg i)) (pkgNames i)
    (rdir i) (scopes i) (events i) (importing i).
Definition set_pkgNames f (i : Interpreter) : Interpreter :=
  MkInterpreter (name i) (GOPATH i) (astDot i) (srcPkg i) (f (pkgNames i))
    (rdir i) (scopes i) (events i) (importing i).
Definition set_rdir f (i : Interpreter) : Interpreter :=
  MkInterpreter (name i) (GOPATH i) (astDot i) (srcPkg i) (pkgNames i)
    (f (rdir i)) (scopes i) (events i) (importing i).
Definition set_scopes f (i : Interpreter) : Interpreter :=
  MkInterpreter (name i) (GOPATH i) (astDot i) (srcPkg i) (pkgNames i)
    (rdir i) (f (scopes i)) (events i) (importing i).
Definition set_events f (i : Interpreter) : Interpreter :=
  MkInterpreter (name i) (GOPATH i) (astDot i) (srcPkg i) (pkgNames i)
    (rdir i) (scopes i) (f (events i)) (importing i).
Definition set_importing f (i : Interpreter) : Interpreter :=
  MkInterpreter (name i) (GOPATH i) (astDot i) (srcPkg i) (pkgNames i)
    (rdir i) (scopes i) (events i) (f (importing i)).

(** A fresh interpreter for the input file [file]. *)
Definition newInterpreter (file gopath : string) : Interpreter :=
  MkInterpreter file gopath false ∅ ∅ ∅ ∅ [] [].

(** ** The monad of the pipeline: interpreter state and outcomes *)

Definition M (A : Type) : Type := Interpreter → outcome A * Interpreter.

Global Instance M_ret : MRet M := λ A a st, (Ok a, st).
Global Instance M_bind : MBind M := λ A B k m st,
  match m st with
  | (Ok a, st') => k a st'
  | (Fail e, st') => (Fail e, st')
  | (Panic, st') => (Panic, st')
  | (OutOfFuel, st') => (OutOfFuel, st')
  end.

Definition fail {A} (e : error) : M A := λ st, (Fail e, st).
Definition panic {A} : M A := λ st, (Panic, st).
Definition outOfFuel {A} : M A := λ st, (OutOfFuel, st).
Definition lift {A} (o : outcome A) : M A := λ st, (o, st).
Definition gets {A} (f : Interpreter → A) : M A := λ st, (Ok (f st), st).
Definition modify (f : Interpreter → Interpreter) : M unit :=
  λ st, (Ok (), f st).
Definition emit (e : event) : M unit := modify (set_events (λ l, l ++ [e])).

(** An [error] result of a callee, turned into [return "", err]. *)
Definition orFail {A} (r : error + A) : M A :=
  match r with inl e => fail e | inr a => mret a end.

(** [m] followed by [after], also when [m] does not return normally. *)
Definition finally {A} (m : M A) (after : Interpreter → Interpreter) : M A :=
  λ st, let '(r, st') := m st in (r, after st').

(** [for _, x := range l { body }] with an accumulator. *)
Fixpoint foldM {A B} (body : B → A → M B) (l : list A) (acc : B) : M B :=
  match l with
  | [] => mret acc
  | x :: rest => acc' ← body acc x; foldM body rest acc'
  end.

(** ** The callees of the pipeline outside this file *)

(** The operating system, the Go tool chain and the other passes of the
    interpreter, as the pipeline sees them. The file system is not written
    during an import, so each of them is a function of its arguments. *)
Record Host := MkHost {
  (** [os.Getwd()] *)
  getwd : error + string;
  (** [os.Stat(dir)] returns no error *)
  stat : string → bool;
  (** [ctx.Import(path, ".", build.FindOnly)]: [pkg.Dir] and [pkg.Root] *)
  ctxImport : string → option (string * string);
  (** [ioutil.ReadDir(dir)]: the names of the entries, sorted *)
  readDir : string → error + list string;
  (** [ioutil.ReadFile(name)] *)
  readFile : string → error + string;
  (** [skipFile(&interp.context, name, skipTest)] *)
  skipFile : string → bool → bool;
  (** [interp.ast(src, name, false)]: package name and root node *)
  parse : string → string → error + string * option node;
  (** the import declarations of a file that [gta] resolves from source, with
      the [skipTest] flag it passes on *)
  imports : node → list (string * bool);
  (** the declarations of a file entered by [gta] in the package scope, given
      the names of the imported packages: the new scope and the nodes left
      for a later attempt *)
  declare :
    node → string → string → list string → scope → error + scope * list node;
  (** [interp.gtaRetry(nodes, importPath)] on the package scope *)
  retry : list node → string → scope → error + scope;
  (** [interp.cfg(root, importPath)] on the package scope: the new scope and
      the initialization nodes *)
  lower : node → string → scope → error + scope * list node;
  (** [genRun(n)] *)
  genRun : node → option error;
  (** [genGlobalVars(rootNodes, gs)] *)
  genGlobalVars : list node → scope → error + node
}.

(** ** [gzip] and [tar] input *)

Inductive typeflag := TypeReg | TypeDir | TypeOther (c : ascii).

Record tarHeader := TarHeader { Typeflag : typeflag; Name : string }.

(** What [tarReader.Next()] returns, and for an entry what
    [buf.ReadFrom(tarReader)] reads. The end of the list is [io.EOF]. *)
Inductive tarEntry :=
| TarFile (header : tarHeader) (body : error + string)
| TarBad (err : error).

(** The [io.Reader] given to [importSrcArchive]: [gzip.NewReader] fails, or
    it gives a stream that the tar reader walks. *)
Inductive archive :=
| GzipBad (err : error)
| GzipStream (entries : list tarEntry).

(** ** The import pipeline *)

(** The variables [pkgName], [rootNodes] and [revisit] of an import. *)
Record loadAcc := LoadAcc {
  la_pkgName : string;
  la_rootNodes : list node;
  la_revisit : gmap string (list node)
}.

Section Pipeline.

Context (H : Host).

(** [rootFromSourceLocation]: the path to the directory containing the
    input Go file, relative to $GOPATH/src. *)
Definition rootFromSourceLocation (rPath : string) : M string :=
  sourceFile ← gets name;
  if negb (bool_decide (rPath = "main")) || negb (HasSuffix sourceFile ".go")
  then mret rPath
  else
    wd ← orFail (getwd H);
    gopath ← gets GOPATH;
    let pkgDir := Join [wd; Dir sourceFile] in
    let root := TrimPrefix pkgDir (Join [gopath; "src"] +:+ "/") in
    if decide (root = wd) then fail (ErrNotInGopath pkgDir)
    else mret root.

(** [pkgDir]: the absolute path in the file system for a package given its
    import path and the root of the subtree dependencies. [fuel] bounds
    the recursion on [previousRoot(root)]. *)
Fixpoint pkgDir (fuel : nat) (gopath root path : string)
  : outcome (string * string) :=
  match fuel with
  | 0 => OutOfFuel
  | S fuel' =>
      let rPath := Join [root; "vendor"] in
      let dir := Join [gopath; "src"; rPath; path] in
      if stat H dir then Ok (dir, rPath)
      else
        let dir := Join [gopath; "src"; effectivePkg root path] in
        if stat H dir then Ok (dir, root)
        else if decide (String.length root = 0) then
          match ctxImport H path with
          | Some (pdir, proot) => Ok (pdir, proot)
          | None => Fail (ErrNoSource path)
          end
        else pkgDir fuel' gopath (previousRoot root) path
  end.

(** The number of recursive calls of [pkgDir] is bounded by the length of
    [root]: [previousRoot] returns a strictly shorter string or "". *)
Definition pkgDirFuel (root : string) : nat := S (String.length root).

(** Lines 56-69 of [importSrc], and the same lines 198-211 of
    [importSrcArchive]: the directory of the sources and the new [rPath]. *)
Definition resolve (rPath importPath : string) : M (string * string) :=
  if isPathRelative importPath then
    let rPath := if decide (rPath = "main") then "." else rPath in
    file ← gets name;
    mret (Join [Dir file; rPath; importPath], rPath)
  else
    root ← rootFromSourceLocation rPath;
    gopath ← gets GOPATH;
    lift (pkgDir (pkgDirFuel root) gopath root importPath).

(** The nested calls of [interp.importSrc]: the same function, one level
    down. *)
Context (importer : string → string → bool → M string).

(** Modelled from the spec: [interp.gta] is outside this file. It creates
    the package scope if there is none, imports depth-first and
    synchronously what the file imports from source (a failing import is
    the failure of [gta]), and enters the declarations of the file in the
    package scope. *)
Definition gta (root : node) (rPath importPath : string) : M (list node) :=
  emit (EvGta importPath root);;
  modify (set_scopes (λ m,
    match m !! importPath with
    | Some _ => m
    | None => <[importPath := Scope ∅]> m
    end));;
  names ← foldM (λ names '(ipath, skipTest),
                   pkgName ← importer rPath ipath skipTest;
                   mret (names ++ [pkgName]))
                (imports H root) [];
  sc ← gets (λ st, default (Scope ∅) (scopes st !! importPath));
  '(sc', pending) ← orFail (declare H root rPath importPath names sc);
  modify (set_scopes <[importPath := sc']>);;
  mret pending.

(** [interp.scopes[importPath]], dereferenced: a nil pointer panics. *)
Definition packageScope (importPath : string) : M scope :=
  o ← gets (λ st, scopes st !! importPath);
  match o with
  | Some sc => mret sc
  | None => panic
  end.

(** Modelled from the spec: [interp.gtaRetry] works on the package scope. *)
Definition gtaRetry (nodes : list node) (importPath : string) : M unit :=
  emit (EvGtaRetry importPath nodes);;
  sc ← packageScope importPath;
  sc' ← orFail (retry H nodes importPath sc);
  modify (set_scopes <[importPath := sc']>).

(** Modelled from the spec: [interp.cfg] works on the package scope. *)
Definition cfg (root : node) (importPath : string) : M (list node) :=
  emit (EvCfg importPath root);;
  sc ← packageScope importPath;
  '(sc', nodes) ← orFail (lower H root importPath sc);
  modify (set_scopes <[importPath := sc']>);;
  mret nodes.

(** [interp.run(n, f)]. *)
Definition run (n : node) (f : frameArg) : M unit := emit (EvRun n f).

(** Lines 101-129 of [importSrc], and the same lines 252-280 of
    [importSrcArchive]: one source file [name] with content [buf]. *)
Definition loadSource (dir rPath importPath : string) (skipTest : bool)
    (name buf : string) (acc : loadAcc) : M loadAcc :=
  let res := parse H buf name in
  emit (EvAst importPath name res);;
  '(pname, root) ← orFail res;
  match root with
  | None => mret acc                                        (* continue *)
  | Some root =>
      dot ← gets astDot;
      (if dot : bool then emit (EvAstDot name) else mret ());;
      pkgName ←
        (if decide (la_pkgName acc = "") then mret pname
         else if bool_decide (la_pkgName acc ≠ pname) && skipTest
         then fail (ErrPackages (la_pkgName acc) pname dir)
         else mret (la_pkgName acc)) : M string;
      let rootNodes := la_rootNodes acc ++ [root] in
      let subRPath := effectivePkg rPath importPath in
      list ← gta root subRPath importPath;
      let revisit :=
        <[subRPath := default [] (la_revisit acc !! subRPath) ++ list]>
          (la_revisit acc) in
      mret (LoadAcc pkgName rootNodes revisit)
  end.

(** Lines 89-130 of [importSrc]: the loop over the directory entries. *)
Definition loadFile (dir rPath importPath : string) (skipTest : bool)
    (acc : loadAcc) (file : string) : M loadAcc :=
  if skipFile H file skipTest then mret acc
  else
    let name := Join [dir; file] in
    emit (EvReadFile name);;
    buf ← orFail (readFile H name);
    loadSource dir rPath importPath skipTest name buf acc.

(** Lines 229-283 of [importSrcArchive]: the loop over the tar entries. An
    error of [tarReader.Next()] other than [io.EOF] is formatted and
    dropped, and the nil header is dereferenced. *)
Definition loadEntry (dir rPath importPath : string) (skipTest : bool)
    (acc : loadAcc) (entry : tarEntry) : M loadAcc :=
  match entry with
  | TarBad _ => panic
  | TarFile header body =>
      match Typeflag header with
      | TypeDir => mret acc
      | TypeReg =>
          if skipFile H (Name header) skipTest then mret acc
          else
            let name := Join [dir; Name header] in
            buf ← orFail body;
            loadSource dir rPath importPath skipTest name buf acc
      | TypeOther _ => mret acc
      end
  end.

(** Lines 132-184 of [importSrc], and the same lines 285-337 of
    [importSrcArchive]: retry, lowering, registration and initialization.
    The locks are not modelled: one import runs at a time. *)
Definition finishImport (importPath : string) (skipTest : bool)
    (acc : loadAcc) : M string :=
  let pkgName := la_pkgName acc in
  let rootNodes := la_rootNodes acc in
  (* Revisit incomplete nodes where GTA could not complete. *)
  foldM (λ _ '(_, nodes), gtaRetry nodes importPath)
    (map_to_list (la_revisit acc)) ();;
  (* Generate control flow graphs. *)
  initNodes ← foldM (λ initNodes root,
                       nodes ← cfg root importPath;
                       mret (initNodes ++ nodes))
                    rootNodes [];
  (* Register source package in the interpreter. *)
  gs ← packageScope importPath;
  modify (set_srcPkg <[importPath := sym gs]>);;
  modify (set_pkgNames <[importPath := pkgName]>);;
  emit (EvRegister importPath pkgName);;
  emit EvResizeFrame;;
  (* Execute entry points then init functions. *)
  foldM (λ _ n,
           emit (EvGenRun n);;
           match genRun H n with
           | Some err => fail err
           | None => run n NilFrame
           end)
    rootNodes ();;
  (* Wire and execute global vars in global scope gs. *)
  n ← orFail (genGlobalVars H rootNodes gs);
  run n NilFrame;;
  (* Add main to list of functions to run, after all inits. *)
  let initNodes :=
    match sym gs !! mainID with
    | Some m =>
        if bool_decide (pkgName = mainID) && skipTest
        then initNodes ++ [sym_node m] else initNodes
    | None => initNodes
    end in
  foldM (λ _ n, run n InterpFrame) initNodes ();;
  mret pkgName.

(** [importSrc], with the nested calls left to [importer]. *)
Definition importSrcBody (rPath importPath : string) (skipTest : bool)
  : M string :=
  registered ← gets (λ st, srcPkg st !! importPath);
  match registered with
  | Some _ =>
      o ← gets (λ st, pkgNames st !! importPath);
      match o with
      | None => fail (ErrInconsistent importPath)
      | Some name => mret name
      end
  | None =>
      '(dir, rPath) ← resolve rPath importPath;
      visiting ← gets (λ st, default false (rdir st !! importPath));
      inProgress ← gets importing;
      if visiting : bool then
        emit (EvCycle importPath inProgress);;
        fail (ErrImportCycle importPath)
      else
        modify (set_rdir <[importPath := true]>);;
        modify (set_importing (cons importPath));;
        finally
          (emit (EvReadDir dir);;
           files ← orFail (readDir H dir);
           acc ← foldM (loadFile dir rPath importPath skipTest) files
                   (LoadAcc "" [] ∅);
           finishImport importPath skipTest acc)
          (set_importing (drop 1))
  end.

(** [importSrcArchive], with the nested calls left to [importer]. *)
Definition importSrcArchiveBody (reader : archive) (skipTest : bool)
  : M string :=
  let rPath := "." in
  let importPath := "/" in
  '(dir, rPath) ← resolve rPath importPath;
  modify (set_rdir <[importPath := true]>);;
  modify (set_importing (cons importPath));;
  finally
    (match reader with
     | GzipBad err => fail err
     | GzipStream entries =>
         acc ← foldM (loadEntry dir rPath importPath skipTest) entries
                 (LoadAcc "" [] ∅);
         finishImport importPath skipTest acc
     end)
    (set_importing (drop 1)).

End Pipeline.

(** [interp.importSrc(rPath, importPath, skipTest)]; [fuel] bounds the depth
    of nested imports. *)
Fixpoint importSrc (H : Host) (fuel : nat) (rPath importPath : string)
    (skipTest : bool) : M string :=
  match fuel with
  | 0 => outOfFuel
  | S fuel' => importSrcBody H (importSrc H fuel') rPath importPath skipTest
  end.

(** [interp.importSrcArchive(reader, skipTest)]. *)
Definition importSrcArchive (H : Host) (fuel : nat) (reader : archive)
    (skipTest : bool) : M string :=
  importSrcArchiveBody H (importSrc H fuel) reader skipTest.

(** ** Reasoning about the monad *)

Lemma bind_unfold {A B} (m : M A) (k : A → M B) st :
  (m ≫= k) st =
  match m st with
  | (Ok a, st') => k a st'
  | (Fail e, st') => (Fail e, st')
  | (Panic, st') => (Panic, st')
  | (OutOfFuel, st') => (OutOfFuel, st')
  end.
Proof. reflexivity. Qed.

Lemma bind_gets {A B} (f : Interpreter → A) (k : A → M B) st :
  (gets f ≫= k) st = k (f st) st.
Proof. reflexivity. Qed.

Lemma bind_modify {B} f (k : unit → M B) st :
  (modify f ≫= k) st = k () (f st).
Proof. reflexivity. Qed.

(** [addEvents l st]: the state [st] after the events [l]. *)
Definition addEvents (l : list event) (st : Interpreter) : Interpreter :=
  set_events (λ l0, l0 ++ l) st.

Lemma bind_emit {B} e (k : unit → M B) st :
  (emit e ≫= k) st = k () (addEvents [e] st).
Proof. reflexivity. Qed.

(** [preserves I m]: the state property [I] survives [m], however [m]
    ends. *)
Definition preserves {A} (I : Interpreter → Prop) (m : M A) : Prop :=
  ∀ st, I st → I (m st).2.

Section Preserves.

Context (I : Interpreter → Prop).

Lemma preserves_ret {A} (a : A) : preserves I (mret a).
Proof. by intros st. Qed.

Lemma preserves_fail {A} e : preserves I (@fail A e).
Proof. by intros st. Qed.

Lemma preserves_panic {A} : preserves I (@panic A).
Proof. by intros st. Qed.

Lemma preserves_outOfFuel {A} : preserves I (@outOfFuel A).
Proof. by intros st. Qed.

Lemma preserves_lift {A} (o : outcome A) : preserves I (lift o).
Proof. by intros st. Qed.

Lemma preserves_gets {A} (f : Interpreter → A) : preserves I (gets f).
Proof. by intros st. Qed.

Lemma preserves_orFail {A} (r : error + A) : preserves I (orFail r).
Proof. by destruct r; intros st. Qed.

Lemma preserves_modify f :
  (∀ st, I st → I (f st)) → preserves I (modify f).
Proof. intros Hf st. apply Hf. Qed.

Lemma preserves_emit e :
  (∀ st, I st → I (set_events (λ l, l ++ [e]) st)) → preserves I (emit e).
Proof. apply preserves_modify. Qed.

Lemma preserves_bind {A B} (m : M A) (k : A → M B) :
  preserves I m → (∀ a, preserves I (k a)) → preserves I (m ≫= k).
Proof.
  intros Hm Hk st HI. specialize (Hm st HI).
  unfold mbind, M_bind. destruct (m st) as [[a|e| |] st']; simpl in *; auto.
  by apply Hk.
Qed.

Lemma preserves_foldM {A B} (body : B → A → M B) l acc :
  (∀ acc x, preserves I (body acc x)) → preserves I (foldM body l acc).
Proof.
  intros Hbody. revert acc.
  induction l as [|x l IH]; intros acc; simpl.
  - apply preserves_ret.
  - apply preserves_bind; auto.
Qed.

Lemma preserves_finally {A} (m : M A) after :
  preserves I m → (∀ st, I st → I (after st)) →
  preserves I (finally m after).
Proof.
  intros Hm Ha st HI. specialize (Hm st HI).
  unfold finally. destruct (m st); simpl in *. auto.
Qed.

End Preserves.

(** One step through the text of the pipeline. *)
Ltac pres_step :=
  match goal with
  | |- preserves _ (mbind _ _) => apply preserves_bind; [|intros ?]
  | |- preserves _ (mret _) => apply preserves_ret
  | |- preserves _ (fail _) => apply preserves_fail
  | |- preserves _ panic => apply preserves_panic
  | |- preserves _ outOfFuel => apply preserves_outOfFuel
  | |- preserves _ (lift _) => apply preserves_lift
  | |- preserves _ (gets _) => apply preserves_gets
  | |- preserves _ (orFail _) => apply preserves_orFail
  | |- preserves _ (foldM _ _ _) => apply preserves_foldM; intros ? ?
  | |- preserves _ (finally _ _) => apply preserves_finally
  | |- preserves _ (run _ _) => unfold run
  | |- preserves _ (emit _) => apply preserves_emit
  | |- preserves _ (modify _) => apply preserves_modify
  | |- preserves _ (match ?x with _ => _ end) => destruct x
  | |- preserves _ (let '(_, _) := ?x in _) => destruct x
  | |- preserves _ (if ?x then _ else _) => destruct x
  end.

(** ** State properties kept by every import *)

(** The import path an event belongs to, for the events of the passes that
    work on one package. *)
Definition evPath (e : event) : option string :=
  match e with
  | EvAst p _ _ | EvGta p _ | EvGtaRetry p _ | EvCfg p _ | EvRegister p _ =>
      Some p
  | _ => None
  end.

(** The events of the passes that work on the import path [P]: all but the
    report of a cycle and the registration. *)
Definition passEvent (P : string) (e : event) : bool :=
  match e with
  | EvCycle _ _ | EvRegister _ _ => false
  | EvAst p _ _ | EvGta p _ | EvGtaRetry p _ | EvCfg p _ =>
      bool_decide (p = P)
  | _ => true
  end.

(** [Stable I P]: the property [I] survives the events and the scope
    updates of the passes that work on the import path [P]. *)
Record Stable (I : Interpreter → Prop) (P : string) : Prop := {
  stable_event : ∀ e st,
    passEvent P e = true → I st → I (addEvents [e] st);
  stable_scopes : ∀ f st, I st → I (set_scopes f st)
}.

(** [Registers I P]: the property [I] survives the registration of [P]. *)
Record Registers (I : Interpreter → Prop) (P : string) : Prop := {
  registers_srcPkg : ∀ t st, I st → I (set_srcPkg <[P := t]> st);
  registers_pkgNames : ∀ n st, I st → I (set_pkgNames <[P := n]> st);
  registers_event : ∀ n st, I st → I (addEvents [EvRegister P n] st)
}.

(** [Marks I P]: the property [I] survives the marking of [P] as visited and
    the bookkeeping of the imports in progress. *)
Record Marks (I : Interpreter → Prop) (P : string) : Prop := {
  marks_rdir : ∀ st, I st → I (set_rdir <[P := true]> st);
  marks_push : ∀ st, I st → I (set_importing (cons P) st);
  marks_pop : ∀ st, I st → I (set_importing (drop 1) st)
}.

Section Kept.

Context (H : Host).

Lemma rootFromSourceLocation_preserves I rPath :
  preserves I (rootFromSourceLocation H rPath).
Proof. unfold rootFromSourceLocation. repeat pres_step. Qed.

Lemma resolve_preserves I rPath importPath :
  preserves I (resolve H rPath importPath).
Proof.
  unfold resolve. repeat pres_step.
  apply rootFromSourceLocation_preserves.
Qed.

Lemma resolve_state rPath importPath st :
  (resolve H rPath importPath st).2 = st.
Proof. by apply (resolve_preserves (λ st', st' = st)). Qed.

Context (I : Interpreter → Prop) (P : string) (HI : Stable I P).
Context (importer : string → string → bool → M string).
Context (Himp : ∀ r Q sk, preserves I (importer r Q sk)).

Local Ltac stable_leaf :=
  first
    [ intros ? ?; apply (stable_event I P HI);
      [simpl; try done; by apply bool_decide_eq_true_2 | done]
    | intros ? ?; by apply (stable_scopes I P HI) ].

Lemma packageScope_preserves : preserves I (packageScope P).
Proof. unfold packageScope. repeat pres_step. Qed.

Lemma gta_preserves root rPath : preserves I (gta H importer root rPath P).
Proof.
  unfold gta. repeat (pres_step; try stable_leaf; try apply Himp).
Qed.

Lemma gtaRetry_preserves nodes : preserves I (gtaRetry H nodes P).
Proof.
  unfold gtaRetry.
  repeat (pres_step; try stable_leaf; try apply packageScope_preserves).
Qed.

Lemma cfg_preserves root : preserves I (cfg H root P).
Proof.
  unfold cfg.
  repeat (pres_step; try stable_leaf; try apply packageScope_preserves).
Qed.

Lemma loadSource_preserves dir rPath sk name buf acc :
  preserves I (loadSource H importer dir rPath P sk name buf acc).
Proof.
  unfold loadSource.
  repeat (pres_step; try stable_leaf; try apply gta_preserves).
Qed.

Lemma loadFile_preserves dir rPath sk acc file :
  preserves I (loadFile H importer dir rPath P sk acc file).
Proof.
  unfold loadFile.
  repeat (pres_step; try stable_leaf; try apply loadSource_preserves).
Qed.

Lemma loadEntry_preserves dir rPath sk acc entry :
  preserves I (loadEntry H importer dir rPath P sk acc entry).
Proof.
  unfold loadEntry.
  repeat (pres_step; try stable_leaf; try apply loadSource_preserves).
Qed.

(** The loops of [importSrc] and of [importSrcArchive] over the sources. *)
Lemma loadFiles_preserves dir rPath sk files acc :
  preserves I (foldM (loadFile H importer dir rPath P sk) files acc).
Proof. apply preserves_foldM. intros. apply loadFile_preserves. Qed.

Lemma loadEntries_preserves dir rPath sk entries acc :
  preserves I (foldM (loadEntry H importer dir rPath P sk) entries acc).
Proof. apply preserves_foldM. intros. apply loadEntry_preserves. Qed.

Context (HR : Registers I P).

Lemma finishImport_preserves sk acc :
  preserves I (finishImport H P sk acc).
Proof.
  unfold finishImport.
  repeat (pres_step; try stable_leaf;
          try apply gtaRetry_preserves; try apply cfg_preserves;
          try apply packageScope_preserves);
    intros ? ?;
    first [ by apply (registers_srcPkg I P HR)
          | by apply (registers_pkgNames I P HR)
          | by apply (registers_event I P HR) ].
Qed.

(** The part of [importSrc] that runs once the path is marked. *)
Lemma directory_preserves dir rPath sk :
  preserves I
    (emit (EvReadDir dir);;
     files ← orFail (readDir H dir);
     acc ← foldM (loadFile H importer dir rPath P sk) files
             (LoadAcc "" [] ∅);
     finishImport H P sk acc).
Proof.
  repeat (pres_step; try stable_leaf; try apply loadFile_preserves;
          try apply finishImport_preserves).
Qed.

(** The part of [importSrcArchive] that runs once the path is marked. *)
Lemma archive_preserves dir rPath sk reader :
  preserves I
    (match reader with
     | GzipBad err => fail err
     | GzipStream entries =>
         acc ← foldM (loadEntry H importer dir rPath P sk) entries
                 (LoadAcc "" [] ∅);
         finishImport H P sk acc
     end).
Proof.
  repeat (pres_step; try stable_leaf; try apply loadEntry_preserves;
          try apply finishImport_preserves).
Qed.

End Kept.

Section KeptByImport.

Context (H : Host) (I : Interpreter → Prop).

(** What is asked of [I]: it ignores the report of a cycle, and from a
    state in which the import of [P] goes ahead it survives the writes of
    that import. *)
Definition KeptAt (P : string) : Prop :=
  (∀ stk st, I st → I (addEvents [EvCycle P stk] st)) ∧
  (∀ st, I st → srcPkg st !! P = None →
     default false (rdir st !! P) = false →
     Stable I P ∧ Registers I P ∧ Marks I P).

Lemma importSrcBody_preserves importer rPath P sk :
  (∀ r Q sk, preserves I (importer r Q sk)) →
  KeptAt P →
  preserves I (importSrcBody H importer rPath P sk).
Proof.
  intros Himp [Hcyc HP] st HIst.
  unfold importSrcBody. rewrite bind_gets.
  destruct (srcPkg st !! P) as [t|] eqn:Hreg.
  { rewrite bind_gets. by destruct (pkgNames st !! P). }
  rewrite bind_unfold.
  pose proof (resolve_state H rPath P st) as Hst.
  destruct (resolve H rPath P st) as [[[dir rPath']|e| |] st1];
    simpl in Hst; subst st1; try done.
  rewrite !bind_gets.
  destruct (default false (rdir st !! P)) eqn:Hvis.
  { rewrite bind_emit. by apply Hcyc. }
  destruct (HP st HIst Hreg Hvis) as (HS & HR & HM).
  rewrite !bind_modify.
  apply preserves_finally; [|apply HM|by apply HM, HM].
  by apply directory_preserves.
Qed.

Lemma importSrc_preserves fuel rPath P sk :
  (∀ Q, KeptAt Q) → preserves I (importSrc H fuel rPath P sk).
Proof.
  intros HK. revert rPath P sk.
  induction fuel as [|fuel IH]; intros rPath P sk; simpl.
  - apply preserves_outOfFuel.
  - by apply importSrcBody_preserves.
Qed.

Lemma importSrcArchiveBody_preserves importer reader sk :
  (∀ r Q sk, preserves I (importer r Q sk)) →
  Stable I "/" → Registers I "/" → Marks I "/" →
  preserves I (importSrcArchiveBody H importer reader sk).
Proof.
  intros Himp HS HR HM. unfold importSrcArchiveBody.
  apply preserves_bind; [apply resolve_preserves|].
  intros [dir rPath].
  apply preserves_bind; [apply preserves_modify, HM|]. intros _.
  apply preserves_bind; [apply preserves_modify, HM|]. intros _.
  apply preserves_finally; [|apply HM].
  by apply archive_preserves.
Qed.

End KeptByImport.

(** *** Markers, registry entries and events across imports *)

(** The path [X] is marked as visited. *)
Definition marked (X : string) (st : Interpreter) : Prop :=
  rdir st !! X = Some true.

(** The events of the passes that worked on the package [X]. *)
Definition eventsOf (X : string) (l : list event) : list event :=
  filter (λ e, evPath e = Some X) l.

Lemma eventsOf_app X l1 l2 :
  eventsOf X (l1 ++ l2) = eventsOf X l1 ++ eventsOf X l2.
Proof. apply filter_app. Qed.

Lemma eventsOf_snoc_other X l e :
  evPath e ≠ Some X → eventsOf X (l ++ [e]) = eventsOf X l.
Proof.
  intros He. rewrite eventsOf_app. unfold eventsOf at 2.
  rewrite filter_cons_False, filter_nil by done. apply app_nil_r.
Qed.

Lemma passEvent_evPath P X e :
  passEvent P e = true → P ≠ X → evPath e ≠ Some X.
Proof.
  destruct e; simpl; try done;
    intros ?%bool_decide_eq_true_1; congruence.
Qed.

Lemma marked_insert (X P : string) (m : gmap string bool) :
  m !! X = Some true → <[P:=true]> m !! X = Some true.
Proof.
  intros Hm. destruct (decide (P = X)) as [->|].
  - apply lookup_insert_eq.
  - by rewrite lookup_insert_ne.
Qed.

Lemma marked_not_visiting P st :
  marked P st → default false (rdir st !! P) = false → False.
Proof. unfold marked. by intros ->. Qed.

Section Across.

Context (H : Host).

(** Once set, a marker stays. *)
Lemma marked_KeptAt X Q : KeptAt (marked X) Q.
Proof.
  split; [done|]. intros _ _ _ _.
  split; [|split]; constructor; try done.
  intros st. apply marked_insert.
Qed.

Lemma importSrc_marked X fuel rPath P sk :
  preserves (marked X) (importSrc H fuel rPath P sk).
Proof. apply importSrc_preserves. apply marked_KeptAt. Qed.

Lemma importSrcArchive_marked X fuel reader sk :
  preserves (marked X) (importSrcArchive H fuel reader sk).
Proof.
  apply importSrcArchiveBody_preserves.
  - intros. apply importSrc_marked.
  - by constructor.
  - by constructor.
  - constructor; try done. intros st. apply marked_insert.
Qed.

(** Events are only added. *)
Definition extends (ev0 : list event) (st : Interpreter) : Prop :=
  ∃ new, events st = ev0 ++ new.

Lemma extends_snoc ev0 e st :
  extends ev0 st → extends ev0 (addEvents [e] st).
Proof.
  intros [new Hn]. exists (new ++ [e]). simpl. by rewrite Hn, app_assoc.
Qed.

Lemma extends_KeptAt ev0 Q : KeptAt (extends ev0) Q.
Proof.
  split; [intros; by apply extends_snoc|]. intros _ _ _ _.
  split; [|split]; constructor; try done; intros; by apply extends_snoc.
Qed.

Lemma importSrc_extends ev0 fuel rPath P sk :
  preserves (extends ev0) (importSrc H fuel rPath P sk).
Proof. apply importSrc_preserves. apply extends_KeptAt. Qed.

(** A registered package stays registered under the same name. *)
Definition registeredAs (X : string) (t : gmap string symbol) (n : string)
    (st : Interpreter) : Prop :=
  srcPkg st !! X = Some t ∧ pkgNames st !! X = Some n.

Lemma registeredAs_KeptAt X t n Q : KeptAt (registeredAs X t n) Q.
Proof.
  split; [done|]. intros st [Ht Hn] Hreg _.
  assert (Q ≠ X) by congruence.
  split; [|split]; constructor; try done.
  - intros t' st' [Ht' Hn']. split; [|done]. simpl.
    by rewrite lookup_insert_ne.
  - intros n' st' [Ht' Hn']. split; [done|]. simpl.
    by rewrite lookup_insert_ne.
Qed.

Lemma importSrc_registeredAs X t n fuel rPath P sk :
  preserves (registeredAs X t n) (importSrc H fuel rPath P sk).
Proof. apply importSrc_preserves. apply registeredAs_KeptAt. Qed.

(** While [X] is marked, no import touches its registry entries ... *)
Definition frozen (X : string) (v : option (gmap string symbol))
    (w : option string) (st : Interpreter) : Prop :=
  marked X st ∧ srcPkg st !! X = v ∧ pkgNames st !! X = w.

Lemma frozen_KeptAt X v w Q : KeptAt (frozen X v w) Q.
Proof.
  split; [done|]. intros st (Hm & _) _ Hvis.
  assert (Q ≠ X).
  { intros ->. by eapply marked_not_visiting. }
  split; [|split]; constructor; try done.
  - intros t' st' (? & ? & ?). split; [done|]. split; [|done]. simpl.
    by rewrite lookup_insert_ne.
  - intros n' st' (? & ? & ?). split; [done|]. split; [done|]. simpl.
    by rewrite lookup_insert_ne.
  - intros st' (? & ? & ?). split; [|done]. by apply marked_insert.
Qed.

Lemma importSrc_frozen X v w fuel rPath P sk :
  preserves (frozen X v w) (importSrc H fuel rPath P sk).
Proof. apply importSrc_preserves. apply frozen_KeptAt. Qed.

(** ... and no pass works on [X]. *)
Definition quiet (X : string) (tr : list event) (st : Interpreter) : Prop :=
  marked X st ∧ eventsOf X (events st) = tr.

Lemma quiet_KeptAt X tr Q : KeptAt (quiet X tr) Q.
Proof.
  split.
  { intros stk st [? ?]. split; [done|]. simpl.
    by rewrite eventsOf_snoc_other. }
  intros st (Hm & _) _ Hvis.
  assert (Q ≠ X).
  { intros ->. by eapply marked_not_visiting. }
  split; [|split]; constructor; try done.
  - intros e st' He [? ?]. split; [done|]. simpl.
    rewrite eventsOf_snoc_other; [done|]. by eapply passEvent_evPath.
  - intros n st' [? ?]. split; [done|]. simpl.
    rewrite eventsOf_snoc_other; [done|]. simpl. congruence.
  - intros st' [? ?]. split; [|done]. by apply marked_insert.
Qed.

Lemma importSrc_quiet X tr fuel rPath P sk :
  preserves (quiet X tr) (importSrc H fuel rPath P sk).
Proof. apply importSrc_preserves. apply quiet_KeptAt. Qed.

End Across.

(** ** The stages of [finishImport] *)

(** An outcome other than a normal return, carried over by a bind. *)
Inductive stops {A B} : outcome A → outcome B → Prop :=
| stops_fail e : stops (Fail e) (Fail e)
| stops_panic : stops Panic Panic
| stops_fuel : stops OutOfFuel OutOfFuel.

Lemma bind_inv {A B} (m : M A) (k : A → M B) st r st' :
  (m ≫= k) st = (r, st') →
  (∃ a st1, m st = (Ok a, st1) ∧ k a st1 = (r, st')) ∨
  (∃ r1, m st = (r1, st') ∧ stops r1 r).
Proof.
  rewrite bind_unfold.
  destruct (m st) as [[a|e| |] st1]; intros Hr.
  - left. eauto.
  - right. inversion Hr; subst. eexists; split; [done|constructor].
  - right. inversion Hr; subst. eexists; split; [done|constructor].
  - right. inversion Hr; subst. eexists; split; [done|constructor].
Qed.

Lemma stops_not_ok {A B} (r1 : outcome A) (r : outcome B) b :
  stops r1 r → r ≠ Ok b.
Proof. by destruct 1. Qed.

Lemma addEvents_nil st : addEvents [] st = st.
Proof. destruct st. unfold addEvents, set_events. simpl. by rewrite app_nil_r. Qed.

Lemma addEvents_app l1 l2 st :
  addEvents l2 (addEvents l1 st) = addEvents (l1 ++ l2) st.
Proof. unfold addEvents, set_events. simpl. by rewrite app_assoc. Qed.

Lemma emit_addEvents e st : emit e st = (Ok (), addEvents [e] st).
Proof. reflexivity. Qed.

(** The events of the retry and lowering passes on [P]. *)
Definition lowering (P : string) (e : event) : Prop :=
  (∃ nodes, e = EvGtaRetry P nodes) ∨ (∃ root, e = EvCfg P root).

(** The events of the execution of entry points, global variables and init
    functions. *)
Definition initEvent (e : event) : Prop :=
  (∃ n, e = EvGenRun n) ∨ (∃ n f, e = EvRun n f).

(** [st'] differs from [st] by scope updates and by the events [new]. *)
Definition lowered (st : Interpreter) (new : list event) (st' : Interpreter)
  : Prop :=
  name st' = name st ∧ GOPATH st' = GOPATH st ∧ astDot st' = astDot st ∧
  srcPkg st' = srcPkg st ∧ pkgNames st' = pkgNames st ∧
  rdir st' = rdir st ∧ importing st' = importing st ∧
  events st' = events st ++ new.

Lemma lowered_refl st : lowered st [] st.
Proof. unfold lowered. by rewrite app_nil_r. Qed.

Lemma lowered_event st new st' e :
  lowered st new st' → lowered st (new ++ [e]) (addEvents [e] st').
Proof.
  unfold lowered; simpl. intros (?&?&?&?&?&?&?&->).
  by rewrite app_assoc.
Qed.

Lemma lowered_scopes st new st' f :
  lowered st new st' → lowered st new (set_scopes f st').
Proof. done. Qed.

Section Stages.

Context (H : Host).

(** An error returned by [genRun] or by [genGlobalVars]. *)
Definition initFailure (e : error) : Prop :=
  (∃ n, genRun H n = Some e) ∨
  (∃ rootNodes gs, genGlobalVars H rootNodes gs = inl e).

(** The retry and the lowering of [P] write scopes and events only. *)
Definition lowersOnly (P : string) (st0 st : Interpreter) : Prop :=
  ∃ new, lowered st0 new st ∧ Forall (lowering P) new.

Lemma lowersOnly_refl P st : lowersOnly P st st.
Proof. exists []. split; [apply lowered_refl|done]. Qed.

Lemma lowersOnly_Stable P st0 e :
  lowering P e →
  ∀ st, lowersOnly P st0 st → lowersOnly P st0 (addEvents [e] st).
Proof.
  intros He st (new & Hl & Hnew). exists (new ++ [e]). split.
  - by apply lowered_event.
  - apply Forall_app. split; [done|]. by constructor.
Qed.

Lemma gtaRetry_lowersOnly P st0 nodes :
  preserves (lowersOnly P st0) (gtaRetry H nodes P).
Proof.
  unfold gtaRetry, packageScope. repeat pres_step; try done.
  apply lowersOnly_Stable. left. eauto.
Qed.

Lemma cfg_lowersOnly P st0 root :
  preserves (lowersOnly P st0) (cfg H root P).
Proof.
  unfold cfg, packageScope. repeat pres_step; try done.
  apply lowersOnly_Stable. right. eauto.
Qed.

(** The events of the retry pass on [P]. *)
Definition retrying (P : string) (e : event) : Prop :=
  ∃ nodes, e = EvGtaRetry P nodes.

Definition retriesOnly (P : string) (st0 st : Interpreter) : Prop :=
  ∃ new, lowered st0 new st ∧ Forall (retrying P) new.

Lemma gtaRetry_retriesOnly P st0 nodes :
  preserves (retriesOnly P st0) (gtaRetry H nodes P).
Proof.
  unfold gtaRetry, packageScope. repeat pres_step; try done.
  intros st (new & Hl & Hnew). exists (new ++ [EvGtaRetry P nodes]). split.
  - by apply lowered_event.
  - apply Forall_app. split; [done|]. constructor; [|done]. by eexists.
Qed.

Lemma lowered_trans st1 new1 st2 new2 st3 :
  lowered st1 new1 st2 → lowered st2 new2 st3 →
  lowered st1 (new1 ++ new2) st3.
Proof.
  unfold lowered.
  intros (?&?&?&?&?&?&?&He1) (?&?&?&?&?&?&?&He2).
  rewrite He2, He1, app_assoc. repeat split; congruence.
Qed.

Lemma cfg_lowered P root st nodes st' :
  cfg H root P st = (Ok nodes, st') → lowered st [EvCfg P root] st'.
Proof.
  unfold cfg, packageScope. rewrite bind_emit, bind_unfold, bind_gets.
  destruct (scopes _ !! P) as [sc|]; [|done]. simpl. rewrite bind_unfold.
  destruct (lower H root P sc) as [e|[sc' nodes']]; [done|]. simpl.
  intros [= <- <-]. apply lowered_scopes.
  apply (lowered_event st [] st), lowered_refl.
Qed.

Lemma cfgLoop_lowered P rootNodes init st initNodes st' :
  foldM (λ initNodes root,
           nodes ← cfg H root P; mret (initNodes ++ nodes))
    rootNodes init st = (Ok initNodes, st') →
  lowered st (EvCfg P <$> rootNodes) st'.
Proof.
  revert init st. induction rootNodes as [|root l IH]; intros init st; simpl.
  { intros [= <- <-]. apply lowered_refl. }
  intros Hr.
  apply bind_inv in Hr as [(acc1 & st1 & Hx & Hr)|(r1 & _ & Hs)];
    [|inversion Hs].
  apply bind_inv in Hx as [(nodes & st2 & Hx & [= <- <-])|(r1 & _ & Hs)];
    [|inversion Hs].
  apply cfg_lowered in Hx. apply IH in Hr.
  apply (lowered_trans _ [EvCfg P root] _ _ _ Hx Hr).
Qed.

(** The events of the wiring of the entry points of [rootNodes]. *)
Definition wiring (rootNodes : list node) : list event :=
  concat ((λ n, [EvGenRun n; EvRun n NilFrame]) <$> rootNodes).

Lemma wiringLoop_spec rootNodes st r st' :
  foldM (λ _ n,
           emit (EvGenRun n);;
           match genRun H n with
           | Some err => fail err
           | None => run n NilFrame
           end) rootNodes () st = (r, st') →
  (r = Ok () ∧ st' = addEvents (wiring rootNodes) st) ∨
  (∃ e post, r = Fail e ∧ initFailure e ∧ Forall initEvent post ∧
             st' = addEvents post st).
Proof.
  revert st. induction rootNodes as [|n l IH]; intros st; simpl.
  - intros [= <- <-]. left. by rewrite addEvents_nil.
  - rewrite bind_unfold, bind_emit.
    destruct (genRun H n) as [err|] eqn:Hn.
    + intros [= <- <-]. right. exists err, [EvGenRun n].
      split; [done|]. split; [left; eauto|]. split; [|done].
      constructor; [|done]. left. eauto.
    + unfold run. rewrite emit_addEvents.
      intros Hr. apply IH in Hr as [[-> ->]|(e & post & -> & He & Hp & ->)].
      * left. split; [done|]. by rewrite !addEvents_app.
      * right. exists e, ([EvGenRun n] ++ [EvRun n NilFrame] ++ post).
        split; [done|]. split; [done|]. split.
        -- constructor; [left; eauto|]. constructor; [right; eauto|done].
        -- by rewrite !addEvents_app.
Qed.

Lemma runLoop_spec nodes st :
  foldM (λ _ n, run n InterpFrame) nodes () st =
  (Ok (), addEvents ((λ n, EvRun n InterpFrame) <$> nodes) st).
Proof.
  revert st. induction nodes as [|n l IH]; intros st; simpl.
  - unfold mret, M_ret. by rewrite addEvents_nil.
  - rewrite bind_unfold. unfold run at 1. rewrite emit_addEvents, IH.
    by rewrite addEvents_app.
Qed.

End Stages.

Lemma preserves_run {A} I (m : M A) st r st' :
  preserves I m → I st → m st = (r, st') → I st'.
Proof. intros Hm HI Hr. specialize (Hm st HI). by rewrite Hr in Hm. Qed.

(** The entry point of an entry package built without its tests, as
    [finishImport] appends it to the initialization nodes. *)
Definition entryPoint (gs : scope) (pkgName : string) (skipTest : bool)
  : list node :=
  match sym gs !! mainID with
  | Some m =>
      if bool_decide (pkgName = mainID) && skipTest then [sym_node m] else []
  | None => []
  end.

(** The events of a complete initialization. *)
Definition initialization (rootNodes : list node) (gv : node)
    (initNodes : list node) : list event :=
  wiring rootNodes ++ [EvRun gv NilFrame] ++
  ((λ n, EvRun n InterpFrame) <$> initNodes).

(** The state after the registration of [P] under [pkgName] with the symbol
    table of [gs], and the events [post] after it. *)
Definition registeredState (P pkgName : string) (gs : scope)
    (post : list event) (st : Interpreter) : Interpreter :=
  addEvents ([EvRegister P pkgName; EvResizeFrame] ++ post)
    (set_pkgNames <[P := pkgName]> (set_srcPkg <[P := sym gs]> st)).

Section FinishImport.

Context (H : Host).

(** What [finishImport] does: it stops in the retry or in the lowering,
    with the registry as it was; or it registers the package and then
    either completes the initialization or stops in it with an error of
    [genRun] or of [genGlobalVars]. *)
Definition finishSpec (P : string) (sk : bool) (acc : loadAcc)
    (st : Interpreter) (r : outcome string) (st' : Interpreter) : Prop :=
  ((∀ a, r ≠ Ok a) ∧ lowersOnly P st st') ∨
  (∃ st1 gs initNodes post retries,
     lowered st (retries ++ (EvCfg P <$> la_rootNodes acc)) st1 ∧
     Forall (retrying P) retries ∧ scopes st1 !! P = Some gs ∧
     st' = registeredState P (la_pkgName acc) gs post st1 ∧
     ((∃ gv, r = Ok (la_pkgName acc) ∧
             genGlobalVars H (la_rootNodes acc) gs = inr gv ∧
             post = initialization (la_rootNodes acc) gv
                      (initNodes ++
                       entryPoint gs (la_pkgName acc) sk)) ∨
      (∃ e, r = Fail e ∧ initFailure H e ∧ Forall initEvent post))).

Lemma finishImport_spec P sk acc st r st' :
  finishImport H P sk acc st = (r, st') → finishSpec P sk acc st r st'.
Proof.
  unfold finishImport. intros Hrun.
  (* retry *)
  apply bind_inv in Hrun as [([] & st1 & Hretry & Hrun)|(r1 & Hretry & Hs)].
  2:{ left. split; [intros a; eapply stops_not_ok; eauto|].
      eapply preserves_run; [|apply lowersOnly_refl|exact Hretry].
      apply preserves_foldM. intros _ [? nodes].
      apply gtaRetry_lowersOnly. }
  assert (lowersOnly P st st1) as Hl1.
  { eapply preserves_run; [|apply lowersOnly_refl|exact Hretry].
    apply preserves_foldM. intros _ [? nodes]. apply gtaRetry_lowersOnly. }
  assert (retriesOnly P st st1) as (retries & Hretries & Hfa).
  { eapply preserves_run; [| |exact Hretry].
    - apply preserves_foldM. intros _ [? nodes]. apply gtaRetry_retriesOnly.
    - exists []. split; [apply lowered_refl|done]. }
  (* lowering *)
  apply bind_inv in Hrun as [(initNodes & st2 & Hcfg & Hrun)|(r1 & Hcfg & Hs)].
  2:{ left. split; [intros a; eapply stops_not_ok; eauto|].
      eapply preserves_run; [|exact Hl1|exact Hcfg].
      apply preserves_foldM. intros ? root.
      apply preserves_bind; [apply cfg_lowersOnly|].
      intros. apply preserves_ret. }
  assert (lowersOnly P st st2) as Hl2.
  { eapply preserves_run; [|exact Hl1|exact Hcfg].
    apply preserves_foldM. intros ? root.
    apply preserves_bind; [apply cfg_lowersOnly|].
    intros. apply preserves_ret. }
  apply cfgLoop_lowered in Hcfg.
  pose proof (lowered_trans _ _ _ _ _ Hretries Hcfg) as Hlow.
  clear Hretry Hcfg Hl1 Hretries st1.
  (* registration *)
  unfold packageScope in Hrun. rewrite bind_unfold, bind_gets in Hrun.
  destruct (scopes st2 !! P) as [gs|] eqn:Hgs.
  2:{ left. inversion Hrun; subst. done. }
  simpl in Hrun. rewrite !bind_modify, !bind_emit, !addEvents_app in Hrun.
  right.
  cut (∃ post,
         st' = registeredState P (la_pkgName acc) gs post st2 ∧
         ((∃ gv, r = Ok (la_pkgName acc) ∧
                 genGlobalVars H (la_rootNodes acc) gs = inr gv ∧
                 post = initialization (la_rootNodes acc) gv
                          (initNodes ++ entryPoint gs (la_pkgName acc) sk)) ∨
          (∃ e, r = Fail e ∧ initFailure H e ∧ Forall initEvent post))).
  { intros (post & ? & ?). exists st2, gs, initNodes, post, retries. auto. }
  (* initialization *)
  apply bind_inv in Hrun as [([] & st3 & Hwire & Hrun)|(r1 & Hwire & Hs)].
  2:{ apply wiringLoop_spec in Hwire
        as [[-> ->]|(e & post & -> & He & Hp & ->)]; [inversion Hs|].
      inversion Hs; subst. exists post.
      split; [by rewrite addEvents_app|]. right. eauto. }
  apply wiringLoop_spec in Hwire
    as [[_ ->]|(e & post & [=] & _)].
  rewrite bind_unfold in Hrun.
  destruct (genGlobalVars H (la_rootNodes acc) gs) as [e|gv] eqn:Hgv;
    simpl in Hrun.
  { inversion Hrun; subst. exists (wiring (la_rootNodes acc)).
    split; [by rewrite addEvents_app|].
    right. exists e. split; [done|]. split; [right; eauto|].
    unfold wiring. apply Forall_concat, Forall_fmap, Forall_forall.
    intros n _. simpl. constructor; [left; eauto|].
    constructor; [right; eauto|done]. }
  change (run gv NilFrame) with (emit (EvRun gv NilFrame)) in Hrun.
  rewrite bind_emit, bind_unfold in Hrun.
  rewrite runLoop_spec in Hrun. inversion Hrun; subst; clear Hrun.
  exists (initialization (la_rootNodes acc) gv
            (initNodes ++ entryPoint gs (la_pkgName acc) sk)).
  split; [|left; eauto].
  rewrite !addEvents_app. unfold registeredState, initialization.
  do 3 f_equal. unfold entryPoint.
  destruct (sym gs !! mainID) as [m|]; [|by rewrite app_nil_r].
  by destruct (bool_decide _ && sk); [|rewrite app_nil_r].
Qed.

End FinishImport.

(** ** The paths through [importSrc] and [importSrcArchive] *)

Section Cases.

Context (H : Host) (importer : string → string → bool → M string).

(** The part of [importSrc] after the marking of the path. *)
Definition directoryRun (dir rPath P : string) (sk : bool) : M string :=
  emit (EvReadDir dir);;
  files ← orFail (readDir H dir);
  acc ← foldM (loadFile H importer dir rPath P sk) files (LoadAcc "" [] ∅);
  finishImport H P sk acc.

(** The part of [importSrcArchive] after the marking of the path. *)
Definition archiveRun (dir rPath P : string) (sk : bool) (reader : archive)
  : M string :=
  match reader with
  | GzipBad err => fail err
  | GzipStream entries =>
      acc ← foldM (loadEntry H importer dir rPath P sk) entries
              (LoadAcc "" [] ∅);
      finishImport H P sk acc
  end.

(** The state in which the sources of [P] are loaded. *)
Definition begun (P : string) (st : Interpreter) : Interpreter :=
  set_importing (cons P) (set_rdir <[P := true]> st).

(** The state in which the call that imported [P] returns. *)
Definition ended (st : Interpreter) : Interpreter :=
  set_importing (drop 1) st.

Lemma importSrcBody_cases rPath P sk st r st' :
  importSrcBody H importer rPath P sk st = (r, st') →
  (∃ t, srcPkg st !! P = Some t ∧ st' = st ∧
        r = match pkgNames st !! P with
            | Some n => Ok n
            | None => Fail (ErrInconsistent P)
            end) ∨
  (srcPkg st !! P = None ∧
   ((st' = st ∧ ∃ r1, resolve H rPath P st = (r1, st) ∧ stops r1 r) ∨
    (∃ dir rPath', resolve H rPath P st = (Ok (dir, rPath'), st) ∧
       ((default false (rdir st !! P) = true ∧
         r = Fail (ErrImportCycle P) ∧
         st' = addEvents [EvCycle P (importing st)] st) ∨
        (default false (rdir st !! P) = false ∧
         ∃ st1, directoryRun dir rPath' P sk (begun P st) = (r, st1) ∧
                st' = ended st1))))).
Proof.
  unfold importSrcBody. rewrite bind_gets.
  destruct (srcPkg st !! P) as [t|] eqn:Hreg.
  { rewrite bind_gets. intros Hr. left. exists t.
    split; [done|]. by destruct (pkgNames st !! P); inversion Hr. }
  intros Hr. right. split; [done|].
  apply bind_inv in Hr as [([dir rPath'] & st1 & Hres & Hr)|(r1 & Hres & Hs)].
  2:{ left. pose proof (resolve_state H rPath P st) as Hst.
      rewrite Hres in Hst. simpl in Hst. subst st'. eauto. }
  pose proof (resolve_state H rPath P st) as Hst.
  rewrite Hres in Hst. simpl in Hst. subst st1.
  right. exists dir, rPath'. split; [done|].
  rewrite !bind_gets in Hr.
  destruct (default false (rdir st !! P)) eqn:Hvis.
  - left. rewrite bind_emit in Hr. by inversion Hr.
  - right. split; [done|]. rewrite !bind_modify in Hr.
    unfold finally in Hr. fold (begun P st) in Hr.
    fold (directoryRun dir rPath' P sk) in Hr.
    destruct (directoryRun dir rPath' P sk (begun P st)) as [r2 st2].
    inversion Hr; subst. eauto.
Qed.

Lemma directoryRun_cases dir rPath P sk st r st' :
  directoryRun dir rPath P sk st = (r, st') →
  let st0 := addEvents [EvReadDir dir] st in
  (∃ e, readDir H dir = inl e ∧ r = Fail e ∧ st' = st0) ∨
  (∃ files, readDir H dir = inr files ∧
     ((∃ r1, foldM (loadFile H importer dir rPath P sk) files
               (LoadAcc "" [] ∅) st0 = (r1, st') ∧ stops r1 r) ∨
      (∃ acc st1, foldM (loadFile H importer dir rPath P sk) files
                    (LoadAcc "" [] ∅) st0 = (Ok acc, st1) ∧
                  finishImport H P sk acc st1 = (r, st')))).
Proof.
  unfold directoryRun. rewrite bind_emit, bind_unfold.
  destruct (readDir H dir) as [e|files]; simpl.
  { intros [= <- <-]. left. eauto. }
  intros Hr. right. exists files. split; [done|].
  apply bind_inv in Hr as [(acc & st1 & Hl & Hr)|(r1 & Hl & Hs)]; eauto.
Qed.

Lemma importSrcArchiveBody_cases reader sk st r st' :
  importSrcArchiveBody H importer reader sk st = (r, st') →
  (st' = st ∧ ∃ r1, resolve H "." "/" st = (r1, st) ∧ stops r1 r) ∨
  (∃ dir rPath' st1,
     resolve H "." "/" st = (Ok (dir, rPath'), st) ∧
     archiveRun dir rPath' "/" sk reader (begun "/" st) = (r, st1) ∧
     st' = ended st1).
Proof.
  unfold importSrcArchiveBody. intros Hr.
  apply bind_inv in Hr as [([dir rPath'] & st1 & Hres & Hr)|(r1 & Hres & Hs)].
  2:{ left. pose proof (resolve_state H "." "/" st) as Hst.
      rewrite Hres in Hst. simpl in Hst. subst st'. eauto. }
  pose proof (resolve_state H "." "/" st) as Hst.
  rewrite Hres in Hst. simpl in Hst. subst st1.
  right. exists dir, rPath'.
  rewrite !bind_modify in Hr. unfold finally in Hr.
  fold (begun "/" st) in Hr.
  fold (archiveRun dir rPath' "/" sk reader) in Hr.
  destruct (archiveRun dir rPath' "/" sk reader (begun "/" st)) as [r2 st2].
  inversion Hr; subst. eauto.
Qed.

Lemma archiveRun_cases dir rPath P sk reader st r st' :
  archiveRun dir rPath P sk reader st = (r, st') →
  (∃ e, reader = GzipBad e ∧ r = Fail e ∧ st' = st) ∨
  (∃ entries, reader = GzipStream entries ∧
     ((∃ r1, foldM (loadEntry H importer dir rPath P sk) entries
               (LoadAcc "" [] ∅) st = (r1, st') ∧ stops r1 r) ∨
      (∃ acc st1, foldM (loadEntry H importer dir rPath P sk) entries
                    (LoadAcc "" [] ∅) st = (Ok acc, st1) ∧
                  finishImport H P sk acc st1 = (r, st')))).
Proof.
  destruct reader as [e|entries]; simpl.
  { intros [= <- <-]. left. eauto. }
  intros Hr. right. exists entries. split; [done|].
  apply bind_inv in Hr as [(acc & st1 & Hl & Hr)|(r1 & Hl & Hs)]; eauto.
Qed.

End Cases.

(** ** How an import ends *)

Section Ends.

Context (H : Host) (importer : string → string → bool → M string).
Context (Hfrozen : ∀ X v w r Q sk, preserves (frozen X v w) (importer r Q sk)).

Lemma frozen_Stable X v w P : Stable (frozen X v w) P.
Proof. by constructor. Qed.

(** The end of the part of an import that follows the marking: before the
    registration, with the registry entries of [P] as they were, or after
    it. *)
Definition endSpec (P : string) (sk : bool) (st0 : Interpreter)
    (r : outcome string) (st1 : Interpreter) : Prop :=
  ((∀ a, r ≠ Ok a) ∧ srcPkg st1 !! P = srcPkg st0 !! P ∧
   pkgNames st1 !! P = pkgNames st0 !! P) ∨
  (∃ acc st2 gs initNodes post,
     scopes st2 !! P = Some gs ∧
     st1 = registeredState P (la_pkgName acc) gs post st2 ∧
     ((∃ gv, r = Ok (la_pkgName acc) ∧
             genGlobalVars H (la_rootNodes acc) gs = inr gv ∧
             post = initialization (la_rootNodes acc) gv
                      (initNodes ++ entryPoint gs (la_pkgName acc) sk)) ∨
      (∃ e, r = Fail e ∧ initFailure H e ∧ Forall initEvent post))).

Lemma lowersOnly_registry P st st' :
  lowersOnly P st st' →
  srcPkg st' = srcPkg st ∧ pkgNames st' = pkgNames st.
Proof. by intros (new & (?&?&?&?&?&?&?&?) & _). Qed.

Lemma finishImport_endSpec P sk acc st0 st st' r v w :
  frozen P v w st0 → frozen P v w st →
  finishImport H P sk acc st = (r, st') →
  endSpec P sk st0 r st'.
Proof.
  intros (_ & Hv0 & Hw0) (_ & Hv & Hw) Hr.
  apply finishImport_spec in Hr as [[Hno Hl]|Hreg].
  - left. apply lowersOnly_registry in Hl as [-> ->].
    split; [done|]. by rewrite Hv0, Hw0.
  - right.
    destruct Hreg as (st1 & gs & initNodes & post & ? & _ & _ & ? & ? & ?).
    exists acc, st1, gs, initNodes, post. eauto.
Qed.

Lemma directoryRun_endSpec dir rPath P sk st r st' :
  marked P st →
  directoryRun H importer dir rPath P sk st = (r, st') →
  endSpec P sk st r st'.
Proof.
  intros Hm Hr.
  assert (frozen P (srcPkg st !! P) (pkgNames st !! P) st) as Hf by done.
  apply directoryRun_cases in Hr
    as [(e & _ & -> & ->)|(files & _ & [(r1 & Hl & Hs)|(acc & st1 & Hl & Hr)])].
  - by left.
  - left. split; [intros a; eapply stops_not_ok; eauto|].
    eapply (preserves_run (frozen P _ _)) in Hl as (_ & ? & ?);
      [done|apply loadFiles_preserves; [apply frozen_Stable|done]|exact Hf].
  - eapply finishImport_endSpec; [exact Hf| |exact Hr].
    eapply (preserves_run (frozen P _ _)) in Hl;
      [done|apply loadFiles_preserves; [apply frozen_Stable|done]|exact Hf].
Qed.

Lemma archiveRun_endSpec dir rPath P sk reader st r st' :
  marked P st →
  archiveRun H importer dir rPath P sk reader st = (r, st') →
  endSpec P sk st r st'.
Proof.
  intros Hm Hr.
  assert (frozen P (srcPkg st !! P) (pkgNames st !! P) st) as Hf by done.
  apply archiveRun_cases in Hr
    as [(e & _ & -> & ->)|(files & _ & [(r1 & Hl & Hs)|(acc & st1 & Hl & Hr)])].
  - by left.
  - left. split; [intros a; eapply stops_not_ok; eauto|].
    eapply (preserves_run (frozen P _ _)) in Hl as (_ & ? & ?);
      [done|apply loadEntries_preserves; [apply frozen_Stable|done]|exact Hf].
  - eapply finishImport_endSpec; [exact Hf| |exact Hr].
    eapply (preserves_run (frozen P _ _)) in Hl;
      [done|apply loadEntries_preserves; [apply frozen_Stable|done]|exact Hf].
Qed.

End Ends.

(** ** Registry hits, re-entry and the end of a call of [importSrc] *)

Section Calls.

Context (H : Host).

Lemma resolve_run rPath P st r :
  (resolve H rPath P st).1 = r → resolve H rPath P st = (r, st).
Proof.
  intros <-. pose proof (resolve_state H rPath P st) as Hst.
  by destruct (resolve H rPath P st) as [r' st']; simpl in *; subst.
Qed.

(** A registered path is answered from the registry: nothing is resolved,
    read, parsed, declared or lowered, and the state is left as it is. *)
Lemma importSrc_hit fuel rPath P sk st t n :
  srcPkg st !! P = Some t → pkgNames st !! P = Some n →
  importSrc H (S fuel) rPath P sk st = (Ok n, st).
Proof.
  intros Ht Hn. simpl. unfold importSrcBody.
  by rewrite bind_gets, Ht, bind_gets, Hn.
Qed.

(** An unregistered, marked path that resolves is reported as a cycle. *)
Lemma importSrc_revisit fuel rPath P sk st d :
  srcPkg st !! P = None → marked P st →
  (resolve H rPath P st).1 = Ok d →
  importSrc H (S fuel) rPath P sk st =
  (Fail (ErrImportCycle P), addEvents [EvCycle P (importing st)] st).
Proof.
  intros Hreg Hm Hres%resolve_run. simpl. unfold importSrcBody.
  rewrite bind_gets, Hreg, bind_unfold, Hres. destruct d as [dir rPath'].
  rewrite !bind_gets. unfold marked in Hm. rewrite Hm. simpl.
  by rewrite bind_emit.
Qed.

Lemma begun_marked P st : marked P (begun P st).
Proof. unfold marked, begun. simpl. apply lookup_insert_eq. Qed.

(** How a call of [importSrc] that went past the registry ends. *)
Lemma importSrc_endSpec fuel rPath P sk st r st' :
  importSrc H fuel rPath P sk st = (r, st') →
  srcPkg st !! P = None →
  ((∀ a, r ≠ Ok a) ∧ srcPkg st' !! P = None ∧
   pkgNames st' !! P = pkgNames st !! P) ∨
  (∃ st1, default false (rdir st !! P) = false ∧
          endSpec H P sk (begun P st) r st1 ∧ st' = ended st1).
Proof.
  destruct fuel as [|fuel]; simpl.
  { intros [= <- <-] Hreg. by left. }
  intros Hr Hreg.
  apply importSrcBody_cases in Hr as [(t & Ht & _)|(_ & Hr)]; [congruence|].
  destruct Hr as [(-> & r1 & _ & Hs)|(dir & rPath' & _ & Hr)].
  { left. split; [intros a; eapply stops_not_ok; eauto|done]. }
  destruct Hr as [(_ & -> & ->)|(Hvis & st1 & Hr & ->)].
  { by left. }
  right. exists st1. split; [done|]. split; [|done].
  eapply directoryRun_endSpec; [|apply begun_marked|exact Hr].
  intros. apply importSrc_frozen.
Qed.

Lemma importSrcArchive_endSpec fuel reader sk st r st' :
  importSrcArchive H fuel reader sk st = (r, st') →
  (st' = st ∧ ∀ a, r ≠ Ok a) ∨
  (∃ st1, endSpec H "/" sk (begun "/" st) r st1 ∧ st' = ended st1).
Proof.
  intros Hr.
  apply importSrcArchiveBody_cases in Hr
    as [(-> & r1 & _ & Hs)|(dir & rPath' & st1 & _ & Hr & ->)].
  { left. split; [done|]. intros a; eapply stops_not_ok; eauto. }
  right. exists st1. split; [|done].
  eapply archiveRun_endSpec; [|apply begun_marked|exact Hr].
  intros. apply importSrc_frozen.
Qed.

(** A call of [importSrc] that returns a name leaves the package registered
    under that name. *)
Lemma importSrc_registers fuel rPath P sk st name st' :
  importSrc H fuel rPath P sk st = (Ok name, st') →
  ∃ t, registeredAs P t name st'.
Proof.
  intros Hr. destruct (srcPkg st !! P) as [t|] eqn:Hreg.
  - destruct fuel as [|fuel]; [done|]. simpl in Hr.
    apply importSrcBody_cases in Hr as [(t' & Ht & -> & Hn)|(? & _)];
      [|congruence].
    exists t. split; [done|]. by destruct (pkgNames st !! P); inversion Hn.
  - apply importSrc_endSpec in Hr as [(Hno & _)|(st1 & _ & He & ->)];
      [by destruct (Hno name)| |done].
    destruct He as [(Hno & _)|He]; [by destruct (Hno name)|].
    destruct He as (acc & st2 & gs & initNodes & post & _ & -> & He).
    destruct He as [(gv & [= ->] & _)|(e & [=] & _)].
    exists (sym gs). split; simpl; apply lookup_insert_eq.
Qed.

End Calls.

(** ** Small worlds to run the pipeline in *)

Module Demo.

Fixpoint assoc {A} (k : string) (l : list (string * A)) : option A :=
  match l with
  | [] => None
  | (k', v) :: rest => if decide (k = k') then Some v else assoc k rest
  end.

Fixpoint assocN {A} (k : nat) (l : list (nat * A)) : option A :=
  match l with
  | [] => None
  | (k', v) :: rest => if decide (k = k') then Some v else assocN k rest
  end.

(** A file system and what the passes of the interpreter make of its
    sources. *)
Record world := World {
  w_dirs : list (string * list string);      (* directory, entries *)
  w_files : list (string * string);          (* file, content *)
  w_parse : list (string * (string * option node));
                                             (* content, package and root *)
  w_imports : list (nat * list (string * bool));
                                             (* root, imports from source *)
  w_decls : list (nat * list (string * node));
                                             (* root, declared symbols *)
  w_inits : list (nat * list node);          (* root, init functions *)
  w_genRun : list nat;                       (* roots genRun rejects *)
  w_globals : error + node                   (* combined initializer *)
}.

Definition hostOf (w : world) : Host := {|
  getwd := inr "/";
  stat := λ d, bool_decide (d ∈ (w_dirs w).*1);
  ctxImport := λ _, None;
  readDir := λ d,
    match assoc d (w_dirs w) with
    | Some l => inr l
    | None => inl (ErrOther "no such file or directory")
    end;
  readFile := λ f,
    match assoc f (w_files w) with
    | Some s => inr s
    | None => inl (ErrOther "no such file or directory")
    end;
  skipFile := λ n sk,
    negb (HasSuffix n ".go") || (sk && HasSuffix n "_test.go");
  parse := λ buf _,
    match assoc buf (w_parse w) with
    | Some r => inr r
    | None => inl (ErrOther "expected 'package'")
    end;
  imports := λ n, default [] (assocN (node_id n) (w_imports w));
  declare := λ n _ _ _ sc,
    inr (Scope (foldr (λ '(k, nd) m, <[k := Symbol nd]> m) (sym sc)
                  (default [] (assocN (node_id n) (w_decls w)))), []);
  retry := λ _ _ sc, inr sc;
  lower := λ n _ sc, inr (sc, default [] (assocN (node_id n) (w_inits w)));
  genRun := λ n,
    if bool_decide (node_id n ∈ w_genRun w)
    then Some (ErrOther "undefined selector") else None;
  genGlobalVars := λ _ _, w_globals w
|}.

(** The package "foo" of two files in the GOPATH "/go". *)
Definition fooWorld : world := {|
  w_dirs := [("/go/src/foo", ["a.go"; "b.go"; "README"])];
  w_files := [("/go/src/foo/a.go", "package foo; func A()");
              ("/go/src/foo/b.go", "package foo; func init()")];
  w_parse := [("package foo; func A()", ("foo", Some (Node 1)));
              ("package foo; func init()", ("foo", Some (Node 2)))];
  w_imports := [];
  w_decls := [(1, [("A", Node 10)])];
  w_inits := [(2, [Node 20])];
  w_genRun := [];
  w_globals := inr (Node 0)
|}.

Definition fresh : Interpreter := newInterpreter "" "/go".

(** The packages "a" and "b" import each other. *)
Definition cycleWorld : world := {|
  w_dirs := [("/go/src/a", ["a.go"]); ("/go/src/b", ["b.go"])];
  w_files := [("/go/src/a/a.go", "package a; import b");
              ("/go/src/b/b.go", "package b; import a")];
  w_parse := [("package a; import b", ("a", Some (Node 1)));
              ("package b; import a", ("b", Some (Node 2)))];
  w_imports := [(1, [("b", true)]); (2, [("a", true)])];
  w_decls := [];
  w_inits := [];
  w_genRun := [];
  w_globals := inr (Node 0)
|}.

(** The package "foo", with a function body that [genRun] rejects. *)
Definition badBodyWorld : world := {|
  w_dirs := w_dirs fooWorld;
  w_files := w_files fooWorld;
  w_parse := w_parse fooWorld;
  w_imports := [];
  w_decls := w_decls fooWorld;
  w_inits := w_inits fooWorld;
  w_genRun := [1];
  w_globals := inr (Node 0)
|}.

(** The package "foo", with global variables defined in a loop. *)
Definition badGlobalsWorld : world := {|
  w_dirs := w_dirs fooWorld;
  w_files := w_files fooWorld;
  w_parse := w_parse fooWorld;
  w_imports := [];
  w_decls := w_decls fooWorld;
  w_inits := w_inits fooWorld;
  w_genRun := [];
  w_globals := inl (ErrOther "variable definition loop")
|}.

(** A directory with sources of two packages. *)
Definition mixedWorld : world := {|
  w_dirs := [("/go/src/mix", ["a.go"; "b.go"])];
  w_files := [("/go/src/mix/a.go", "package foo");
              ("/go/src/mix/b.go", "package bar")];
  w_parse := [("package foo", ("foo", Some (Node 1)));
              ("package bar", ("bar", Some (Node 2)))];
  w_imports := [];
  w_decls := [];
  w_inits := [];
  w_genRun := [];
  w_globals := inr (Node 0)
|}.

(** An entry package with an init function. *)
Definition mainWorld : world := {|
  w_dirs := [("/go/src/cmd", ["main.go"])];
  w_files := [("/go/src/cmd/main.go", "package main; func init(); func main()")];
  w_parse := [("package main; func init(); func main()",
               ("main", Some (Node 1)))];
  w_imports := [];
  w_decls := [(1, [("main", Node 12)])];
  w_inits := [(1, [Node 11])];
  w_genRun := [];
  w_globals := inr (Node 0)
|}.

End Demo.

(** ** Counting registrations *)

(** [e] is the registration of the package [X]. *)
Definition isRegistration (X : string) (e : event) : bool :=
  match e with
  | EvRegister p _ => bool_decide (p = X)
  | _ => false
  end.

(** The number of times [X] was registered in the events [l]. *)
Definition registrations (X : string) (l : list event) : nat :=
  length (filter (λ e, Is_true (isRegistration X e)) l).

(** A sequence of calls of [importSrc], each with its recursion bound, its
    [rPath], its import path and its [skipTest]. *)
Definition importAll (H : Host) (calls : list (nat * string * string * bool))
    (st : Interpreter) : Interpreter :=
  foldl (λ st '(fuel, rPath, P, sk), (importSrc H fuel rPath P sk st).2)
    st calls.

(** [X] is marked and was never registered. *)
Definition unregistered (X : string) (st : Interpreter) : Prop :=
  marked X st ∧ registrations X (events st) = 0.

(** [X] was registered at most once, and only after it was marked. *)
Definition once (X : string) (st : Interpreter) : Prop :=
  registrations X (events st) = 0 ∨
  (registrations X (events st) = 1 ∧ marked X st).

Lemma registrations_app X l1 l2 :
  registrations X (l1 ++ l2) = registrations X l1 + registrations X l2.
Proof. unfold registrations. by rewrite filter_app, length_app. Qed.

Lemma registrations_none X l :
  Forall (λ e, isRegistration X e = false) l → registrations X l = 0.
Proof.
  unfold registrations. induction 1 as [|e l He _ IH]; [done|].
  rewrite filter_cons. destruct (decide _) as [Ht|]; [|done].
  by rewrite He in Ht.
Qed.

Lemma registrations_snoc_other X l e :
  isRegistration X e = false →
  registrations X (l ++ [e]) = registrations X l.
Proof.
  intros He. rewrite registrations_app, (registrations_none X [e]); [lia|].
  by constructor.
Qed.

Lemma passEvent_not_registration P X e :
  passEvent P e = true → isRegistration X e = false.
Proof. by destruct e. Qed.

Lemma lowering_not_registration P X l :
  Forall (lowering P) l → Forall (λ e, isRegistration X e = false) l.
Proof.
  intros Hl. eapply Forall_impl; [exact Hl|]. by intros e [[? ->]|[? ->]].
Qed.

Lemma initEvent_not_registration X l :
  Forall initEvent l → Forall (λ e, isRegistration X e = false) l.
Proof.
  intros Hl. eapply Forall_impl; [exact Hl|].
  by intros e [[? ->]|(? & ? & ->)].
Qed.

Lemma initialization_initEvent rootNodes gv initNodes :
  Forall initEvent (initialization rootNodes gv initNodes).
Proof.
  unfold initialization, wiring. rewrite !Forall_app. split; [|split].
  - apply Forall_concat, Forall_fmap, Forall_forall. intros n _. simpl.
    constructor; [left; eauto|]. constructor; [right; eauto|done].
  - constructor; [right; eauto|done].
  - apply Forall_fmap, Forall_forall. intros n _. simpl. right; eauto.
Qed.

Section Once.

Context (H : Host).

Lemma unregistered_Stable X P : Stable (unregistered X) P.
Proof.
  constructor; [|done]. intros e st He [? Hr]. split; [done|]. simpl.
  rewrite registrations_snoc_other; [done|].
  by eapply passEvent_not_registration.
Qed.

Lemma unregistered_KeptAt X Q : KeptAt (unregistered X) Q.
Proof.
  split.
  { intros stk st [? ?]. split; [done|]. simpl.
    by rewrite registrations_snoc_other. }
  intros st (Hm & _) _ Hvis.
  assert (Q ≠ X).
  { intros ->. by eapply marked_not_visiting. }
  split; [apply unregistered_Stable|]. split; constructor; try done.
  - intros n st' [? ?]. split; [done|]. simpl.
    rewrite registrations_snoc_other; [done|]. simpl.
    by apply bool_decide_eq_false_2.
  - intros st' [? ?]. split; [|done]. by apply marked_insert.
Qed.

Lemma importSrc_unregistered X fuel rPath P sk :
  preserves (unregistered X) (importSrc H fuel rPath P sk).
Proof. apply importSrc_preserves. apply unregistered_KeptAt. Qed.

Lemma once_KeptAt X Q : Q ≠ X → KeptAt (once X) Q.
Proof.
  intros HQ.
  assert (∀ e st, isRegistration X e = false →
                  once X st → once X (addEvents [e] st)) as Hev.
  { intros e st He Hon. unfold once. simpl.
    by rewrite registrations_snoc_other. }
  split; [intros; by apply Hev|]. intros _ _ _ _.
  split; [|split]; constructor; try done.
  - intros e st He. apply Hev. by eapply passEvent_not_registration.
  - intros n st. apply Hev. simpl. by apply bool_decide_eq_false_2.
  - intros st [?|[? ?]]; [by left|right]. split; [done|].
    by apply marked_insert.
Qed.

Lemma finishImport_once X sk acc st r st' :
  unregistered X st →
  finishImport H X sk acc st = (r, st') → once X st'.
Proof.
  intros [Hm Hr0] Hr.
  apply finishImport_spec in Hr as [[_ Hl]|Hreg].
  - left. destruct Hl as (new & (_&_&_&_&_&_&_&->) & Hnew).
    rewrite registrations_app, Hr0. simpl.
    apply registrations_none. by eapply lowering_not_registration.
  - right.
    destruct Hreg
      as (st1 & gs & initNodes & post & retries & Hl & Hre & _ & -> & Hpost).
    destruct Hl as (_&_&_&_&_&Hrd&_&Hev).
    assert (Forall (lowering X) (retries ++ (EvCfg X <$> la_rootNodes acc)))
      as Hnew.
    { apply Forall_app. split.
      - eapply Forall_impl; [exact Hre|]. intros e ?. by left.
      - apply Forall_fmap, Forall_forall. intros root _. right. by eexists. }
    set (new := retries ++ (EvCfg X <$> la_rootNodes acc)) in *.
    split; [|unfold marked; simpl; by rewrite Hrd].
    simpl. rewrite Hev, !registrations_app, Hr0.
    rewrite (registrations_none X new)
      by (by eapply lowering_not_registration).
    change (EvRegister X (la_pkgName acc) :: EvResizeFrame :: post)
      with ([EvRegister X (la_pkgName acc)] ++ [EvResizeFrame] ++ post).
    rewrite !registrations_app, (registrations_none X post).
    + unfold registrations. rewrite filter_cons.
      destruct (decide _) as [|Hf]; [done|].
      destruct Hf. simpl. by rewrite bool_decide_eq_true_2.
    + apply initEvent_not_registration.
      destruct Hpost as [(gv & _ & _ & ->)|(e & _ & _ & ?)]; [|done].
      apply initialization_initEvent.
Qed.

Lemma importSrc_once X fuel rPath P sk :
  preserves (once X) (importSrc H fuel rPath P sk).
Proof.
  revert rPath P sk. induction fuel as [|fuel IH]; intros rPath P sk.
  { apply preserves_outOfFuel. }
  destruct (decide (P = X)) as [->|HP].
  2:{ simpl. apply importSrcBody_preserves; [done|by apply once_KeptAt]. }
  intros st Hon.
  destruct (importSrc H (S fuel) rPath X sk st) as [r st'] eqn:Hr.
  simpl in *.
  apply importSrcBody_cases in Hr as [(t & _ & -> & _)|(_ & Hr)]; [done|].
  destruct Hr as [(-> & _)|(dir & rPath' & _ & Hr)]; [done|].
  destruct Hr as [(_ & _ & ->)|(Hvis & st1 & Hr & ->)].
  { unfold once. simpl. by rewrite registrations_snoc_other. }
  assert (unregistered X (begun X st)) as Hun.
  { split; [apply begun_marked|]. simpl.
    destruct Hon as [?|[_ Hm]]; [done|].
    by destruct (marked_not_visiting _ _ Hm Hvis). }
  cut (once X st1); [done|].
  apply directoryRun_cases in Hr
    as [(e & _ & _ & ->)|(files & _ & [(r1 & Hl & _)|(acc & st2 & Hl & Hr)])].
  - left. simpl. destruct Hun as [_ Hun]. simpl in Hun.
    by rewrite registrations_snoc_other.
  - left. eapply (preserves_run (unregistered X)) in Hl as [_ ?]; [done| |].
    + apply loadFiles_preserves; [apply unregistered_Stable|].
      intros. apply importSrc_unregistered.
    + by apply (stable_event _ _ (unregistered_Stable X X)).
  - eapply finishImport_once; [|exact Hr].
    eapply (preserves_run (unregistered X)) in Hl; [done| |].
    + apply loadFiles_preserves; [apply unregistered_Stable|].
      intros. apply importSrc_unregistered.
    + by apply (stable_event _ _ (unregistered_Stable X X)).
Qed.

Lemma importAll_once X calls st :
  once X st → once X (importAll H calls st).
Proof.
  revert st. induction calls as [|[[[fuel rPath] P] sk] calls IH];
    intros st Hon; simpl; [done|].
  apply IH. by apply importSrc_once.
Qed.

Lemma importAll_registeredAs X t n calls st :
  registeredAs X t n st → registeredAs X t n (importAll H calls st).
Proof.
  revert st. induction calls as [|[[[fuel rPath] P] sk] calls IH];
    intros st Hon; simpl; [done|].
  apply IH. by apply importSrc_registeredAs.
Qed.

End Once.

(** ** The registry *)



(** C3, as the code has it. An import that returns an error leaves the
    registry entries of its path as they were, unless the error is one of
    [genRun] or of [genGlobalVars], returned while the package, which is
    registered by then, is initialized. This holds for [importSrc] and for
    [importSrcArchive]. *)
Theorem failed_import_registry (H : Host) (fuel : nat) :
  (∀ rPath P sk st e st',
     importSrc H fuel rPath P sk st = (Fail e, st') →
     (srcPkg st' !! P = srcPkg st !! P ∧
      pkgNames st' !! P = pkgNames st !! P) ∨
     (initFailure H e ∧ is_Some (srcPkg st' !! P))) ∧
  (∀ reader sk st e st',
     importSrcArchive H fuel reader sk st = (Fail e, st') →
     (srcPkg st' !! "/" = srcPkg st !! "/" ∧
      pkgNames st' !! "/" = pkgNames st !! "/") ∨
     (initFailure H e ∧ is_Some (srcPkg st' !! "/"))).
Proof.
  assert (∀ P sk st0 e st1,
            endSpec H P sk st0 (Fail e) st1 →
            (srcPkg (ended st1) !! P = srcPkg st0 !! P ∧
             pkgNames (ended st1) !! P = pkgNames st0 !! P) ∨
            (initFailure H e ∧ is_Some (srcPkg (ended st1) !! P))) as Hend.
  { intros P sk st0 e st1 [(_ & ? & ?)|He]; [by left|right].
    destruct He as (acc & st2 & gs & initNodes & post & _ & -> & He).
    destruct He as [(gv & [=] & _)|(e' & [= <-] & He & _)].
    split; [done|]. exists (sym gs). simpl. apply lookup_insert_eq. }
  split.
  - intros rPath P sk st e st' Hr.
    destruct (srcPkg st !! P) as [t|] eqn:Hreg.
    + left. destruct fuel as [|fuel]; [done|]. simpl in Hr.
      apply importSrcBody_cases in Hr as [(t' & _ & -> & _)|(? & _)];
        [by rewrite Hreg|congruence].
    + apply importSrc_endSpec in Hr as [(_ & -> & ?)|(st1 & _ & He & ->)];
        [by left| |done].
      apply Hend in He. simpl in He. by rewrite Hreg in He.
  - intros reader sk st e st' Hr.
    apply importSrcArchive_endSpec in Hr as [[-> _]|(st1 & He & ->)];
      [by left|].
    apply Hend in He. simpl in He.
    destruct He as [[Hs Hn]|?]; [left|by right].
    (* the marking of "/" does not touch the registry *)
    done.
Qed.

Lemma failed_import_registry_witness :
  let H := Demo.hostOf Demo.mixedWorld in
  let st' := (importSrc H 2 "" "mix" true Demo.fresh).2 in
  (srcPkg st' !! "mix" = srcPkg Demo.fresh !! "mix" ∧
   pkgNames st' !! "mix" = pkgNames Demo.fresh !! "mix") ∨
  (initFailure H (ErrPackages "foo" "bar" "/go/src/mix") ∧
   is_Some (srcPkg st' !! "mix")).
Proof.
  intros H st'.
  apply (proj1 (failed_import_registry H 2) "" "mix" true Demo.fresh).
  vm_compute. reflexivity.
Defined.

(** C3 as stated fails: an import that fails while the package is
    initialized returns its error with the package registered. *)
Lemma failed_import_registered :
  let H := Demo.hostOf Demo.badBodyWorld in
  ∃ e st',
    importSrc H 2 "" "foo" true Demo.fresh = (Fail e, st') ∧
    srcPkg st' !! "foo" ≠ srcPkg Demo.fresh !! "foo" ∧
    pkgNames st' !! "foo" = Some "foo".
Proof.
  eexists _, _. split; [vm_compute; reflexivity|]. by vm_compute.
Qed.

(** ** The visiting marker *)

(** The input file and the GOPATH are never written. *)
Definition configured (n g : string) (st : Interpreter) : Prop :=
  name st = n ∧ GOPATH st = g.

Lemma configured_KeptAt n g Q : KeptAt (configured n g) Q.
Proof.
  split; [done|]. intros _ _ _ _. split; [|split]; by constructor.
Qed.

Lemma rootFromSourceLocation_ext H rPath st1 st2 :
  name st1 = name st2 → GOPATH st1 = GOPATH st2 →
  (rootFromSourceLocation H rPath st1).1 =
  (rootFromSourceLocation H rPath st2).1.
Proof.
  intros Hn Hg. unfold rootFromSourceLocation. rewrite !bind_gets, Hn.
  destruct (_ || _); [done|]. rewrite !bind_unfold.
  destruct (getwd H) as [e|wd]; simpl; [done|].
  rewrite !bind_gets, Hg. by destruct (decide _).
Qed.

Lemma resolve_ext H rPath P st1 st2 :
  name st1 = name st2 → GOPATH st1 = GOPATH st2 →
  (resolve H rPath P st1).1 = (resolve H rPath P st2).1.
Proof.
  intros Hn Hg. unfold resolve. destruct (isPathRelative P).
  { rewrite !bind_gets. simpl. by rewrite Hn. }
  rewrite !bind_unfold.
  pose proof (rootFromSourceLocation_ext H rPath st1 st2 Hn Hg) as Hroot.
  pose proof (rootFromSourceLocation_preserves H (λ st, st = st1) rPath st1
                eq_refl) as H1.
  pose proof (rootFromSourceLocation_preserves H (λ st, st = st2) rPath st2
                eq_refl) as H2.
  destruct (rootFromSourceLocation H rPath st1) as [r1 st1'].
  destruct (rootFromSourceLocation H rPath st2) as [r2 st2'].
  simpl in *. subst. destruct r2; try done.
  rewrite !bind_gets. simpl. by rewrite Hg.
Qed.

(** C8, as the code has it. A marker, once set, is set after every call of
    [importSrc] and of [importSrcArchive], however the call ends. So after
    an import of [P] has failed with the marker of [P] set and [P] not
    registered, every further attempt that gets past the path resolution
    reports an import cycle; it gets past it when the failed import set the
    marker itself and the attempt uses the same [rPath]. *)
Theorem visiting_marker_kept (H : Host) :
  (∀ X fuel rPath P sk st,
     marked X st → marked X (importSrc H fuel rPath P sk st).2) ∧
  (∀ X fuel reader sk st,
     marked X st → marked X (importSrcArchive H fuel reader sk st).2) ∧
  (∀ fuel rPath P sk st e st',
     importSrc H fuel rPath P sk st = (Fail e, st') →
     marked P st' → srcPkg st' !! P = None →
     (∀ fuel' rPath' sk' d,
        (resolve H rPath' P st').1 = Ok d →
        (importSrc H (S fuel') rPath' P sk' st').1 =
        Fail (ErrImportCycle P)) ∧
     (¬ marked P st →
      ∀ fuel' sk',
        (importSrc H (S fuel') rPath P sk' st').1 =
        Fail (ErrImportCycle P))).
Proof.
  split; [|split].
  - intros X fuel rPath P sk st. apply importSrc_marked.
  - intros X fuel reader sk st. apply importSrcArchive_marked.
  - intros fuel rPath P sk st e st' Hr Hm Hreg.
    assert (∀ fuel' rPath' sk' d,
              (resolve H rPath' P st').1 = Ok d →
              (importSrc H (S fuel') rPath' P sk' st').1 =
              Fail (ErrImportCycle P)) as Hagain.
    { intros fuel' rPath' sk' d Hres.
      by erewrite importSrc_revisit. }
    split; [done|]. intros Hnm fuel' sk'.
    assert (configured (name st) (GOPATH st) st') as [Hn Hg].
    { eapply (preserves_run (configured _ _)); [|split; reflexivity|exact Hr].
      apply importSrc_preserves. apply configured_KeptAt. }
    destruct fuel as [|fuel]; [done|]. simpl in Hr.
    apply importSrcBody_cases in Hr as [(t & _ & -> & _)|(_ & Hr)]; [done|].
    destruct Hr as [(-> & _)|(dir & rPath' & Hres & Hr)]; [done|].
    destruct Hr as [(Hvis & _)|_].
    { destruct Hnm. unfold marked.
      destruct (rdir st !! P) as [[]|]; by simpl in Hvis. }
    apply (Hagain _ _ _ (dir, rPath')).
    rewrite (resolve_ext H rPath P st' st) by done. by rewrite Hres.
Qed.

Lemma visiting_marker_kept_witness :
  let H := Demo.hostOf Demo.mixedWorld in
  let st' := (importSrc H 2 "" "mix" true Demo.fresh).2 in
  (importSrc H 2 "" "mix" false st').1 = Fail (ErrImportCycle "mix").
Proof.
  intros H st'.
  apply (proj2 (proj2 (visiting_marker_kept H)) 2 "" "mix" true Demo.fresh
           (ErrPackages "foo" "bar" "/go/src/mix") st').
  - vm_compute. reflexivity.
  - vm_compute. reflexivity.
  - vm_compute. reflexivity.
  - vm_compute. intros [=].
Defined.

(** C8 as stated fails: an import that fails while the package is
    initialized leaves the marker set, and the second attempt returns the
    name of the package. *)
Lemma second_attempt_after_init_failure :
  let H := Demo.hostOf Demo.badGlobalsWorld in
  ∃ e st',
    importSrc H 2 "" "foo" true Demo.fresh = (Fail e, st') ∧
    marked "foo" st' ∧
    (importSrc H 2 "" "foo" true st').1 = Ok "foo".
Proof.
  eexists _, _. split; [vm_compute; reflexivity|]. by vm_compute.
Qed.

(** ** The events of the loading of a package *)

(** The root nodes handed to [gta] in the events [l]. *)
Definition roots (l : list event) : list node :=
  omap (λ e, match e with EvGta _ root => Some root | _ => None end) l.

(** The package names of the files that parsed to a root node. *)
Definition parsedNames (l : list event) : list string :=
  omap (λ e, match e with
             | EvAst _ _ (inr (n, Some _)) => Some n
             | _ => None
             end) l.

(** The root nodes lowered in the events [l]. *)
Definition loweredRoots (l : list event) : list node :=
  omap (λ e, match e with EvCfg _ root => Some root | _ => None end) l.

(** The files that parsed to a root node agree on the package name [pk], an
    empty name apart. *)
Definition agreeOn (pk : string) (l : list event) : Prop :=
  ∀ n, n ∈ parsedNames l → n = "" ∨ n = pk.

(** What the loading of the sources of a package has done so far: to its
    events [tr], and to the variables [pkgName] and [rootNodes]. *)
Definition loadedSoFar (sk : bool) (acc : loadAcc) (tr : list event) : Prop :=
  roots tr = la_rootNodes acc ∧ loweredRoots tr = [] ∧
  (sk = true → agreeOn (la_pkgName acc) tr).

(** How the loading of the sources of a package stops: with files that agree
    on the package name, or on a file that does not. *)
Definition loadStopped {A} (P : string) (sk : bool) (r : outcome A)
    (tr : list event) : Prop :=
  loweredRoots tr = [] ∧
  (sk = true →
   (∃ pk, agreeOn pk tr) ∨
   (∃ pk pname dir tr0 f root,
      r = Fail (ErrPackages pk pname dir) ∧
      tr = tr0 ++ [EvAst P f (inr (pname, Some root))] ∧
      agreeOn pk tr0)).

Lemma loadedSoFar_stopped {A} P sk acc tr (r : outcome A) :
  loadedSoFar sk acc tr → loadStopped P sk r tr.
Proof. intros (_ & ? & Hag). split; [done|]. intros Hsk. left. eauto. Qed.

Lemma loadStopped_stops {A B} P sk (r1 : outcome A) (r : outcome B) tr :
  stops r1 r → loadStopped P sk r1 tr → loadStopped P sk r tr.
Proof.
  intros Hs [Hlow Hag]. split; [done|]. intros Hsk.
  destruct (Hag Hsk) as [?|(pk & pname & dir & tr0 & f & root & -> & ?)];
    [by left|right].
  inversion Hs; subst. eauto 10.
Qed.

Lemma quiet_own P tr e st :
  evPath e = Some P → quiet P tr st → quiet P (tr ++ [e]) (addEvents [e] st).
Proof.
  intros He [Hm <-]. split; [done|]. simpl. rewrite eventsOf_app.
  f_equal. unfold eventsOf. by rewrite filter_cons_True, filter_nil.
Qed.

Lemma quiet_other P tr e st :
  evPath e ≠ Some P → quiet P tr st → quiet P tr (addEvents [e] st).
Proof.
  intros He [Hm <-]. split; [done|]. simpl. by rewrite eventsOf_snoc_other.
Qed.

Lemma astDot_step name (b : bool) st :
  (if b then emit (EvAstDot name) else mret ()) st =
  (Ok (), if b then addEvents [EvAstDot name] st else st).
Proof. by destruct b. Qed.

Section Loading.

Context (H : Host) (importer : string → string → bool → M string).
Context (Hquiet : ∀ X tr r Q sk, preserves (quiet X tr) (importer r Q sk)).
Context (Hextends : ∀ ev0 r Q sk, preserves (extends ev0) (importer r Q sk)).

Lemma extends_Stable ev0 P : Stable (extends ev0) P.
Proof. constructor; [|done]. intros. by apply extends_snoc. Qed.

Lemma gta_quiet P tr root rPath st r st' :
  quiet P tr st →
  gta H importer root rPath P st = (r, st') →
  quiet P (tr ++ [EvGta P root]) st'.
Proof.
  intros Hq. unfold gta. rewrite bind_emit. intros Hr.
  eapply (preserves_run (quiet P _)); [|by apply quiet_own, Hq|exact Hr].
  repeat (pres_step; try done; try apply Hquiet).
Qed.

Lemma loadSource_quiet dir rPath P sk name buf acc trq tr st r st' :
  quiet P trq st → loadedSoFar sk acc tr →
  loadSource H importer dir rPath P sk name buf acc st = (r, st') →
  ∃ tr', quiet P (trq ++ tr') st' ∧
         match r with
         | Ok acc' => loadedSoFar sk acc' (tr ++ tr')
         | _ => loadStopped P sk r (tr ++ tr')
         end.
Proof.
  intros Hq (Hroots & Hlow & Hag). unfold loadSource.
  rewrite bind_emit, bind_unfold.
  set (res := parse H buf name).
  assert (quiet P (trq ++ [EvAst P name res]) (addEvents [EvAst P name res] st))
    as Hq1 by (by apply quiet_own).
  assert (roots (tr ++ [EvAst P name res]) = la_rootNodes acc) as Hroots1.
  { unfold roots. by rewrite omap_app, app_nil_r. }
  assert (loweredRoots (tr ++ [EvAst P name res]) = []) as Hlow1.
  { unfold loweredRoots in *. by rewrite omap_app, Hlow. }
  destruct res as [e|[pname [root|]]] eqn:Hres; simpl.
  - (* the file does not parse *)
    intros [= <- <-]. exists [EvAst P name (inl e)]. split; [done|].
    split; [done|]. intros Hsk. left. exists (la_pkgName acc).
    intros n. unfold parsedNames. rewrite omap_app, app_nil_r.
    by apply Hag.
  - (* a root node *)
    rewrite bind_gets, bind_unfold.
    rewrite astDot_step.
    set (st1 := if astDot _ then _ else _).
    assert (quiet P (trq ++ [EvAst P name (inr (pname, Some root))]) st1)
      as Hq2.
    { subst st1. destruct (astDot _); [by apply quiet_other|done]. }
    clearbody st1. rewrite bind_unfold.
    destruct (decide (la_pkgName acc = "")) as [Hempty|Hne].
    + (* the first package name *)
      simpl. intros Hr.
      apply bind_inv in Hr as [(list & st2 & Hgta & Hr)|(r1 & Hgta & Hs)].
      * inversion Hr; subst; clear Hr.
        eapply gta_quiet in Hgta; [|exact Hq2].
        exists [EvAst P name (inr (pname, Some root)); EvGta P root].
        rewrite <- app_assoc in Hgta. split; [done|].
        split; [|split]; simpl.
        -- unfold roots in *. by rewrite omap_app, Hroots.
        -- unfold loweredRoots in *. by rewrite omap_app, Hlow.
        -- intros Hsk n. unfold parsedNames. rewrite omap_app. simpl.
           intros [Hn|Hn]%elem_of_app.
           ++ destruct (Hag Hsk n Hn) as [?|?]; [by left|].
              left. congruence.
           ++ apply list_elem_of_singleton in Hn. by right.
      * eapply gta_quiet in Hgta; [|exact Hq2].
        exists [EvAst P name (inr (pname, Some root)); EvGta P root].
        rewrite <- app_assoc in Hgta.
        assert (loadStopped P sk r
                  (tr ++ [EvAst P name (inr (pname, Some root));
                          EvGta P root])) as Hstop.
        { split; [unfold loweredRoots in *; by rewrite omap_app, Hlow|].
          intros Hsk. left. exists pname. intros n. unfold parsedNames.
          rewrite omap_app. simpl. intros [Hn|Hn]%elem_of_app.
          - destruct (Hag Hsk n Hn) as [?|?]; [by left|]. left. congruence.
          - apply list_elem_of_singleton in Hn. by right. }
        split; [done|]. by destruct Hs.
    + destruct (bool_decide (la_pkgName acc ≠ pname) && sk) eqn:Hconf.
      * (* two package names *)
        simpl. intros [= <- <-].
        exists [EvAst P name (inr (pname, Some root))]. split; [done|].
        split; [done|]. intros Hsk. right.
        exists (la_pkgName acc), pname, dir, tr, name, root. auto.
      * simpl. intros Hr.
        assert (sk = true → la_pkgName acc = pname) as Hsame.
        { intros ->. rewrite andb_true_r in Hconf.
          apply bool_decide_eq_false_1 in Hconf.
          by destruct (decide (la_pkgName acc = pname)). }
        apply bind_inv in Hr as [(list & st2 & Hgta & Hr)|(r1 & Hgta & Hs)].
        -- inversion Hr; subst; clear Hr.
           eapply gta_quiet in Hgta; [|exact Hq2].
           exists [EvAst P name (inr (pname, Some root)); EvGta P root].
           rewrite <- app_assoc in Hgta. split; [done|].
           split; [|split]; simpl.
           ++ unfold roots in *. by rewrite omap_app, Hroots.
           ++ unfold loweredRoots in *. by rewrite omap_app, Hlow.
           ++ intros Hsk n. unfold parsedNames. rewrite omap_app. simpl.
              intros [Hn|Hn]%elem_of_app; [by apply Hag|].
              apply list_elem_of_singleton in Hn. right.
              by rewrite Hsame.
        -- eapply gta_quiet in Hgta; [|exact Hq2].
           exists [EvAst P name (inr (pname, Some root)); EvGta P root].
           rewrite <- app_assoc in Hgta.
           assert (loadStopped P sk r
                     (tr ++ [EvAst P name (inr (pname, Some root));
                             EvGta P root])) as Hstop.
           { split; [unfold loweredRoots in *; by rewrite omap_app, Hlow|].
             intros Hsk. left. exists (la_pkgName acc). intros n.
             unfold parsedNames. rewrite omap_app. simpl.
             intros [Hn|Hn]%elem_of_app; [by apply Hag|].
             apply list_elem_of_singleton in Hn. right.
             by rewrite Hsame. }
           split; [done|]. by destruct Hs.
  - (* no root node: continue *)
    intros [= <- <-]. exists [EvAst P name (inr (pname, None))].
    split; [done|]. split; [done|]. split; [done|].
    intros Hsk n. unfold parsedNames. rewrite omap_app, app_nil_r.
    by apply Hag.
Qed.

Lemma loadFile_quiet dir rPath P sk acc file trq tr st r st' :
  quiet P trq st → loadedSoFar sk acc tr →
  loadFile H importer dir rPath P sk acc file st = (r, st') →
  ∃ tr', quiet P (trq ++ tr') st' ∧
         match r with
         | Ok acc' => loadedSoFar sk acc' (tr ++ tr')
         | _ => loadStopped P sk r (tr ++ tr')
         end.
Proof.
  intros Hq Hacc. unfold loadFile. destruct (skipFile H file sk).
  { intros [= <- <-]. exists []. by rewrite !app_nil_r. }
  rewrite bind_emit, bind_unfold.
  assert (quiet P trq (addEvents [EvReadFile (Join [dir; file])] st)) as Hq1
    by (by apply quiet_other).
  destruct (readFile H (Join [dir; file])) as [e|buf]; simpl.
  { intros [= <- <-]. exists []. rewrite !app_nil_r. split; [done|].
    by eapply loadedSoFar_stopped. }
  by apply loadSource_quiet.
Qed.

Lemma loadEntry_quiet dir rPath P sk acc entry trq tr st r st' :
  quiet P trq st → loadedSoFar sk acc tr →
  loadEntry H importer dir rPath P sk acc entry st = (r, st') →
  ∃ tr', quiet P (trq ++ tr') st' ∧
         match r with
         | Ok acc' => loadedSoFar sk acc' (tr ++ tr')
         | _ => loadStopped P sk r (tr ++ tr')
         end.
Proof.
  intros Hq Hacc. unfold loadEntry.
  assert (∀ r0 : outcome loadAcc,
            r0 = Ok acc ∨ (∀ a, r0 ≠ Ok a) →
            (r0, st) = (r, st') →
            ∃ tr', quiet P (trq ++ tr') st' ∧
                   match r with
                   | Ok acc' => loadedSoFar sk acc' (tr ++ tr')
                   | _ => loadStopped P sk r (tr ++ tr')
                   end) as Hskip.
  { intros r0 Hr0 [= <- <-]. exists []. rewrite !app_nil_r. split; [done|].
    destruct Hr0 as [->|Hno]; [done|].
    destruct r0; try by eapply loadedSoFar_stopped. by destruct (Hno a). }
  destruct entry as [header body|err].
  2:{ intros Hr. apply (Hskip Panic); [by right|exact Hr]. }
  destruct (Typeflag header).
  - destruct (skipFile H (Name header) sk).
    { intros Hr. apply (Hskip (Ok acc)); [by left|exact Hr]. }
    rewrite bind_unfold. destruct body as [e|buf]; simpl.
    { intros Hr. apply (Hskip (Fail e)); [by right|exact Hr]. }
    by apply loadSource_quiet.
  - intros Hr. apply (Hskip (Ok acc)); [by left|exact Hr].
  - intros Hr. apply (Hskip (Ok acc)); [by left|exact Hr].
Qed.

(** A loop over the sources, by [loadFile] or by [loadEntry]. *)
Lemma loadLoop_quiet {A} (body : loadAcc → A → M loadAcc) P sk :
  (∀ acc x trq tr st r st',
     quiet P trq st → loadedSoFar sk acc tr → body acc x st = (r, st') →
     ∃ tr', quiet P (trq ++ tr') st' ∧
            match r with
            | Ok acc' => loadedSoFar sk acc' (tr ++ tr')
            | _ => loadStopped P sk r (tr ++ tr')
            end) →
  ∀ l acc trq tr st r st',
    quiet P trq st → loadedSoFar sk acc tr →
    foldM body l acc st = (r, st') →
    ∃ tr', quiet P (trq ++ tr') st' ∧
           match r with
           | Ok acc' => loadedSoFar sk acc' (tr ++ tr')
           | _ => loadStopped P sk r (tr ++ tr')
           end.
Proof.
  intros Hbody l. induction l as [|x l IH]; intros acc trq tr st r st' Hq Hacc.
  { simpl. intros [= <- <-]. exists []. by rewrite !app_nil_r. }
  simpl. intros Hr.
  apply bind_inv in Hr as [(acc1 & st1 & Hx & Hr)|(r1 & Hx & Hs)].
  - destruct (Hbody _ _ _ _ _ _ _ Hq Hacc Hx) as (tr1 & Hq1 & Hacc1).
    destruct (IH _ _ _ _ _ _ Hq1 Hacc1 Hr) as (tr2 & Hq2 & Hacc2).
    exists (tr1 ++ tr2). by rewrite !app_assoc.
  - destruct (Hbody _ _ _ _ _ _ _ Hq Hacc Hx) as (tr1 & Hq1 & Hacc1).
    exists tr1. split; [done|].
    assert (loadStopped P sk r (tr ++ tr1)) as Hstop.
    { eapply loadStopped_stops; [exact Hs|]. by destruct Hs. }
    by destruct Hs.
Qed.

(** The events of [P] in a run of the part of [importSrc] that follows the
    marking: the loading stops, or [finishImport] is reached. *)
Lemma directoryRun_trace dir rPath P sk trq st r st' :
  quiet P trq st →
  directoryRun H importer dir rPath P sk st = (r, st') →
  (∃ tr', quiet P (trq ++ tr') st' ∧ (∀ a, r ≠ Ok a) ∧
          loadStopped P sk r tr') ∨
  (∃ acc st1 trL, loadedSoFar sk acc trL ∧ quiet P (trq ++ trL) st1 ∧
                  extends (events st) st1 ∧
                  finishImport H P sk acc st1 = (r, st')).
Proof.
  intros Hq Hr.
  assert (loadedSoFar sk (LoadAcc "" [] ∅) []) as Hacc0.
  { split; [done|]. split; [done|]. intros _ n Hn. by inversion Hn. }
  apply directoryRun_cases in Hr
    as [(e & _ & -> & ->)|(files & _ & [(r1 & Hl & Hs)|(acc & st1 & Hl & Hr)])].
  - left. exists []. rewrite app_nil_r. split; [by apply quiet_other|].
    split; [done|]. by eapply loadedSoFar_stopped.
  - left.
    eapply (loadLoop_quiet _ P sk) in Hl as (tr' & Hq' & Hstop);
      [|intros; by eapply loadFile_quiet|by apply quiet_other, Hq|exact Hacc0].
    exists tr'. split; [done|].
    split; [intros a; eapply stops_not_ok; eauto|].
    eapply loadStopped_stops; [exact Hs|]. by destruct Hs.
  - right.
    assert (extends (events st) st1) as Hext.
    { eapply (preserves_run (extends _)); [| |exact Hl].
      - by apply loadFiles_preserves; [apply extends_Stable|].
      - by exists [EvReadDir dir]. }
    eapply (loadLoop_quiet _ P sk) in Hl as (tr' & Hq' & Hacc);
      [|intros; by eapply loadFile_quiet|by apply quiet_other, Hq|exact Hacc0].
    exists acc, st1, tr'. done.
Qed.

End Loading.

(** ** Package names and lowering *)

(** [e] is not a call of the parser. *)
Definition notAst (e : event) : Prop :=
  match e with EvAst _ _ _ => False | _ => True end.

Lemma parsedNames_eventsOf_notAst P l :
  Forall notAst l → parsedNames (eventsOf P l) = [].
Proof.
  induction 1 as [|e l He _ IH]; [done|].
  unfold eventsOf. rewrite filter_cons.
  destruct (decide _); [|done]. by destruct e.
Qed.

Lemma elem_of_parsedNames P f n root l :
  EvAst P f (inr (n, Some root)) ∈ l → n ∈ parsedNames l.
Proof.
  intros He. unfold parsedNames. apply list_elem_of_omap.
  by exists (EvAst P f (inr (n, Some root))).
Qed.

Lemma elem_of_loweredRoots P root l : EvCfg P root ∈ l → root ∈ loweredRoots l.
Proof.
  intros He. unfold loweredRoots. apply list_elem_of_omap.
  by exists (EvCfg P root).
Qed.

Lemma elem_of_eventsOf P e l : e ∈ l → evPath e = Some P → e ∈ eventsOf P l.
Proof. intros. by apply list_elem_of_filter. Qed.

Lemma finishImport_notAst H P sk acc st r st' :
  finishImport H P sk acc st = (r, st') →
  ∃ more, events st' = events st ++ more ∧ Forall notAst more.
Proof.
  intros Hr. apply finishImport_spec in Hr as [[_ Hl]|Hreg].
  - destruct Hl as (new & (_&_&_&_&_&_&_&->) & Hnew). exists new.
    split; [done|]. eapply Forall_impl; [exact Hnew|].
    by intros e [[? ->]|[? ->]].
  - destruct Hreg
      as (st1 & gs & initNodes & post & retries & Hl & Hre & _ & -> & Hpost).
    destruct Hl as (_&_&_&_&_&_&_&Hev). simpl. rewrite Hev.
    eexists. rewrite <- !app_assoc. split; [reflexivity|].
    rewrite !Forall_app. split; [|split].
    + eapply Forall_impl; [exact Hre|]. by intros e [? ->].
    + by apply Forall_fmap, Forall_forall.
    + do 2 (constructor; [done|]).
      assert (Forall initEvent post) as Hp.
      { destruct Hpost as [(gv & _ & _ & ->)|(e & _ & _ & ?)]; [|done].
        apply initialization_initEvent. }
      eapply Forall_impl; [exact Hp|]. by intros e [[? ->]|(? & ? & ->)].
Qed.

(** C7. In an import of [P] without its tests in which two files parse to a
    root node and to different package names, the import returns the error
    "found packages ... and ..." naming the two, and [cfg] is not called on
    any file of [P]. (A package name is not empty: the parser rejects a file
    without a package clause.) *)
Theorem package_name_conflict (H : Host) fuel rPath P st r st' new
    f1 n1 root1 f2 n2 root2 :
  importSrc H fuel rPath P true st = (r, st') →
  events st' = events st ++ new →
  EvAst P f1 (inr (n1, Some root1)) ∈ new →
  EvAst P f2 (inr (n2, Some root2)) ∈ new →
  n1 ≠ "" → n2 ≠ "" → n1 ≠ n2 →
  (∃ dir, r = Fail (ErrPackages n1 n2 dir) ∨ r = Fail (ErrPackages n2 n1 dir))
  ∧ ∀ root, EvCfg P root ∉ new.
Proof.
  intros Hr Hnew H1 H2 Hn1 Hn2 Hne.
  assert (∀ new', events st' = events st ++ new' → new' = new) as Huniq.
  { intros new' Hnew'. rewrite Hnew in Hnew'. by apply app_inv_head in Hnew'. }
  destruct fuel as [|fuel]; simpl in Hr.
  { inversion Hr; subst. rewrite <- (Huniq []) in H1 by by rewrite app_nil_r.
    by inversion H1. }
  apply importSrcBody_cases in Hr as [(t & _ & -> & _)|(_ & Hr)].
  { rewrite <- (Huniq []) in H1 by by rewrite app_nil_r. by inversion H1. }
  destruct Hr as [(-> & _)|(dir & rPath' & _ & Hr)].
  { rewrite <- (Huniq []) in H1 by by rewrite app_nil_r. by inversion H1. }
  destruct Hr as [(_ & _ & ->)|(Hvis & st1 & Hr & ->)].
  { rewrite <- (Huniq [EvCycle P (importing st)]) in H1 by done.
    apply list_elem_of_singleton in H1. done. }
  simpl in Hnew.
  assert (quiet P (eventsOf P (events st)) (begun P st)) as Hq.
  { split; [apply begun_marked|done]. }
  apply elem_of_parsedNames in H1 as H1'.
  apply elem_of_parsedNames in H2 as H2'.
  assert (∀ tr, eventsOf P (events st1) = eventsOf P (events st) ++ tr →
                eventsOf P new = tr) as Htr.
  { intros tr Htr. rewrite Hnew, eventsOf_app in Htr.
    by apply app_inv_head in Htr. }
  assert (∀ e, e ∈ new → evPath e = Some P → e ∈ eventsOf P new) as Hin.
  { intros. by apply elem_of_eventsOf. }
  apply Hin in H1; [|done]. apply Hin in H2; [|done].
  eapply directoryRun_trace in Hr;
    [|intros; apply importSrc_quiet|intros; apply importSrc_extends|exact Hq].
  destruct Hr as [(tr' & [_ Hq'] & _ & Hlow & Hag)|Hr].
  - apply Htr in Hq'. rewrite Hq' in *.
    destruct (Hag eq_refl) as [[pk Hpk]|Hconf].
    { destruct (Hpk _ (elem_of_parsedNames _ _ _ _ _ H1)) as [?|?]; [done|].
      destruct (Hpk _ (elem_of_parsedNames _ _ _ _ _ H2)) as [?|?]; [done|].
      congruence. }
    destruct Hconf as (pk & pname & d & tr0 & f & root & -> & -> & Hpk).
    split.
    + exists d.
      apply elem_of_parsedNames in H1. apply elem_of_parsedNames in H2.
      unfold parsedNames in H1, H2. rewrite omap_app in H1, H2.
      simpl in H1, H2.
      apply elem_of_app in H1 as [H1|H1%list_elem_of_singleton];
        apply elem_of_app in H2 as [H2|H2%list_elem_of_singleton].
      * destruct (Hpk _ H1) as [?|?]; [done|].
        destruct (Hpk _ H2) as [?|?]; [done|]. congruence.
      * destruct (Hpk _ H1) as [?|?]; [done|]. left. congruence.
      * destruct (Hpk _ H2) as [?|?]; [done|]. right. congruence.
      * congruence.
    + intros root' Hc. apply Hin in Hc; [|done].
      apply elem_of_loweredRoots in Hc. rewrite Hlow in Hc.
      by inversion Hc.
  - destruct Hr as (acc & st2 & trL & (_ & _ & Hag) & [_ Hq'] & _ & Hr).
    apply finishImport_notAst in Hr as (more & Hev & Hmore).
    assert (eventsOf P new = trL ++ eventsOf P more) as Heq.
    { apply Htr. by rewrite Hev, eventsOf_app, Hq', app_assoc. }
    rewrite Heq in H1, H2.
    apply elem_of_parsedNames in H1. apply elem_of_parsedNames in H2.
    unfold parsedNames in H1, H2. rewrite omap_app in H1, H2.
    fold (parsedNames (eventsOf P more)) in H1, H2.
    rewrite parsedNames_eventsOf_notAst, app_nil_r in H1, H2 by done.
    destruct (Hag eq_refl _ H1) as [?|?]; [done|].
    destruct (Hag eq_refl _ H2) as [?|?]; [done|]. congruence.
Qed.

Lemma package_name_conflict_witness :
  let H := Demo.hostOf Demo.mixedWorld in
  let r := importSrc H 2 "" "mix" true Demo.fresh in
  (∃ dir, r.1 = Fail (ErrPackages "foo" "bar" dir) ∨
          r.1 = Fail (ErrPackages "bar" "foo" dir)) ∧
  ∀ root, EvCfg "mix" root ∉ events r.2.
Proof.
  intros H r.
  apply (package_name_conflict H 2 "" "mix" Demo.fresh r.1 r.2 (events r.2)
           "/go/src/mix/a.go" "foo" (Node 1)
           "/go/src/mix/b.go" "bar" (Node 2)).
  - vm_compute. reflexivity.
  - vm_compute. reflexivity.
  - vm_compute. do 2 right. left.
  - vm_compute. do 5 right. left.
  - vm_compute. intros [=].
  - vm_compute. intros [=].
  - vm_compute. intros [=].
Defined.

(** ** The order of the initialization *)

Lemma eventsOf_lowering P l : Forall (lowering P) l → eventsOf P l = l.
Proof.
  induction 1 as [|e l He _ IH]; [done|].
  unfold eventsOf. rewrite filter_cons_True; [by f_equal|].
  by destruct He as [[? ->]|[? ->]].
Qed.

Lemma roots_lowering P l : Forall (lowering P) l → roots l = [].
Proof.
  induction 1 as [|e l He _ IH]; [done|].
  by destruct He as [[? ->]|[? ->]].
Qed.

Lemma loweredRoots_retrying P l : Forall (retrying P) l → loweredRoots l = [].
Proof. induction 1 as [|e l [? ->] _ IH]; done. Qed.

Lemma loweredRoots_cfg P l : loweredRoots (EvCfg P <$> l) = l.
Proof. induction l as [|x l IH]; [done|]. simpl. by f_equal. Qed.

(** C6. In a successful import of [P] that was not answered from the
    registry, the events from the registration on are, in this order: the
    wiring and the run (without frame) of the entry points of each root node
    of [P], in the order in which the files were declared and lowered; the
    run of the node of [genGlobalVars]; the run (on the frame of the
    interpreter) of the init nodes; and last, for the package "main"
    imported without its tests, the run of the node of its symbol "main". *)
Theorem initialization_order (H : Host) fuel rPath P sk st name st' :
  importSrc H fuel rPath P sk st = (Ok name, st') →
  srcPkg st !! P = None →
  ∃ pre rootNodes gv initNodes gs,
    events st' =
      events st ++ pre ++ [EvRegister P name; EvResizeFrame] ++
      wiring rootNodes ++ [EvRun gv NilFrame] ++
      ((λ n, EvRun n InterpFrame) <$> initNodes) ++
      ((λ n, EvRun n InterpFrame) <$> entryPoint gs name sk) ∧
    roots (eventsOf P pre) = rootNodes ∧
    loweredRoots (eventsOf P pre) = rootNodes ∧
    srcPkg st' !! P = Some (sym gs) ∧
    genGlobalVars H rootNodes gs = inr gv ∧
    (name = mainID → sk = true →
     ∀ m, sym gs !! mainID = Some m → entryPoint gs name sk = [sym_node m]).
Proof.
  intros Hr Hreg. destruct fuel as [|fuel]; [done|]. simpl in Hr.
  apply importSrcBody_cases in Hr as [(t & ? & _)|(_ & Hr)]; [congruence|].
  destruct Hr as [(_ & r1 & _ & Hs)|(dir & rPath' & _ & Hr)]; [inversion Hs|].
  destruct Hr as [(_ & [=] & _)|(_ & st1 & Hr & ->)].
  assert (quiet P (eventsOf P (events st)) (begun P st)) as Hq.
  { split; [apply begun_marked|done]. }
  eapply directoryRun_trace in Hr;
    [|intros; apply importSrc_quiet|intros; apply importSrc_extends|exact Hq].
  destruct Hr as [(tr' & _ & Hno & _)|Hr]; [by destruct (Hno name)|].
  destruct Hr as (acc & st2 & trL & (Hroots & Hlow & _) & [_ Hq'] &
                  [preL HpreL] & Hr).
  simpl in HpreL.
  apply finishImport_spec in Hr as [[Hno _]|Hfin]; [by destruct (Hno name)|].
  destruct Hfin
    as (st3 & gs & initNodes & post & retries & Hl & Hre & _ & -> & Hpost).
  destruct Hpost as [(gv & [= <-] & Hgv & ->)|(e & [=] & _)].
  destruct Hl as (_&_&_&_&_&_&_&Hev).
  exists (preL ++ retries ++ (EvCfg P <$> la_rootNodes acc)),
         (la_rootNodes acc), gv, initNodes, gs.
  assert (eventsOf P preL = trL) as HtrL.
  { rewrite HpreL, eventsOf_app in Hq'. by apply app_inv_head in Hq'. }
  assert (Forall (lowering P) (retries ++ (EvCfg P <$> la_rootNodes acc)))
    as Hlowering.
  { apply Forall_app. split.
    - eapply Forall_impl; [exact Hre|]. intros e ?. by left.
    - apply Forall_fmap, Forall_forall. intros root _. right. by eexists. }
  split; [|split; [|split; [|split; [|split]]]].
  - simpl. rewrite Hev, HpreL. unfold initialization.
    rewrite fmap_app, <- !app_assoc. reflexivity.
  - rewrite eventsOf_app, HtrL, (eventsOf_lowering P _ Hlowering).
    unfold roots at 1. rewrite omap_app. fold (roots trL).
    fold (roots (retries ++ (EvCfg P <$> la_rootNodes acc))).
    by rewrite (roots_lowering P _ Hlowering), app_nil_r.
  - rewrite eventsOf_app, HtrL, (eventsOf_lowering P _ Hlowering).
    unfold loweredRoots at 1. rewrite !omap_app. fold (loweredRoots trL).
    fold (loweredRoots retries).
    fold (loweredRoots (EvCfg P <$> la_rootNodes acc)).
    by rewrite Hlow, (loweredRoots_retrying P _ Hre), loweredRoots_cfg.
  - simpl. apply lookup_insert_eq.
  - done.
  - intros -> -> m Hm. unfold entryPoint. by rewrite Hm.
Qed.

Lemma initialization_order_witness :
  let H := Demo.hostOf Demo.mainWorld in
  let st' := (importSrc H 2 "" "cmd" true Demo.fresh).2 in
  ∃ pre rootNodes gv initNodes gs,
    events st' =
      events Demo.fresh ++ pre ++ [EvRegister "cmd" "main"; EvResizeFrame] ++
      wiring rootNodes ++ [EvRun gv NilFrame] ++
      ((λ n, EvRun n InterpFrame) <$> initNodes) ++
      ((λ n, EvRun n InterpFrame) <$> entryPoint gs "main" true) ∧
    roots (eventsOf "cmd" pre) = rootNodes ∧
    loweredRoots (eventsOf "cmd" pre) = rootNodes ∧
    srcPkg st' !! "cmd" = Some (sym gs) ∧
    genGlobalVars H rootNodes gs = inr gv ∧
    ("main" = mainID → true = true →
     ∀ m, sym gs !! mainID = Some m → entryPoint gs "main" true = [sym_node m]).
Proof.
  intros H st'.
  apply (initialization_order H 2 "" "cmd" true Demo.fresh "main" st').
  - vm_compute. reflexivity.
  - vm_compute. reflexivity.
Defined.

(** ** Malformed archives *)

(** A world with the directory that [importSrcArchive] resolves "/" to. *)
Definition archiveWorld : Demo.world := {|
  Demo.w_dirs := [("/go/src", ["a.go"; "b.go"])];
  Demo.w_files := [("/go/src/a.go", "package foo; func A()");
                   ("/go/src/b.go", "package foo; func init()")];
  Demo.w_parse := Demo.w_parse Demo.fooWorld;
  Demo.w_imports := [];
  Demo.w_decls := Demo.w_decls Demo.fooWorld;
  Demo.w_inits := Demo.w_inits Demo.fooWorld;
  Demo.w_genRun := [];
  Demo.w_globals := inr (Node 0)
|}.

(** C4 against the code. A failure of [gzip.NewReader] is returned to the
    caller, and so is a failure to read the content of an entry; but when
    [tarReader.Next()] fails on the first entry with an error other than
    [io.EOF], the call does not return that error: the error value is built
    and dropped, and the nil header is dereferenced. *)
Theorem tar_error_not_returned (H : Host) fuel sk st d :
  (resolve H "." "/" st).1 = Ok d →
  (∀ err, (importSrcArchive H fuel (GzipBad err) sk st).1 = Fail err) ∧
  (∀ err rest,
     (importSrcArchive H fuel (GzipStream (TarBad err :: rest)) sk st).1 =
     Panic) ∧
  (∀ header err rest,
     Typeflag header = TypeReg → skipFile H (Name header) sk = false →
     (importSrcArchive H fuel
        (GzipStream (TarFile header (inl err) :: rest)) sk st).1 = Fail err).
Proof.
  intros Hres%resolve_run. destruct d as [dir rPath'].
  unfold importSrcArchive, importSrcArchiveBody.
  split; [|split].
  - intros err. rewrite bind_unfold, Hres, !bind_modify. reflexivity.
  - intros err rest. rewrite bind_unfold, Hres, !bind_modify. reflexivity.
  - intros header err rest Hreg Hskip.
    rewrite bind_unfold, Hres, !bind_modify. unfold finally. simpl.
    rewrite !bind_unfold. unfold loadEntry. by rewrite Hreg, Hskip.
Qed.

Lemma tar_error_not_returned_witness :
  let H := Demo.hostOf archiveWorld in
  (importSrcArchive H 1
     (GzipStream [TarBad (ErrOther "archive/tar: invalid tar header")])
     true Demo.fresh).1 = Panic.
Proof.
  intros H.
  apply (proj1 (proj2 (tar_error_not_returned H 1 true Demo.fresh
                         ("/go/src", ".") ltac:(vm_compute; reflexivity)))).
Defined.

(** ** The vendor chain *)

(** A piece of a path without separator. *)
Definition noSep (s : string) : Prop := hasSeparator s = false.

(** A piece that [filepath.Clean] keeps as it is. *)
Definition plain (s : string) : Prop :=
  s ≠ "" ∧ s ≠ "." ∧ s ≠ ".." ∧ noSep s.

Lemma app_nil_string s : "" +:+ s = s.
Proof. reflexivity. Qed.

Lemma app_cons_string c a s : String c a +:+ s = String c (a +:+ s).
Proof. reflexivity. Qed.

Lemma Split_nonempty s : Split s ≠ [].
Proof.
  destruct s as [|c s]; simpl; [done|].
  destruct (decide _); [done|]. by destruct (Split s).
Qed.

Lemma Split_noSep s : Forall noSep (Split s).
Proof.
  induction s as [|c s IH]; simpl.
  { by constructor. }
  destruct (decide (c = Separator)) as [->|Hc].
  { by constructor. }
  destruct (Split s) as [|h t] eqn:Hs.
  { by destruct (Split_nonempty s). }
  inversion IH; subst.
  constructor; [|done]. unfold noSep in *. simpl.
  by rewrite bool_decide_eq_false_2.
Qed.

Lemma Split_app_sep a b :
  noSep a → Split (a +:+ "/" +:+ b) = a :: Split b.
Proof.
  induction a as [|c a IH]; intros Ha.
  { rewrite app_nil_string. reflexivity. }
  unfold noSep in Ha. simpl in Ha.
  apply orb_false_iff in Ha as [Hc Ha]. apply bool_decide_eq_false_1 in Hc.
  rewrite app_cons_string. simpl. destruct (decide _); [done|].
  by rewrite IH.
Qed.

Lemma Split_noSep_id a : noSep a → Split a = [a].
Proof.
  induction a as [|c a IH]; intros Ha; [done|].
  unfold noSep in Ha. simpl in Ha.
  apply orb_false_iff in Ha as [Hc Ha]. apply bool_decide_eq_false_1 in Hc.
  simpl. destruct (decide _); [done|]. by rewrite IH.
Qed.

Lemma Split_JoinSep l : Forall noSep l → l ≠ [] → Split (JoinSep l) = l.
Proof.
  induction 1 as [|a l Ha Hl IH]; intros Hne; [done|].
  destruct l as [|b l]; simpl.
  { by apply Split_noSep_id. }
  rewrite Split_app_sep by done. f_equal. by apply IH.
Qed.

Lemma cleanLoop_plain l out :
  Forall plain l → cleanLoop false l out 0 = out ++ l.
Proof.
  intros Hl. revert out.
  induction Hl as [|s l (H1 & H2 & H3 & _) _ IH]; intros out; simpl.
  { by rewrite app_nil_r. }
  repeat (destruct (decide _); [done|]).
  by rewrite IH, <- app_assoc.
Qed.

Lemma JoinSep_head s l :
  JoinSep (s :: l) = s ∨ ∃ rest, JoinSep (s :: l) = s +:+ "/" +:+ rest.
Proof. destruct l; simpl; eauto. Qed.

Lemma HasPrefix_plain s l : plain s → HasPrefix (JoinSep (s :: l)) "/" = false.
Proof.
  intros (Hs & _ & _ & Hn).
  destruct s as [|c s]; [done|].
  unfold noSep in Hn. simpl in Hn.
  apply orb_false_iff in Hn as [Hc _]. apply bool_decide_eq_false_1 in Hc.
  destruct (JoinSep_head (String c s) l) as [->|[rest ->]].
  - simpl. by rewrite bool_decide_eq_false_2.
  - rewrite app_cons_string. simpl. by rewrite bool_decide_eq_false_2.
Qed.

Lemma JoinSep_plain_nonempty s l : plain s → JoinSep (s :: l) ≠ "".
Proof.
  intros (Hs & _). destruct s as [|c s]; [done|].
  by destruct (JoinSep_head (String c s) l) as [->|[rest ->]].
Qed.

(** [filepath.Join] of plain pieces is [strings.Join]. *)
Lemma Join_plain l : Forall plain l → Join l = JoinSep l.
Proof.
  intros Hl. destruct Hl as [|s l Hs Hl]; [done|].
  unfold Join. destruct (decide (s = "")) as [->|_]; [by destruct Hs|].
  unfold Clean.
  destruct (decide _) as [He|_]; [by destruct (JoinSep_plain_nonempty s l)|].
  rewrite HasPrefix_plain by done.
  rewrite Split_JoinSep.
  - rewrite cleanLoop_plain by by constructor. reflexivity.
  - constructor; [by destruct Hs as (_&_&_&?)|].
    eapply Forall_impl; [exact Hl|]. by intros ? (_&_&_&?).
  - done.
Qed.

(** The loop of [previousRoot] finds the last "vendor" below [n]. *)
Lemma previousRootLoop_found segs n i :
  i < n → segs !! i = Some "vendor" →
  (∀ j, i < j → j < n → segs !! j ≠ Some "vendor") →
  previousRootLoop segs n = i.
Proof.
  induction n as [|n IH]; intros Hi Hv Hlast; [lia|]. simpl.
  destruct (decide (segs !! n = Some "vendor")) as [Hn|Hn].
  - destruct (decide (i = n)) as [|Hne]; [done|].
    destruct (Hlast n); [lia|lia|done].
  - destruct (decide (i = n)) as [->|Hne]; [done|].
    apply IH; [lia|done|]. intros j ? ?. apply Hlast; lia.
Qed.

Lemma previousRootLoop_none segs n :
  (∀ j, j < n → segs !! j ≠ Some "vendor") → previousRootLoop segs n = 0.
Proof.
  induction n as [|n IH]; intros Hno; [done|]. simpl.
  destruct (decide _) as [Hn|_]; [by destruct (Hno n); [lia|]|].
  apply IH. intros j ?. apply Hno. lia.
Qed.



(** *** [effectivePkg] *)

(** The claim in its own words: the longest tail of [root] that is a head of
    [path] is the duplicate, and the rest of [path] is appended to [root]. *)
Fixpoint overlapFrom (r p : list string) (k : nat) : nat :=
  match k with
  | 0 => 0
  | S k' =>
      if decide (drop (length r - k) r = take k p) then k
      else overlapFrom r p k'
  end.

Definition overlap (r p : list string) : nat :=
  overlapFrom r p (length r `min` length p).

Definition appendWithoutOverlap (root path : string) : string :=
  Join [root; JoinSep (drop (overlap (Split root) (Split path)) (Split path))].

(** In iteration [k] the piece [part] is taken for a duplicate of the last
    piece of [root]. *)
Definition duplicate (splitRoot : list string) (k : nat) (part : string)
  : Prop :=
  1 < length splitRoot ∧ last splitRoot = Some part ∧ k ≠ 0.

Lemma effectivePkgStep_first sr sp i res :
  let part := default "" (sp !! (length sp - 1 - i)) in
  effectivePkgStep sr sp i (EpState res 0 0) =
  if decide (duplicate sr i part) then EpState res 1 0
  else EpState (res ++ [part]) 0 0.
Proof.
  intros part. unfold effectivePkgStep. simpl. fold part.
  replace (length sr - 1 - 0) with (pred (length sr)) by lia.
  rewrite <- last_lookup.
  destruct (decide (duplicate sr i part)) as [(H1 & H2 & H3)|Hno].
  - rewrite (bool_decide_eq_true_2 _ H1), (bool_decide_eq_true_2 _ H2).
    by rewrite (bool_decide_eq_false_2 _ H3).
  - destruct (bool_decide (1 < length sr)) eqn:E1; simpl; [|done].
    destruct (bool_decide (last sr = Some part)) eqn:E2; simpl; [|done].
    destruct (bool_decide (i = 0)) eqn:E3; simpl; [done|].
    apply bool_decide_eq_true in E1. apply bool_decide_eq_true in E2.
    apply bool_decide_eq_false in E3. by destruct Hno.
Qed.

(** Once a duplicate was found, no piece is kept any more. *)
Lemma effectivePkgLoop_frozen sr sp i todo s :
  ep_prevRootIndex s < ep_rootIndex s →
  ep_result (effectivePkgLoop sr sp i todo s) = ep_result s.
Proof.
  revert i s. induction todo as [|todo IH]; intros i s Hs; [done|]. simpl.
  rewrite IH; unfold effectivePkgStep.
  - destruct (_ && _); [done|]. destruct (decide _); [lia|done].
  - destruct (_ && _); simpl; [lia|]. destruct (decide _); [lia|done].
Qed.

Lemma effectivePkgLoop_app sr sp i a b s :
  effectivePkgLoop sr sp i (a + b) s =
  effectivePkgLoop sr sp (i + a) b (effectivePkgLoop sr sp i a s).
Proof.
  revert i s. induction a as [|a IH]; intros i s; simpl.
  { by rewrite Nat.add_0_r. }
  rewrite IH. f_equal. lia.
Qed.

(** Until a duplicate is found, the pieces are kept from the last one on. *)
Lemma effectivePkgLoop_kept sr sp i todo res :
  i + todo ≤ length sp →
  (∀ k part, i ≤ k → k < i + todo → sp !! (length sp - 1 - k) = Some part →
             ¬ duplicate sr k part) →
  effectivePkgLoop sr sp i todo (EpState res 0 0) =
  EpState (res ++ rev (take todo (drop (length sp - i - todo) sp))) 0 0.
Proof.
  revert i res. induction todo as [|todo IH]; intros i res Hlen Hno.
  { simpl. by rewrite app_nil_r. }
  simpl. rewrite effectivePkgStep_first.
  destruct (lookup_lt_is_Some_2 sp (length sp - 1 - i)) as [part Hpart];
    [lia|].
  rewrite Hpart. simpl.
  destruct (decide _) as [Hd|_]; [by destruct (Hno i part); [lia|lia|..]|].
  rewrite IH; [|lia|intros k p ? ?; apply Hno; lia].
  f_equal. rewrite <- app_assoc. f_equal.
  replace (length sp - S i - todo) with (length sp - i - S todo) by lia.
  rewrite (take_S_r _ _ part).
  - by rewrite rev_app_distr.
  - rewrite lookup_drop. rewrite <- Hpart. f_equal. lia.
Qed.

Lemma effectivePkg_all root path :
  (∀ k part, k < length (Split path) →
             Split path !! (length (Split path) - 1 - k) = Some part →
             ¬ duplicate (Split root) k part) →
  effectivePkg root path = Join [root; joinFrag (Split path)].
Proof.
  intros Hno. unfold effectivePkg, effectivePkgKept.
  rewrite effectivePkgLoop_kept; [|lia|intros k p _ ?; by apply Hno].
  simpl. rewrite Nat.sub_0_r, Nat.sub_diag, drop_0, firstn_all.
  by rewrite rev_involutive.
Qed.

(** C10, as the code has it. [effectivePkg] joins onto [root] the pieces of
    [path] that follow the last occurrence, before the final piece of [path],
    of the last piece of [root], whatever the pieces before them are; it
    joins all of [path] onto [root] when [root] is a single piece or its
    last piece does not occur in [path] before the final piece. *)
Theorem effectivePkg_after_last_piece (root path : string) :
  (∀ j, 1 < length (Split root) → j + 1 < length (Split path) →
        Split path !! j = last (Split root) →
        (∀ k, j < k → k + 1 < length (Split path) →
              Split path !! k ≠ last (Split root)) →
        effectivePkg root path =
        Join [root; joinFrag (drop (S j) (Split path))]) ∧
  (length (Split root) ≤ 1 →
   effectivePkg root path = Join [root; joinFrag (Split path)]) ∧
  ((∀ j, j + 1 < length (Split path) →
         Split path !! j ≠ last (Split root)) →
   effectivePkg root path = Join [root; joinFrag (Split path)]) ∧
  effectivePkg "a/vendor/b" "a/vendor/b/c" = "a/vendor/b/c".
Proof.
  set (sr := Split root). set (sp := Split path).
  split; [|split; [|split]].
  - intros j Hsr Hj Hmatch Hlast.
    unfold effectivePkg, effectivePkgKept. fold sr sp.
    replace (effectivePkgLoop sr sp 0 (length sp) (EpState [] 0 0))
      with (effectivePkgLoop sr sp 0 ((length sp - 1 - j) + S j)
              (EpState [] 0 0)) by (f_equal; lia).
    rewrite effectivePkgLoop_app, effectivePkgLoop_kept.
    + cbn [effectivePkgLoop app]. rewrite effectivePkgStep_first.
      replace (length sp - 1 - (0 + (length sp - 1 - j))) with j by lia.
      destruct (sp !! j) as [part|] eqn:Hpart;
        [|by apply lookup_ge_None in Hpart; lia].
      cbn [default]. destruct (decide _) as [_|Hno].
      2:{ destruct Hno. split; [done|]. split; [done|lia]. }
      rewrite effectivePkgLoop_frozen by (simpl; lia). cbn [ep_result].
      rewrite rev_involutive.
      replace (length sp - 0 - (length sp - 1 - j)) with (S j) by lia.
      rewrite firstn_all2; [done|]. rewrite length_drop. lia.
    + lia.
    + intros k part _ Hk Hpart (_ & Hl & Hk0).
      apply (Hlast (length sp - 1 - k)); [lia|lia|]. by rewrite Hl.
  - subst sr sp. intros Hsr. apply effectivePkg_all.
    intros k part _ _ (? & _). lia.
  - subst sr sp. intros Hno. apply effectivePkg_all.
    intros k part Hk Hpart (_ & Hl & Hk0).
    apply (Hno (length (Split path) - 1 - k)); [lia|]. by rewrite Hl.
  - by vm_compute.
Qed.

Lemma effectivePkg_after_last_piece_witness :
  effectivePkg "x/b" "a/b/c" = Join ["x/b"; joinFrag ["c"]].
Proof.
  apply (proj1 (effectivePkg_after_last_piece "x/b" "a/b/c") 1).
  - vm_compute. lia.
  - vm_compute. lia.
  - reflexivity.
  - intros k Hk Hk'.
    change (length (Split "a/b/c")) with 3 in Hk'. lia.
Defined.

(** C10 as stated fails: a root of one piece that is the head of the path is
    repeated, and so is a root that is the path itself. *)
Lemma effectivePkg_repeats_overlap :
  effectivePkg "b" "b/c" ≠ appendWithoutOverlap "b" "b/c" ∧
  effectivePkg "b" "b/c" = "b/b/c" ∧
  appendWithoutOverlap "b" "b/c" = "b/c" ∧
  effectivePkg "a/vendor/b" "a/vendor/b" = "a/vendor/b/a/vendor/b" ∧
  appendWithoutOverlap "a/vendor/b" "a/vendor/b/c" = "a/vendor/b/c".
Proof. by vm_compute. Qed.

(** ** Import cycles *)

(** The imports in progress are marked and not registered. *)
Definition wfStack (st : Interpreter) : Prop :=
  ∀ X, X ∈ importing st → marked X st ∧ srcPkg st !! X = None.

(** The same, with the imports in progress named. *)
Definition stackIs (stk : list string) (st : Interpreter) : Prop :=
  wfStack st ∧ importing st = stk.

(** No cycle is reported in the events [l]. *)
Definition cycleFree (l : list event) : Prop :=
  ∀ Q stk, EvCycle Q stk ∉ l.

(** No cycle was reported since the events [ev0]. *)
Definition calm (ev0 : list event) (st : Interpreter) : Prop :=
  ∃ new, events st = ev0 ++ new ∧ cycleFree new.

(** What a part of an import, run while the imports [stk0] are in progress
    and after the events [ev0], has done when it ends in [st'] with [r]:
    either no cycle was reported; or the report of a cycle was the last
    thing that happened, the part ends with that error, the imports in
    progress at the report include [stk0], and none of them is registered. *)
Definition cycPost {A} (stk0 : list string) (ev0 : list event)
    (r : outcome A) (st' : Interpreter) : Prop :=
  ∃ new, events st' = ev0 ++ new ∧
    (cycleFree new ∨
     ∃ pre Q stk,
       new = pre ++ [EvCycle Q stk] ∧ cycleFree pre ∧
       r = Fail (ErrImportCycle Q) ∧ stk0 `suffix_of` stk ∧
       ∀ X, X ∈ stk → srcPkg st' !! X = None).

Definition cycSafe {A} (stk0 : list string) (m : M A) : Prop :=
  ∀ st, stackIs stk0 st → cycPost stk0 (events st) (m st).1 (m st).2.

Lemma cycleFree_app l1 l2 : cycleFree l1 → cycleFree l2 → cycleFree (l1 ++ l2).
Proof.
  intros H1 H2 Q stk [?|?]%elem_of_app; [by eapply H1|by eapply H2].
Qed.

Lemma cycleFree_nil : cycleFree [].
Proof. intros Q stk Hin. by inversion Hin. Qed.

Lemma cycPost_stops {A B} stk0 ev0 (r1 : outcome A) (r : outcome B) st :
  stops r1 r → cycPost stk0 ev0 r1 st → cycPost stk0 ev0 r st.
Proof.
  intros Hs (new & Hev & Hc). exists new. split; [done|].
  destruct Hc as [?|(pre & Q & stk & ? & ? & Hr & ?)]; [by left|right].
  exists pre, Q, stk. split; [done|]. split; [done|]. split; [|done].
  destruct Hs; by inversion Hr.
Qed.

Lemma cycSafe_bind {A B} stk0 (m : M A) (k : A → M B) :
  cycSafe stk0 m → preserves (stackIs stk0) m →
  (∀ a, cycSafe stk0 (k a)) → cycSafe stk0 (m ≫= k).
Proof.
  intros Hm Hpm Hk st HI. specialize (Hm st HI). specialize (Hpm st HI).
  rewrite bind_unfold. destruct (m st) as [r1 st1]. simpl in *.
  destruct r1 as [a|e| |];
    try (eapply cycPost_stops; [|exact Hm]; constructor).
  destruct Hm as (new1 & Hev1 & Hc1).
  destruct Hc1 as [Hc1|(? & ? & ? & _ & _ & [=] & _)].
  destruct (Hk a st1 Hpm) as (new2 & Hev2 & Hc2).
  exists (new1 ++ new2). split; [by rewrite Hev2, Hev1, app_assoc|].
  destruct Hc2 as [?|(pre & Q & stk & -> & ? & ? & ?)].
  - left. by apply cycleFree_app.
  - right. exists (new1 ++ pre), Q, stk. rewrite app_assoc.
    split; [done|]. split; [by apply cycleFree_app|done].
Qed.

Lemma cycSafe_calm {A} stk0 (m : M A) :
  (∀ ev0, preserves (calm ev0) m) → cycSafe stk0 m.
Proof.
  intros Hm st _.
  destruct (Hm (events st) st) as (new & Hev & Hc).
  { exists []. split; [by rewrite app_nil_r|apply cycleFree_nil]. }
  exists new. split; [done|by left].
Qed.

Lemma cycSafe_foldM {A B} stk0 (body : B → A → M B) l acc :
  (∀ acc x, cycSafe stk0 (body acc x)) →
  (∀ acc x, preserves (stackIs stk0) (body acc x)) →
  cycSafe stk0 (foldM body l acc).
Proof.
  intros Hbody Hpres. revert acc. induction l as [|x l IH]; intros acc; simpl.
  - apply cycSafe_calm. intros ev0. apply preserves_ret.
  - apply cycSafe_bind; auto.
Qed.

Lemma calm_event ev0 e st :
  (∀ Q stk, e ≠ EvCycle Q stk) → calm ev0 st → calm ev0 (addEvents [e] st).
Proof.
  intros He (new & Hev & Hc). exists (new ++ [e]). simpl.
  split; [by rewrite Hev, app_assoc|]. apply cycleFree_app; [done|].
  intros Q stk Hin%list_elem_of_singleton. by eapply He.
Qed.

Lemma calm_Stable ev0 P : Stable (calm ev0) P.
Proof.
  constructor; [|done]. intros e st He. apply calm_event.
  intros Q stk ->. done.
Qed.

Lemma calm_Registers ev0 P : Registers (calm ev0) P.
Proof. constructor; try done. intros n st. by apply calm_event. Qed.

Lemma stackIs_Stable stk P : Stable (stackIs stk) P.
Proof. by constructor. Qed.

Section Cycles.

Context (H : Host).

(** A call of [importSrc] leaves the imports in progress as they were. *)
Lemma importSrc_importing stk fuel rPath P sk :
  preserves (λ st, importing st = stk) (importSrc H fuel rPath P sk).
Proof.
  revert stk rPath P sk.
  induction fuel as [|fuel IH]; intros stk rPath P sk;
    [apply preserves_outOfFuel|].
  intros st Hst.
  destruct (importSrc H (S fuel) rPath P sk st) as [r st'] eqn:Hr.
  simpl in *.
  apply importSrcBody_cases in Hr as [(t & _ & -> & _)|(_ & Hr)]; [done|].
  destruct Hr as [(-> & _)|(dir & rPath' & _ & Hr)]; [done|].
  destruct Hr as [(_ & _ & ->)|(_ & st1 & Hr & ->)]; [done|].
  eapply (preserves_run (λ st, importing st = P :: stk)) in Hr.
  - simpl. by rewrite Hr.
  - apply directory_preserves; [by constructor|apply IH|by constructor].
  - simpl. by rewrite Hst.
Qed.

Lemma importSrc_stackIs stk fuel rPath P sk :
  preserves (stackIs stk) (importSrc H fuel rPath P sk).
Proof.
  intros st [Hwf Hstk].
  assert (importing (importSrc H fuel rPath P sk st).2 = stk) as Hstk'
    by by apply importSrc_importing.
  split; [|done]. intros X HX. rewrite Hstk', <- Hstk in HX.
  destruct (Hwf X HX) as [Hm Hreg].
  destruct (importSrc_frozen H X None (pkgNames st !! X) fuel rPath P sk st)
    as (? & ? & _); done.
Qed.

Context (importer : string → string → bool → M string).
Context (Hcyc : ∀ stk r Q sk, cycSafe stk (importer r Q sk)).
Context (Hstack : ∀ stk r Q sk, preserves (stackIs stk) (importer r Q sk)).

Local Ltac calm_leaf :=
  apply cycSafe_calm; intros ?;
  repeat (pres_step; try done);
  try (intros ? ?; apply calm_event; [intros ? ? [=]|done]).

Local Ltac stack_leaf :=
  repeat (pres_step; try done; try apply Hstack).

Lemma gta_cycSafe stk root rPath P :
  cycSafe stk (gta H importer root rPath P).
Proof.
  unfold gta.
  apply cycSafe_bind; [calm_leaf|stack_leaf|intros _].
  apply cycSafe_bind; [calm_leaf|stack_leaf|intros _].
  apply cycSafe_bind; [|stack_leaf|intros names; calm_leaf].
  apply cycSafe_foldM.
  - intros names [ipath sk].
    apply cycSafe_bind; [apply Hcyc|apply Hstack|intros; calm_leaf].
  - intros names [ipath sk]. stack_leaf.
Qed.

Lemma gta_stackIs stk root rPath P :
  preserves (stackIs stk) (gta H importer root rPath P).
Proof. apply gta_preserves; [apply stackIs_Stable|apply Hstack]. Qed.

Lemma loadSource_cycSafe stk dir rPath P sk name buf acc :
  cycSafe stk (loadSource H importer dir rPath P sk name buf acc).
Proof.
  unfold loadSource.
  apply cycSafe_bind; [calm_leaf|stack_leaf|intros _].
  apply cycSafe_bind; [calm_leaf|stack_leaf|intros [pname [root|]]];
    [|calm_leaf].
  apply cycSafe_bind; [calm_leaf|stack_leaf|intros dot].
  apply cycSafe_bind; [calm_leaf|stack_leaf|intros _].
  apply cycSafe_bind; [calm_leaf|stack_leaf|intros pkgName].
  apply cycSafe_bind; [apply gta_cycSafe|apply gta_stackIs|intros; calm_leaf].
Qed.

Lemma loadFile_cycSafe stk dir rPath P sk acc file :
  cycSafe stk (loadFile H importer dir rPath P sk acc file).
Proof.
  unfold loadFile. destruct (skipFile H file sk); [calm_leaf|].
  apply cycSafe_bind; [calm_leaf|stack_leaf|intros _].
  apply cycSafe_bind; [calm_leaf|stack_leaf|intros buf].
  apply loadSource_cycSafe.
Qed.

Lemma finishImport_cycSafe stk P sk acc :
  cycSafe stk (finishImport H P sk acc).
Proof.
  apply cycSafe_calm. intros ev0.
  apply finishImport_preserves; [apply calm_Stable|apply calm_Registers].
Qed.

Lemma directoryRun_cycSafe stk dir rPath P sk :
  cycSafe stk (directoryRun H importer dir rPath P sk).
Proof.
  unfold directoryRun.
  apply cycSafe_bind; [calm_leaf|stack_leaf|intros _].
  apply cycSafe_bind; [calm_leaf|stack_leaf|intros files].
  apply cycSafe_bind; [| |intros; apply finishImport_cycSafe].
  - apply cycSafe_foldM; [intros; apply loadFile_cycSafe|].
    intros. apply loadFile_preserves; [apply stackIs_Stable|apply Hstack].
  - apply loadFiles_preserves; [apply stackIs_Stable|apply Hstack].
Qed.

Lemma importSrcBody_cycSafe stk rPath P sk :
  cycSafe stk (importSrcBody H importer rPath P sk).
Proof.
  intros st [Hwf Hstk].
  destruct (importSrcBody H importer rPath P sk st) as [r st'] eqn:Hr.
  simpl.
  apply importSrcBody_cases in Hr as [(t & _ & -> & _)|(Hreg & Hr)].
  { exists []. split; [by rewrite app_nil_r|left; apply cycleFree_nil]. }
  destruct Hr as [(-> & _)|(dir & rPath' & _ & Hr)].
  { exists []. split; [by rewrite app_nil_r|left; apply cycleFree_nil]. }
  destruct Hr as [(_ & -> & ->)|(_ & st1 & Hr & ->)].
  { exists [EvCycle P (importing st)]. split; [done|]. right.
    exists [], P, (importing st). split; [done|].
    split; [apply cycleFree_nil|]. split; [done|].
    split; [by rewrite Hstk|]. intros X HX. by apply Hwf. }
  assert (stackIs (P :: stk) (begun P st)) as Hbegun.
  { split; [|simpl; by rewrite Hstk]. intros X HX. simpl in HX.
    apply elem_of_cons in HX as [->|HX].
    - split; [apply begun_marked|done].
    - destruct (Hwf X HX) as [Hm ?]. split; [|done].
      by apply marked_insert. }
  pose proof (directoryRun_cycSafe (P :: stk) dir rPath' P sk _ Hbegun) as Hc.
  rewrite Hr in Hc. simpl in Hc.
  destruct Hc as (new & Hev & Hc). exists new. split; [done|].
  destruct Hc as [?|(pre & Q & stk' & ? & ? & ? & Hsuf & ?)]; [by left|].
  right. exists pre, Q, stk'. repeat (split; [done|]). split; [|done].
  etrans; [|exact Hsuf]. by apply suffix_cons_r.
Qed.

End Cycles.

Lemma importSrc_cycSafe H stk fuel rPath P sk :
  cycSafe stk (importSrc H fuel rPath P sk).
Proof.
  revert stk rPath P sk.
  induction fuel as [|fuel IH]; intros stk rPath P sk; simpl.
  - apply cycSafe_calm. intros ev0. apply preserves_outOfFuel.
  - apply importSrcBody_cycSafe; [done|]. intros. apply importSrc_stackIs.
Qed.

Lemma cycPost_inv {A} stk0 ev0 (r : outcome A) st' new Q stk :
  cycPost stk0 ev0 r st' → events st' = ev0 ++ new → EvCycle Q stk ∈ new →
  r = Fail (ErrImportCycle Q) ∧ (∃ pre, new = pre ++ [EvCycle Q stk]) ∧
  stk0 `suffix_of` stk ∧ ∀ X, X ∈ stk → srcPkg st' !! X = None.
Proof.
  intros (new' & Hev & Hc) Hnew Hin.
  rewrite Hev in Hnew. apply app_inv_head in Hnew as ->.
  destruct Hc as [Hc|(pre & Q' & stk' & -> & Hpre & -> & ? & ?)].
  { by destruct (Hc Q stk). }
  apply elem_of_app in Hin as [Hin|Hin%list_elem_of_singleton].
  { by destruct (Hpre Q stk). }
  inversion Hin; subst. eauto.
Qed.

(** The report of a cycle is the last thing that happens in an import. *)
Lemma import_cycle_last (H : Host) fuel rPath P sk st r st' new Q stk :
  importSrc H fuel rPath P sk st = (r, st') →
  wfStack st →
  events st' = events st ++ new →
  EvCycle Q stk ∈ new →
  r = Fail (ErrImportCycle Q) ∧
  (∃ pre, new = pre ++ [EvCycle Q stk]) ∧
  importing st `suffix_of` stk ∧
  (∀ X, X ∈ stk → srcPkg st' !! X = None) ∧
  (srcPkg st !! P = None → srcPkg st' !! P = None).
Proof.
  intros Hr Hwf Hnew Hin.
  assert (stackIs (importing st) st) as Hst by done.
  pose proof (importSrc_cycSafe H _ fuel rPath P sk st Hst) as Hc.
  rewrite Hr in Hc. simpl in Hc.
  destruct (cycPost_inv _ _ _ _ _ _ _ Hc Hnew Hin) as (-> & Hpre & Hsuf & Hun).
  repeat (split; [done|]). intros Hreg.
  destruct fuel as [|fuel]; [by inversion Hr|]. simpl in Hr.
  apply importSrcBody_cases in Hr as [(t & ? & _)|(_ & Hr)]; [congruence|].
  destruct Hr as [(-> & _)|(dir & rPath' & _ & Hr)]; [done|].
  destruct Hr as [(_ & _ & ->)|(_ & st1 & Hr & ->)]; [done|].
  assert (stackIs (P :: importing st) (begun P st)) as Hbegun.
  { split; [|done]. intros X HX. simpl in HX.
    apply elem_of_cons in HX as [->|HX].
    - split; [apply begun_marked|done].
    - destruct (Hwf X HX) as [Hm ?]. split; [|done].
      by apply marked_insert. }
  pose proof (directoryRun_cycSafe H (importSrc H fuel)
                (λ stk r Q sk, importSrc_cycSafe H stk fuel r Q sk)
                (λ stk r Q sk, importSrc_stackIs H stk fuel r Q sk)
                _ dir rPath' P sk _ Hbegun) as Hc'.
  rewrite Hr in Hc'. simpl in Hc', Hnew.
  destruct (cycPost_inv _ _ _ _ _ _ _ Hc' Hnew Hin) as (_ & _ & Hsuf' & Hun').
  simpl. apply Hun'. destruct Hsuf' as [k ->].
  apply elem_of_app. right. by left.
Qed.



(** ** Directories and archives *)

(** [e] records the reading of a directory or of a file. *)
Definition isRead (e : event) : Prop :=
  match e with EvReadDir _ | EvReadFile _ => True | _ => False end.

Global Instance isRead_dec e : Decision (isRead e).
Proof. destruct e; simpl; apply _. Defined.

(** Two states of the interpreter that differ at most in the recorded
    readings. *)
Definition sim (st1 st2 : Interpreter) : Prop :=
  name st1 = name st2 ∧ GOPATH st1 = GOPATH st2 ∧ astDot st1 = astDot st2 ∧
  srcPkg st1 = srcPkg st2 ∧ pkgNames st1 = pkgNames st2 ∧
  rdir st1 = rdir st2 ∧ scopes st1 = scopes st2 ∧
  importing st1 = importing st2 ∧
  filter (λ e, ¬ isRead e) (events st1) = filter (λ e, ¬ isRead e) (events st2).

(** [m1] and [m2] end alike from states that differ at most in the recorded
    readings. *)
Definition simRun {A} (m1 m2 : M A) : Prop :=
  ∀ st1 st2, sim st1 st2 →
    (m1 st1).1 = (m2 st2).1 ∧ sim (m1 st1).2 (m2 st2).2.

Lemma sim_refl st : sim st st.
Proof. by repeat split. Qed.

Lemma sim_event e st1 st2 :
  sim st1 st2 → sim (addEvents [e] st1) (addEvents [e] st2).
Proof.
  intros (?&?&?&?&?&?&?&?&Hev). repeat (split; [done|]). simpl.
  by rewrite !filter_app, Hev.
Qed.

Lemma sim_read_l e st1 st2 :
  isRead e → sim st1 st2 → sim (addEvents [e] st1) st2.
Proof.
  intros He (?&?&?&?&?&?&?&?&Hev). repeat (split; [done|]). simpl.
  rewrite filter_app, Hev, filter_cons_False, filter_nil, app_nil_r; [done|].
  by intros Hn.
Qed.

Lemma simRun_ret {A} (a : A) : simRun (mret a) (mret a).
Proof. by intros st1 st2. Qed.

Lemma simRun_fail {A} e : simRun (@fail A e) (fail e).
Proof. by intros st1 st2. Qed.

Lemma simRun_panic {A} : simRun (@panic A) panic.
Proof. by intros st1 st2. Qed.

Lemma simRun_outOfFuel {A} : simRun (@outOfFuel A) outOfFuel.
Proof. by intros st1 st2. Qed.

Lemma simRun_lift {A} (o : outcome A) : simRun (lift o) (lift o).
Proof. by intros st1 st2. Qed.

Lemma simRun_orFail {A} (r : error + A) : simRun (orFail r) (orFail r).
Proof. by destruct r; intros st1 st2. Qed.

Lemma simRun_gets {A} (f : Interpreter → A) :
  (∀ st1 st2, sim st1 st2 → f st1 = f st2) → simRun (gets f) (gets f).
Proof. intros Hf st1 st2 Hs. split; [|done]. simpl. f_equal. by apply Hf. Qed.

Lemma simRun_modify f :
  (∀ st1 st2, sim st1 st2 → sim (f st1) (f st2)) →
  simRun (modify f) (modify f).
Proof. intros Hf st1 st2 Hs. split; [done|]. by apply Hf. Qed.

Lemma simRun_emit e : simRun (emit e) (emit e).
Proof. intros st1 st2 Hs. split; [done|]. by apply sim_event. Qed.

Lemma simRun_bind {A B} (m1 m2 : M A) (k1 k2 : A → M B) :
  simRun m1 m2 → (∀ a, simRun (k1 a) (k2 a)) →
  simRun (m1 ≫= k1) (m2 ≫= k2).
Proof.
  intros Hm Hk st1 st2 Hs. destruct (Hm st1 st2 Hs) as [Hr Hs'].
  rewrite !bind_unfold.
  destruct (m1 st1) as [r1 st1'], (m2 st2) as [r2 st2']. simpl in *. subst r2.
  destruct r1; try done. by apply Hk.
Qed.

Lemma simRun_foldM {A B} (body1 body2 : B → A → M B) l acc :
  (∀ acc x, simRun (body1 acc x) (body2 acc x)) →
  simRun (foldM body1 l acc) (foldM body2 l acc).
Proof.
  intros Hbody. revert acc. induction l as [|x l IH]; intros acc; simpl.
  - apply simRun_ret.
  - apply simRun_bind; auto.
Qed.

Lemma simRun_finally {A} (m1 m2 : M A) after :
  simRun m1 m2 → (∀ st1 st2, sim st1 st2 → sim (after st1) (after st2)) →
  simRun (finally m1 after) (finally m2 after).
Proof.
  intros Hm Ha st1 st2 Hs. destruct (Hm st1 st2 Hs) as [Hr Hs'].
  unfold finally. destruct (m1 st1), (m2 st2). simpl in *. auto.
Qed.

(** The reading of a directory or of a file leaves no other trace. *)
Lemma simRun_read_l {A} e (m1 m2 : M A) :
  isRead e → simRun m1 m2 → simRun (emit e;; m1) m2.
Proof.
  intros He Hm st1 st2 Hs. rewrite bind_emit. apply Hm.
  by apply sim_read_l.
Qed.

Ltac sim_step :=
  match goal with
  | |- simRun (mbind _ _) (mbind _ _) => apply simRun_bind; [|intros ?]
  | |- simRun (mret _) _ => apply simRun_ret
  | |- simRun (fail _) _ => apply simRun_fail
  | |- simRun panic _ => apply simRun_panic
  | |- simRun outOfFuel _ => apply simRun_outOfFuel
  | |- simRun (lift _) _ => apply simRun_lift
  | |- simRun (orFail _) _ => apply simRun_orFail
  | |- simRun (foldM _ _ _) _ => apply simRun_foldM; intros ? ?
  | |- simRun (finally _ _) _ => apply simRun_finally
  | |- simRun (run _ _) _ => unfold run
  | |- simRun (emit _) _ => apply simRun_emit
  | |- simRun (gets _) _ =>
      apply simRun_gets; intros ? ? (?&?&?&?&?&?&?&?&?); congruence
  | |- simRun (modify _) _ =>
      let Hn := fresh in let Hg := fresh in let Ha := fresh in
      let Hsp := fresh in let Hpn := fresh in let Hrd := fresh in
      let Hsc := fresh in let Him := fresh in
      apply simRun_modify; intros ? ? (Hn&Hg&Ha&Hsp&Hpn&Hrd&Hsc&Him&?);
      repeat split; simpl;
      rewrite ?Hn, ?Hg, ?Ha, ?Hsp, ?Hpn, ?Hrd, ?Hsc, ?Him; done
  | |- simRun (match ?x with _ => _ end) _ => destruct x
  | |- simRun (let '(_, _) := ?x in _) _ => destruct x
  | |- simRun (if ?x then _ else _) _ => destruct x
  end.

Section Alike.

Context (H : Host).

Lemma resolve_sim rPath P : simRun (resolve H rPath P) (resolve H rPath P).
Proof. unfold resolve, rootFromSourceLocation. repeat sim_step. Qed.

Context (importer : string → string → bool → M string).
Context (Himp : ∀ r Q sk, simRun (importer r Q sk) (importer r Q sk)).

Lemma loadSource_sim dir rPath P sk name buf acc :
  simRun (loadSource H importer dir rPath P sk name buf acc)
         (loadSource H importer dir rPath P sk name buf acc).
Proof.
  unfold loadSource, gta. repeat (sim_step; try apply Himp).
Qed.

Lemma finishImport_sim P sk acc :
  simRun (finishImport H P sk acc) (finishImport H P sk acc).
Proof.
  unfold finishImport, gtaRetry, cfg, packageScope. repeat sim_step.
Qed.

Lemma loadFile_sim dir rPath P sk acc file :
  simRun (loadFile H importer dir rPath P sk acc file)
         (loadFile H importer dir rPath P sk acc file).
Proof.
  unfold loadFile. repeat (sim_step; try apply loadSource_sim).
Qed.

Lemma importSrcBody_sim rPath P sk :
  simRun (importSrcBody H importer rPath P sk)
         (importSrcBody H importer rPath P sk).
Proof.
  unfold importSrcBody.
  repeat (sim_step; try apply resolve_sim; try apply loadFile_sim;
          try apply finishImport_sim).
  intros ? ? (?&?&?&?&?&?&?&?&?). repeat split; simpl; congruence.
Qed.

(** The tar entry of a file of the directory [dir]: a regular file with the
    name and the content of the file. *)
Definition entryOf (dir file : string) : tarEntry :=
  TarFile (TarHeader TypeReg file) (readFile H (Join [dir; file])).

Lemma loadFile_loadEntry dir rPath P sk acc file :
  simRun (loadFile H importer dir rPath P sk acc file)
         (loadEntry H importer dir rPath P sk acc (entryOf dir file)).
Proof.
  unfold loadFile, loadEntry, entryOf. simpl.
  destruct (skipFile H file sk); [apply simRun_ret|].
  apply simRun_read_l; [done|].
  apply simRun_bind; [apply simRun_orFail|]. intros buf.
  apply loadSource_sim.
Qed.

Lemma loadFiles_loadEntries dir rPath P sk files acc :
  simRun (foldM (loadFile H importer dir rPath P sk) files acc)
         (foldM (loadEntry H importer dir rPath P sk)
            (entryOf dir <$> files) acc).
Proof.
  revert acc. induction files as [|file files IH]; intros acc; simpl.
  - apply simRun_ret.
  - apply simRun_bind; [apply loadFile_loadEntry|done].
Qed.

Lemma directoryRun_archiveRun dir rPath P sk files :
  readDir H dir = inr files →
  simRun (directoryRun H importer dir rPath P sk)
         (archiveRun H importer dir rPath P sk
            (GzipStream (entryOf dir <$> files))).
Proof.
  intros Hdir st1 st2 Hs. unfold directoryRun, archiveRun.
  rewrite bind_emit, (bind_unfold (orFail _)), Hdir. simpl.
  apply simRun_bind.
  - apply loadFiles_loadEntries.
  - intros acc. apply finishImport_sim.
  - by apply sim_read_l.
Qed.

End Alike.

Lemma importSrc_sim H fuel rPath P sk :
  simRun (importSrc H fuel rPath P sk) (importSrc H fuel rPath P sk).
Proof.
  revert rPath P sk. induction fuel as [|fuel IH]; intros rPath P sk; simpl.
  - apply simRun_outOfFuel.
  - by apply importSrcBody_sim.
Qed.



(** ** The walk of [pkgDir] through the vendor chain ends *)

(** The length of [strings.Join] of the pieces [l], plus one. *)
Definition weight (l : list string) : nat :=
  sum_list_with (λ s, S (String.length s)) l.

Lemma length_app_string a b :
  String.length (a +:+ b) = String.length a + String.length b.
Proof.
  induction a as [|c a IH]; [done|].
  rewrite app_cons_string. simpl. by rewrite IH.
Qed.

Lemma weight_app l1 l2 : weight (l1 ++ l2) = weight l1 + weight l2.
Proof. apply sum_list_with_app. Qed.

Lemma length_JoinSep l : l ≠ [] → S (String.length (JoinSep l)) = weight l.
Proof.
  induction l as [|a l IH]; intros Hne; [done|].
  destruct l as [|b l].
  { unfold weight. simpl. lia. }
  change (JoinSep (a :: b :: l)) with (a +:+ "/" +:+ JoinSep (b :: l)).
  rewrite !length_app_string.
  change (weight (a :: b :: l)) with (S (String.length a) + weight (b :: l)).
  rewrite <- IH by done. simpl. lia.
Qed.

Lemma JoinSep_Split s : JoinSep (Split s) = s.
Proof.
  induction s as [|c s IH]; [done|]. simpl.
  destruct (decide (c = Separator)) as [->|Hc].
  - destruct (Split s) as [|h t] eqn:Hs; [by destruct (Split_nonempty s)|].
    change (JoinSep ("" :: h :: t)) with ("" +:+ "/" +:+ JoinSep (h :: t)).
    by rewrite IH.
  - destruct (Split s) as [|h t] eqn:Hs; [by destruct (Split_nonempty s)|].
    rewrite <- IH. destruct t as [|h' t]; [done|].
    change (JoinSep (String c h :: h' :: t))
      with (String c h +:+ "/" +:+ JoinSep (h' :: t)).
    change (JoinSep (h :: h' :: t)) with (h +:+ "/" +:+ JoinSep (h' :: t)).
    by rewrite app_cons_string.
Qed.

Lemma length_Split s : S (String.length s) = weight (Split s).
Proof.
  rewrite <- (JoinSep_Split s) at 1. apply length_JoinSep, Split_nonempty.
Qed.

Lemma weight_removelast l : weight (removelast l) ≤ weight l.
Proof.
  induction l as [|a l IH]; [done|]. simpl.
  destruct l as [|b l]; [unfold weight; simpl; lia|].
  change (weight (a :: removelast (b :: l)))
    with (S (String.length a) + weight (removelast (b :: l))).
  change (weight (a :: b :: l)) with (S (String.length a) + weight (b :: l)).
  lia.
Qed.

Lemma weight_cleanLoop rooted segs out dotdot :
  weight (cleanLoop rooted segs out dotdot) ≤ weight out + weight segs.
Proof.
  revert out dotdot. induction segs as [|seg rest IH]; intros out dotdot.
  { simpl. lia. }
  change (weight (seg :: rest)) with (S (String.length seg) + weight rest).
  cbn [cleanLoop].
  destruct (decide (seg = "")); [etrans; [apply IH|lia]|].
  destruct (decide (seg = ".")); [etrans; [apply IH|lia]|].
  destruct (decide (seg = "..")) as [->|].
  - destruct (decide (dotdot < length out)).
    + etrans; [apply IH|]. pose proof (weight_removelast out). lia.
    + destruct rooted; (etrans; [apply IH|]); [lia|].
      rewrite weight_app. unfold weight. simpl. lia.
  - etrans; [apply IH|]. rewrite weight_app. unfold weight. simpl. lia.
Qed.

Lemma Split_rooted p :
  HasPrefix p "/" = true → ∃ rest, Split p = "" :: rest.
Proof.
  destruct p as [|c p]; [done|]. simpl.
  intros Hc. apply andb_true_iff in Hc as [Hc%bool_decide_eq_true _].
  subst c. destruct (decide _); [eauto|done].
Qed.

(** [filepath.Clean] does not lengthen a path that is not empty. *)
Lemma length_Clean p : p ≠ "" → String.length (Clean p) ≤ String.length p.
Proof.
  intros Hp. unfold Clean. destruct (decide _) as [|_]; [done|].
  assert (1 ≤ String.length p) as H1 by (destruct p; [done|simpl; lia]).
  pose proof (length_Split p) as Hlen.
  destruct (HasPrefix p "/") eqn:Hroot.
  - destruct (Split_rooted p Hroot) as [rest Hrest]. rewrite Hrest in *.
    cbn [cleanLoop]. destruct (decide _) as [_|]; [|done].
    change (weight ("" :: rest)) with (1 + weight rest) in Hlen.
    pose proof (weight_cleanLoop true rest [] 0) as Hw.
    change (weight []) with 0 in Hw.
    destruct (cleanLoop true rest [] 0) as [|a l] eqn:Hout;
      [change (String.length "/") with 1; lia|].
    rewrite length_app_string. change (String.length "/") with 1.
    pose proof (length_JoinSep (a :: l) ltac:(done)) as Hj. lia.
  - pose proof (weight_cleanLoop false (Split p) [] 0) as Hw.
    change (weight []) with 0 in Hw.
    destruct (cleanLoop false (Split p) [] 0) as [|a l] eqn:Hout;
      [change (String.length ".") with 1; lia|].
    rewrite app_nil_string.
    pose proof (length_JoinSep (a :: l) ltac:(done)) as Hj. lia.
Qed.

Lemma length_Join l : l ≠ [] → S (String.length (Join l)) ≤ weight l.
Proof.
  induction l as [|a l IH]; intros Hne; [done|].
  change (weight (a :: l)) with (S (String.length a) + weight l).
  cbn [Join]. destruct (decide (a = "")) as [->|Ha].
  - destruct l as [|b l]; [simpl; lia|]. etrans; [apply IH|]; [done|lia].
  - etrans; [apply le_n_S, length_Clean|].
    + destruct a as [|c a]; [done|].
      by destruct (JoinSep_head (String c a) l) as [->|[? ->]].
    + rewrite length_JoinSep by done.
      change (weight (a :: l)) with (S (String.length a) + weight l). lia.
Qed.

Lemma previousRootLoop_lt segs n : 0 < n → previousRootLoop segs n < n.
Proof.
  induction n as [|n IH]; intros Hn; [lia|]. simpl.
  destruct (decide _); [lia|]. destruct n; [simpl; lia|].
  etrans; [apply IH|]; lia.
Qed.

(** [previousRoot] shortens a root that is not empty. *)
Lemma previousRoot_shorter root :
  root ≠ "" → String.length (previousRoot root) < String.length root.
Proof.
  intros Hroot.
  assert (1 ≤ String.length root) by (destruct root; [done|simpl; lia]).
  unfold previousRoot.
  set (segs := Split root). set (index := previousRootLoop segs (length segs)).
  destruct (decide (index = 0)); [simpl; lia|].
  assert (index < length segs) as Hlt.
  { apply previousRootLoop_lt. destruct segs eqn:Hs; [|simpl; lia].
    by destruct (Split_nonempty root). }
  pose proof (length_Split root) as Hlen. fold segs in Hlen.
  rewrite <- (take_drop index segs), weight_app in Hlen.
  assert (take index segs ≠ []) as Hne.
  { intros Hnil%(f_equal length). rewrite length_take in Hnil.
    simpl in Hnil. lia. }
  pose proof (length_Join _ Hne).
  assert (1 ≤ weight (drop index segs)).
  { destruct (drop index segs) as [|a l] eqn:Hd.
    - apply (f_equal length) in Hd. rewrite length_drop in Hd. simpl in Hd.
      lia.
    - unfold weight. simpl. lia. }
  lia.
Qed.

(** The recursion bound of [pkgDir] in [resolve] is never reached. *)
Lemma pkgDir_ends H gopath path fuel root :
  String.length root < fuel → pkgDir H fuel gopath root path ≠ OutOfFuel.
Proof.
  revert root. induction fuel as [|fuel IH]; intros root Hlen; [lia|].
  simpl. destruct (stat H _); [done|]. destruct (stat H _); [done|].
  destruct (decide _) as [|Hne]; [by destruct (ctxImport H path) as [[]|]|].
  apply IH.
  assert (root ≠ "") as Hroot by (intros ->; by destruct Hne).
  pose proof (previousRoot_shorter root Hroot). lia.
Qed.

Lemma resolve_ends H rPath P st :
  (resolve H rPath P st).1 ≠ OutOfFuel.
Proof.
  unfold resolve. destruct (isPathRelative P).
  { by rewrite bind_gets. }
  rewrite bind_unfold.
  destruct (rootFromSourceLocation H rPath st) as [[root|e| |] st1] eqn:Hroot;
    try done.
  - rewrite bind_gets.
    change (pkgDir H (pkgDirFuel root) (GOPATH st1) root P ≠ OutOfFuel).
    apply pkgDir_ends. unfold pkgDirFuel. lia.
  - exfalso. revert Hroot. unfold rootFromSourceLocation.
    rewrite bind_gets. destruct (_ || _); [done|].
    rewrite bind_unfold. destruct (getwd H); simpl; [done|].
    rewrite bind_gets. by destruct (decide _).
Qed.

(** * Further properties of the import pipeline

    Properties of [previousRoot], [pkgDir], [rootFromSourceLocation],
    [isPathRelative], [importSrc] and [importSrcArchive] that the code
    shows beyond the statements of the design document. *)

(** A world without any directory. *)
Definition emptyWorld : Demo.world := {|
  Demo.w_dirs := [];
  Demo.w_files := [];
  Demo.w_parse := [];
  Demo.w_imports := [];
  Demo.w_decls := [];
  Demo.w_inits := [];
  Demo.w_genRun := [];
  Demo.w_globals := inr (Node 0)
|}.

(** ** The vendor step and its way back *)

Lemma app_assoc_string a b c : (a +:+ b) +:+ c = a +:+ (b +:+ c).
Proof.
  induction a as [|x a IH]; [done|].
  rewrite !app_cons_string. by f_equal.
Qed.

Lemma JoinSep_snoc l x :
  l ≠ [] → JoinSep (l ++ [x]) = JoinSep l +:+ "/" +:+ x.
Proof.
  induction l as [|a l IH]; intros Hne; [done|].
  destruct l as [|b l]; [done|].
  change (JoinSep ((a :: b :: l) ++ [x]))
    with (a +:+ "/" +:+ JoinSep ((b :: l) ++ [x])).
  rewrite IH by done.
  change (JoinSep (a :: b :: l)) with (a +:+ "/" +:+ JoinSep (b :: l)).
  by rewrite !app_assoc_string.
Qed.

Lemma plain_vendor : plain "vendor".
Proof. by repeat split. Qed.

(** X1. [previousRoot] makes progress: on a root that is not empty it
    returns a strictly shorter string, so that the chain [root],
    [previousRoot(root)], ... reaches the empty root (the GOPATH itself)
    after at most [len(root)] steps. *)
Theorem previousRoot_chain_ends (root : string) :
  (root ≠ "" → String.length (previousRoot root) < String.length root) ∧
  Nat.iter (String.length root) previousRoot root = "".
Proof.
  split; [apply previousRoot_shorter|].
  assert (∀ n r, String.length r ≤ n → Nat.iter n previousRoot r = "") as Hn.
  { intros n. induction n as [|n IH]; intros r Hr.
    - destruct r; [done|simpl in Hr; lia].
    - rewrite Nat.iter_succ_r. apply IH.
      destruct (decide (r = "")) as [->|Hne]; [simpl; lia|].
      pose proof (previousRoot_shorter r Hne). lia. }
  by apply Hn.
Qed.

Lemma previousRoot_chain_ends_witness :
  String.length (previousRoot "a/vendor/b") < String.length "a/vendor/b".
Proof.
  apply (proj1 (previousRoot_chain_ends "a/vendor/b")). intros [=].
Defined.

(** X2. [previousRoot] undoes the step of [pkgDir] into a "vendor"
    directory: for a root made of plain pieces (none of them empty, "." or
    ".."), also the empty root, [previousRoot(filepath.Join(root,
    "vendor"))] is [root]. *)
Theorem previousRoot_undoes_vendor (l : list string) :
  Forall plain l →
  previousRoot (Join [JoinSep l; "vendor"]) = JoinSep l.
Proof.
  intros Hl. destruct (decide (l = [])) as [->|Hne]; [reflexivity|].
  assert (Forall plain (l ++ ["vendor"])) as Hlv.
  { apply Forall_app. split; [done|]. constructor; [apply plain_vendor|done]. }
  assert (Join [JoinSep l; "vendor"] = JoinSep (l ++ ["vendor"])) as ->.
  { rewrite <- (Join_plain _ Hlv).
    destruct l as [|a l]; [done|]. inversion Hl as [|? ? Ha Hl']; subst.
    cbn [Join app].
    rewrite (decide_False (P := a = "")) by by destruct Ha.
    rewrite decide_False by by apply JoinSep_plain_nonempty.
    change (JoinSep [JoinSep (a :: l); "vendor"])
      with (JoinSep (a :: l) +:+ "/" +:+ "vendor").
    by rewrite <- JoinSep_snoc. }
  unfold previousRoot. rewrite Split_JoinSep.
  2:{ eapply Forall_impl; [exact Hlv|]. by intros ? (_&_&_&?). }
  2:{ by destruct l. }
  rewrite (previousRootLoop_found _ _ (length l)).
  - destruct (decide _) as [Hz|_]; [by destruct l|].
    rewrite take_app_length. by apply Join_plain.
  - rewrite length_app. simpl. lia.
  - by rewrite list_lookup_middle.
  - intros j ?. rewrite length_app. simpl. lia.
Qed.

Lemma previousRoot_undoes_vendor_witness :
  previousRoot (Join ["a/vendor/b"; "vendor"]) = "a/vendor/b".
Proof.
  apply (previousRoot_undoes_vendor ["a"; "vendor"; "b"]).
  repeat constructor; intros [=].
Defined.

(** ** The search of [pkgDir] *)

Lemma pkgDir_fuel H gopath path n :
  ∀ root fuel, String.length root < n → String.length root < fuel →
    pkgDir H fuel gopath root path =
    pkgDir H (pkgDirFuel root) gopath root path.
Proof.
  induction n as [|n IH]; intros root fuel Hn Hfuel; [lia|].
  destruct fuel as [|fuel]; [lia|]. unfold pkgDirFuel.
  cbn [pkgDir]. destruct (stat H _); [done|]. destruct (stat H _); [done|].
  destruct (decide _) as [|Hne]; [done|].
  assert (root ≠ "") as Hroot by (intros ->; by destruct Hne).
  pose proof (previousRoot_shorter root Hroot).
  rewrite (IH (previousRoot root) fuel) by lia.
  rewrite (IH (previousRoot root) (String.length root)) by lia. done.
Qed.

(** X3. The recursion of [pkgDir] ends: with a bound on the number of
    nested calls above the length of [root], the bound is not reached, and
    the result is the same for every such bound. *)
Theorem pkgDir_returns (H : Host) (gopath root path : string) (fuel : nat) :
  String.length root < fuel →
  pkgDir H fuel gopath root path ≠ OutOfFuel ∧
  pkgDir H fuel gopath root path =
  pkgDir H (pkgDirFuel root) gopath root path.
Proof.
  intros Hfuel. split; [by apply pkgDir_ends|].
  by apply (pkgDir_fuel H gopath path (S (String.length root))); [lia|].
Qed.

Lemma pkgDir_returns_witness :
  let H := Demo.hostOf Demo.fooWorld in
  pkgDir H 100 "/go" "a/vendor/b" "foo" =
  pkgDir H (pkgDirFuel "a/vendor/b") "/go" "a/vendor/b" "foo".
Proof.
  intros H.
  apply (proj2 (pkgDir_returns H "/go" "a/vendor/b" "foo" 100
                  ltac:(simpl; lia))).
Defined.

(** The directory of lines 365-366 of [pkgDir]: the package in the "vendor"
    directory of [root]. *)
Definition vendorDir (gopath root path : string) : string :=
  Join [gopath; "src"; Join [root; "vendor"]; path].

(** The directory of line 371 of [pkgDir]: the package below [root]
    itself. *)
Definition ownDir (gopath root path : string) : string :=
  Join [gopath; "src"; effectivePkg root path].

(** The roots that [pkgDir] goes through: [root], [previousRoot(root)],
    ... *)
Definition rootAt (root : string) (k : nat) : string :=
  Nat.iter k previousRoot root.

(** [(dir, rPath)] is the first hit of the search from [root]: no directory
    exists for the roots before the [k]-th one, none of which is empty, and
    at the [k]-th root the "vendor" directory exists, or else the directory
    below the root, or else the root is empty and [ctx.Import] knows the
    package. *)
Definition firstHit (H : Host) (gopath root path dir rPath : string)
  : Prop :=
  ∃ k,
    (∀ j, j < k →
          rootAt root j ≠ "" ∧
          stat H (vendorDir gopath (rootAt root j) path) = false ∧
          stat H (ownDir gopath (rootAt root j) path) = false) ∧
    ((stat H (vendorDir gopath (rootAt root k) path) = true ∧
      dir = vendorDir gopath (rootAt root k) path ∧
      rPath = Join [rootAt root k; "vendor"]) ∨
     (stat H (vendorDir gopath (rootAt root k) path) = false ∧
      stat H (ownDir gopath (rootAt root k) path) = true ∧
      dir = ownDir gopath (rootAt root k) path ∧
      rPath = rootAt root k) ∨
     (stat H (vendorDir gopath (rootAt root k) path) = false ∧
      stat H (ownDir gopath (rootAt root k) path) = false ∧
      rootAt root k = "" ∧ ctxImport H path = Some (dir, rPath))).

Lemma rootAt_S root k : rootAt root (S k) = rootAt (previousRoot root) k.
Proof. unfold rootAt. by rewrite Nat.iter_succ_r. Qed.

(** X4. What [pkgDir] returns is the first hit of its search: along the
    roots [root], [previousRoot(root)], ... it returns for the first root
    with an existing directory the "vendor" directory of that root (with
    that directory as new root) if it exists, else the directory below the
    root; it asks [ctx.Import] only at the empty root, when neither
    exists. *)
Theorem pkgDir_first_hit (H : Host) fuel gopath root path dir rPath :
  pkgDir H fuel gopath root path = Ok (dir, rPath) →
  firstHit H gopath root path dir rPath.
Proof.
  revert root. induction fuel as [|fuel IH]; intros root; [done|].
  cbn [pkgDir]. fold (vendorDir gopath root path) (ownDir gopath root path).
  destruct (stat H (vendorDir gopath root path)) eqn:Hvendor.
  { intros [= <- <-]. exists 0. split; [lia|]. left. done. }
  destruct (stat H (ownDir gopath root path)) eqn:Hown.
  { intros [= <- <-]. exists 0. split; [lia|]. right. left. done. }
  destruct (decide _) as [Hz|Hnz].
  { assert (root = "") as -> by (by destruct root).
    destruct (ctxImport H path) as [[pdir proot]|] eqn:Hctx; [|done].
    intros [= <- <-]. exists 0. split; [lia|]. right. right. done. }
  intros Hr. destruct (IH _ Hr) as (k & Hbefore & Hat).
  exists (S k). split.
  - intros [|j] Hj.
    + split; [|done]. intros Hroot. apply Hnz.
      change (rootAt root 0) with root in Hroot. by rewrite Hroot.
    + rewrite rootAt_S. apply Hbefore. lia.
  - by rewrite rootAt_S.
Qed.

Lemma pkgDir_first_hit_witness :
  firstHit (Demo.hostOf Demo.fooWorld) "/go" "a/vendor/b" "foo"
    "/go/src/foo" "".
Proof.
  apply (pkgDir_first_hit (Demo.hostOf Demo.fooWorld)
           (pkgDirFuel "a/vendor/b") "/go" "a/vendor/b" "foo").
  vm_compute. reflexivity.
Defined.

(** When no directory exists, the search goes down to the empty root and
    ends with [ctx.Import]. *)
Lemma pkgDir_walk H gopath path :
  (∀ dir, stat H dir = false) →
  ∀ fuel r, String.length r < fuel →
    pkgDir H fuel gopath r path =
    match ctxImport H path with
    | Some (pdir, proot) => Ok (pdir, proot)
    | None => Fail (ErrNoSource path)
    end.
Proof.
  intros Hstat fuel. induction fuel as [|fuel IH]; intros r Hlen; [lia|].
  cbn [pkgDir]. rewrite !Hstat.
  destruct (decide _) as [|Hne]; [done|]. apply IH.
  assert (r ≠ "") as Hr by (intros ->; by destruct Hne).
  pose proof (previousRoot_shorter r Hr). lia.
Qed.

(** X5. [pkgDir] fails in one way only: with "unable to find source related
    to" its [path], and after [ctx.Import] has failed; it does not panic.
    When no directory exists at all, the result is the one of
    [ctx.Import], whatever the root is. *)
Theorem pkgDir_not_found (H : Host) (gopath root path : string) :
  (∀ fuel e, pkgDir H fuel gopath root path = Fail e →
             e = ErrNoSource path ∧ ctxImport H path = None) ∧
  (∀ fuel, pkgDir H fuel gopath root path ≠ Panic) ∧
  ((∀ dir, stat H dir = false) →
   pkgDir H (pkgDirFuel root) gopath root path =
   match ctxImport H path with
   | Some (pdir, proot) => Ok (pdir, proot)
   | None => Fail (ErrNoSource path)
   end).
Proof.
  assert (∀ fuel r,
            (∀ e, pkgDir H fuel gopath r path = Fail e →
                  e = ErrNoSource path ∧ ctxImport H path = None) ∧
            pkgDir H fuel gopath r path ≠ Panic) as Hfail.
  { intros fuel. induction fuel as [|fuel IH]; intros r; [done|].
    cbn [pkgDir]. destruct (stat H _); [done|]. destruct (stat H _); [done|].
    destruct (decide _) as [_|_]; [|apply IH].
    destruct (ctxImport H path) as [[pdir proot]|] eqn:Hctx; [done|].
    split; [|done]. by intros e [= <-]. }
  split; [intros fuel; apply Hfail|]. split; [intros fuel; apply Hfail|].
  intros Hstat. apply pkgDir_walk; [done|]. unfold pkgDirFuel. lia.
Qed.

Lemma pkgDir_not_found_witness :
  pkgDir (Demo.hostOf emptyWorld) (pkgDirFuel "a/vendor/b") "/go"
    "a/vendor/b" "foo" =
  Fail (ErrNoSource "foo").
Proof.
  apply (proj2 (proj2 (pkgDir_not_found (Demo.hostOf emptyWorld) "/go"
                         "a/vendor/b" "foo"))).
  reflexivity.
Defined.

(** ** Where [importSrcArchive] looks for its package *)

Lemma pkgDir_archive H g :
  pkgDir H (pkgDirFuel ".") g "." "/" =
  if stat H (Join [g; "src"; "vendor"; "/"])
  then Ok (Join [g; "src"; "vendor"; "/"], "vendor")
  else if stat H (Join [g; "src"; "."]) then Ok (Join [g; "src"; "."], ".")
  else if stat H (Join [g; "src"; ""]) then Ok (Join [g; "src"; ""], "")
  else match ctxImport H "/" with
       | Some (pdir, proot) => Ok (pdir, proot)
       | None => Fail (ErrNoSource "/")
       end.
Proof.
  change (pkgDirFuel ".") with 2. cbn [pkgDir].
  change (Join ["."; "vendor"]) with "vendor".
  change (effectivePkg "." "/") with ".".
  change (previousRoot ".") with "".
  change (Join [""; "vendor"]) with "vendor".
  change (effectivePkg "" "/") with "".
  destruct (stat H (Join [g; "src"; "vendor"; "/"])); [done|].
  destruct (stat H (Join [g; "src"; "."])); [done|].
  destruct (stat H (Join [g; "src"; ""])); [done|].
  by destruct (decide _).
Qed.

(** X6. With its fixed [rPath] "." and import path "/",
    [importSrcArchive] looks for the directory of the package on disk
    before it opens the archive: $GOPATH/src/vendor, then $GOPATH/src, then
    what [ctx.Import] knows for "/". When none of them is there, every
    archive is refused with "unable to find source related to" "/", and the
    interpreter is left as it was. *)
Theorem importSrcArchive_location (H : Host) (st : Interpreter) :
  let g := GOPATH st in
  resolve H "." "/" st =
  (if stat H (Join [g; "src"; "vendor"; "/"])
   then Ok (Join [g; "src"; "vendor"; "/"], "vendor")
   else if stat H (Join [g; "src"; "."]) then Ok (Join [g; "src"; "."], ".")
   else if stat H (Join [g; "src"; ""]) then Ok (Join [g; "src"; ""], "")
   else match ctxImport H "/" with
        | Some (pdir, proot) => Ok (pdir, proot)
        | None => Fail (ErrNoSource "/")
        end, st) ∧
  (stat H (Join [g; "src"; "vendor"; "/"]) = false →
   stat H (Join [g; "src"; "."]) = false →
   stat H (Join [g; "src"; ""]) = false →
   ctxImport H "/" = None →
   ∀ fuel reader sk,
     importSrcArchive H fuel reader sk st = (Fail (ErrNoSource "/"), st)).
Proof.
  intros g.
  assert (resolve H "." "/" st = (pkgDir H (pkgDirFuel ".") g "." "/", st))
    as Hres by reflexivity.
  rewrite pkgDir_archive in Hres. split; [exact Hres|].
  intros Hv Hd He Hc fuel reader sk.
  rewrite Hv, Hd, He, Hc in Hres.
  unfold importSrcArchive, importSrcArchiveBody.
  by rewrite bind_unfold, Hres.
Qed.

Lemma importSrcArchive_location_witness :
  importSrcArchive (Demo.hostOf emptyWorld) 1
    (GzipStream [TarFile (TarHeader TypeReg "a.go") (inr "package a")])
    true Demo.fresh =
  (Fail (ErrNoSource "/"), Demo.fresh).
Proof.
  apply (proj2 (importSrcArchive_location (Demo.hostOf emptyWorld) Demo.fresh));
    reflexivity.
Defined.

(** ** An import that does not resolve *)

(** X18. When the path of an unregistered package does not resolve,
    [importSrc] returns the error of the resolution and leaves the
    interpreter as it was: the path is not marked as visited, so that a
    later attempt starts afresh. This is the case of a package that is
    not relative, imported from a root other than "main", when no
    directory of the search exists and [ctx.Import] does not know it: the
    error is "unable to find source related to" the path. *)
Theorem unresolved_import (H : Host) fuel rPath P sk st :
  srcPkg st !! P = None →
  (∀ e, (resolve H rPath P st).1 = Fail e →
        importSrc H (S fuel) rPath P sk st = (Fail e, st)) ∧
  (isPathRelative P = false → rPath ≠ "main" →
   (∀ dir, stat H dir = false) → ctxImport H P = None →
   importSrc H (S fuel) rPath P sk st = (Fail (ErrNoSource P), st)).
Proof.
  intros Hreg.
  assert (∀ e, (resolve H rPath P st).1 = Fail e →
               importSrc H (S fuel) rPath P sk st = (Fail e, st)) as Hfail.
  { intros e Hres%resolve_run. cbn [importSrc]. unfold importSrcBody.
    by rewrite bind_gets, Hreg, bind_unfold, Hres. }
  split; [done|]. intros Hrel Hmain Hstat Hctx. apply Hfail.
  unfold resolve. rewrite Hrel, bind_unfold.
  unfold rootFromSourceLocation. rewrite bind_gets.
  rewrite bool_decide_eq_false_2 by done. cbn [negb orb mret M_ret].
  rewrite bind_gets. cbn [lift fst].
  rewrite (pkgDir_walk H _ _ Hstat) by (unfold pkgDirFuel; lia).
  by rewrite Hctx.
Qed.

Lemma unresolved_import_witness :
  importSrc (Demo.hostOf emptyWorld) 1 "" "foo" true Demo.fresh =
  (Fail (ErrNoSource "foo"), Demo.fresh).
Proof.
  apply (proj2 (unresolved_import (Demo.hostOf emptyWorld) 0 "" "foo" true
                  Demo.fresh ltac:(reflexivity)));
    [reflexivity|intros [=]|reflexivity|reflexivity].
Defined.

(** ** Relative import paths *)

Lemma HasPrefix_app s p : HasPrefix s p = true ↔ ∃ rest, s = p +:+ rest.
Proof.
  revert s. induction p as [|b p IH]; intros s; simpl.
  { split; [intros _; by exists s|by destruct s]. }
  destruct s as [|a s]; simpl.
  { split; [done|]. by intros [rest [=]]. }
  rewrite andb_true_iff, bool_decide_eq_true, IH. split.
  - intros [-> [rest ->]]. by exists rest.
  - intros [rest [= -> ->]]. eauto.
Qed.

(** X7. [isPathRelative] holds of the paths "./..." and "../..." and of no
    other (not of "." or ".." alone). A relative import path always
    resolves, without a look at the file system or at the GOPATH: to the
    directory of the input file, joined with [rPath] ("." for "main") and
    the import path. *)
Theorem relative_import_paths (H : Host) :
  (∀ s, isPathRelative s = true ↔
        ∃ rest, s = "./" +:+ rest ∨ s = "../" +:+ rest) ∧
  (∀ rPath P st,
     isPathRelative P = true →
     resolve H rPath P st =
     (let rPath' := if decide (rPath = "main") then "." else rPath in
      Ok (Join [Dir (name st); rPath'; P], rPath'), st)).
Proof.
  split.
  - intros s. unfold isPathRelative.
    rewrite orb_true_iff, !HasPrefix_app. split.
    + intros [[rest ->]|[rest ->]]; exists rest; auto.
    + intros [rest [->| ->]]; [left|right]; by exists rest.
  - intros rPath P st HP. unfold resolve. by rewrite HP.
Qed.

Lemma relative_import_paths_witness :
  resolve (Demo.hostOf Demo.fooWorld) "main" "./sub"
    (newInterpreter "/work/cmd/main.go" "/go") =
  (Ok ("/work/cmd/sub", "."), newInterpreter "/work/cmd/main.go" "/go").
Proof.
  apply (proj2 (relative_import_paths (Demo.hostOf Demo.fooWorld))
           "main" "./sub" (newInterpreter "/work/cmd/main.go" "/go")).
  reflexivity.
Defined.

(** ** The root of the entry package *)

Lemma dropPrefix_app p s : dropPrefix (p +:+ s) p = Some s.
Proof.
  induction p as [|b p IH]; [by destruct s|].
  simpl. by rewrite decide_True.
Qed.

Lemma dropPrefix_none s p : HasPrefix s p = false → dropPrefix s p = None.
Proof.
  revert s. induction p as [|b p IH]; intros s; [by destruct s|].
  destruct s as [|a s]; [done|]. simpl.
  destruct (decide (a = b)) as [->|Hne].
  - rewrite bool_decide_eq_true_2 by done. apply IH.
  - done.
Qed.

(** X8. [rootFromSourceLocation] returns [rPath] as it is unless [rPath] is
    "main" and the input file is a ".go" file. In that case, with [dir] the
    directory of the input file below the working directory: if [dir] is
    $GOPATH/src/rel, the root is [rel]; if [dir] is not below $GOPATH/src,
    the root is [dir] itself, and the error "package location ... not in
    GOPATH" is returned only when [dir] is the working directory. *)
Theorem rootFromSourceLocation_entry (H : Host) (st : Interpreter) :
  (∀ rPath,
     rPath ≠ "main" ∨ HasSuffix (name st) ".go" = false →
     rootFromSourceLocation H rPath st = (Ok rPath, st)) ∧
  (∀ wd,
     HasSuffix (name st) ".go" = true → getwd H = inr wd →
     let dir := Join [wd; Dir (name st)] in
     let src := Join [GOPATH st; "src"] +:+ "/" in
     (∀ rel,
        dir = src +:+ rel →
        rootFromSourceLocation H "main" st =
        (if decide (rel = wd) then Fail (ErrNotInGopath dir) else Ok rel,
         st)) ∧
     (HasPrefix dir src = false →
      rootFromSourceLocation H "main" st =
      (if decide (dir = wd) then Fail (ErrNotInGopath dir) else Ok dir,
       st))).
Proof.
  split.
  - intros rPath Hcase. unfold rootFromSourceLocation. rewrite bind_gets.
    destruct Hcase as [Hne| ->].
    + by rewrite bool_decide_eq_false_2.
    + simpl. by rewrite orb_true_r.
  - intros wd Hgo Hwd dir src.
    assert (∀ root,
              TrimPrefix dir src = root →
              rootFromSourceLocation H "main" st =
              (if decide (root = wd) then Fail (ErrNotInGopath dir)
               else Ok root, st)) as Hroot.
    { intros root <-. unfold rootFromSourceLocation.
      rewrite bind_gets, Hgo. simpl. rewrite bind_unfold, Hwd. simpl.
      rewrite bind_gets. fold dir src. by destruct (decide _). }
    split.
    + intros rel Hrel. apply Hroot. unfold TrimPrefix.
      by rewrite Hrel, dropPrefix_app.
    + intros Hno. apply Hroot. unfold TrimPrefix.
      by rewrite dropPrefix_none.
Qed.

Lemma rootFromSourceLocation_entry_witness :
  rootFromSourceLocation (Demo.hostOf Demo.mainWorld) "main"
    (newInterpreter "/go/src/cmd/main.go" "/go") =
  (Ok "cmd", newInterpreter "/go/src/cmd/main.go" "/go").
Proof.
  apply (proj1 (proj2 (rootFromSourceLocation_entry (Demo.hostOf Demo.mainWorld)
                         (newInterpreter "/go/src/cmd/main.go" "/go"))
                 "/" ltac:(reflexivity) ltac:(reflexivity)) "cmd").
  reflexivity.
Defined.

(** ** The registry stays consistent *)

(** Every registered path has a package name. *)
Definition consistent (st : Interpreter) : Prop :=
  ∀ X, is_Some (srcPkg st !! X) → is_Some (pkgNames st !! X).

Lemma consistent_Stable P : Stable consistent P.
Proof. by constructor. Qed.

Lemma finishImport_consistent H P sk acc :
  preserves consistent (finishImport H P sk acc).
Proof.
  intros st HI. destruct (finishImport H P sk acc st) as [r st'] eqn:Hr.
  simpl. apply finishImport_spec in Hr as [[_ Hl]|Hreg].
  - apply lowersOnly_registry in Hl as [Hs Hn]. intros X.
    rewrite Hs, Hn. apply HI.
  - destruct Hreg
      as (st1 & gs & initNodes & post & retries & Hl & _ & _ & -> & _).
    destruct Hl as (_ & _ & _ & Hs & Hn & _). intros X. simpl.
    rewrite Hs, Hn. destruct (decide (P = X)) as [->|].
    + by rewrite !lookup_insert_eq.
    + rewrite !lookup_insert_ne by done. apply HI.
Qed.

Lemma importSrcBody_consistent H importer rPath P sk :
  (∀ r Q sk, preserves consistent (importer r Q sk)) →
  preserves consistent (importSrcBody H importer rPath P sk).
Proof.
  intros Himp st HI.
  destruct (importSrcBody H importer rPath P sk st) as [r st'] eqn:Hr.
  simpl.
  apply importSrcBody_cases in Hr as [(t & _ & -> & _)|(_ & Hr)]; [done|].
  destruct Hr as [(-> & _)|(dir & rPath' & _ & Hr)]; [done|].
  destruct Hr as [(_ & _ & ->)|(_ & st1 & Hr & ->)]; [done|].
  cut (consistent st1); [done|].
  eapply (preserves_run consistent _ (begun P st)); [|exact HI|exact Hr].
  unfold directoryRun.
  apply preserves_bind; [by apply preserves_emit|]. intros _.
  apply preserves_bind; [apply preserves_orFail|]. intros files.
  apply preserves_bind; [|intros acc; apply finishImport_consistent].
  by apply loadFiles_preserves; [apply consistent_Stable|].
Qed.

Lemma importSrc_consistent H fuel rPath P sk :
  preserves consistent (importSrc H fuel rPath P sk).
Proof.
  revert rPath P sk. induction fuel as [|fuel IH]; intros rPath P sk.
  - apply preserves_outOfFuel.
  - by apply importSrcBody_consistent.
Qed.

Lemma importSrcArchive_consistent H fuel reader sk :
  preserves consistent (importSrcArchive H fuel reader sk).
Proof.
  intros st HI.
  destruct (importSrcArchive H fuel reader sk st) as [r st'] eqn:Hr.
  simpl. apply importSrcArchiveBody_cases in Hr
    as [(-> & _)|(dir & rPath' & st1 & _ & Hr & ->)]; [done|].
  cut (consistent st1); [done|].
  eapply (preserves_run consistent _ (begun "/" st)); [|exact HI|exact Hr].
  destruct reader as [e|entries]; [apply preserves_fail|].
  apply preserves_bind; [|intros acc; apply finishImport_consistent].
  apply loadEntries_preserves; [apply consistent_Stable|].
  intros. apply importSrc_consistent.
Qed.

(** X9. [importSrc] and [importSrcArchive] keep the two maps of the
    registry in step: when every path of [srcPkg] has a name in [pkgNames]
    before a call, which is so in a new interpreter, it is so after the
    call, however the call ends. In such a state the error "inconsistent
    knowledge about" a path is not returned by the lookup of the registry:
    a registered path is answered with its name. *)
Theorem registry_consistent (H : Host) :
  (∀ file gopath, consistent (newInterpreter file gopath)) ∧
  (∀ fuel rPath P sk st,
     consistent st → consistent (importSrc H fuel rPath P sk st).2) ∧
  (∀ fuel reader sk st,
     consistent st → consistent (importSrcArchive H fuel reader sk st).2) ∧
  (∀ fuel rPath P sk st,
     consistent st → is_Some (srcPkg st !! P) →
     ∃ name, importSrc H (S fuel) rPath P sk st = (Ok name, st)).
Proof.
  split; [|split; [|split]].
  - intros file gopath X [t Ht]. simpl in Ht. by rewrite lookup_empty in Ht.
  - intros fuel rPath P sk. apply importSrc_consistent.
  - intros fuel reader sk. apply importSrcArchive_consistent.
  - intros fuel rPath P sk st HI [t Ht].
    destruct (HI P) as [n Hn]; [by exists t|].
    exists n. by eapply importSrc_hit.
Qed.

Lemma registry_consistent_witness :
  let H := Demo.hostOf Demo.badGlobalsWorld in
  consistent (importSrc H 2 "" "foo" true Demo.fresh).2.
Proof.
  intros H.
  apply (proj1 (proj2 (registry_consistent H)) 2 "" "foo" true Demo.fresh).
  apply (proj1 (registry_consistent H) "" "/go").
Defined.

(** ** What a successful import leaves behind *)

(** [X] is marked and was registered [n] times. *)
Definition counted (X : string) (n : nat) (st : Interpreter) : Prop :=
  marked X st ∧ registrations X (events st) = n.

Lemma counted_event X n e st :
  isRegistration X e = false → counted X n st → counted X n (addEvents [e] st).
Proof.
  intros He [Hm Hn]. split; [done|]. simpl.
  by rewrite registrations_snoc_other.
Qed.

Lemma counted_Stable X n P : Stable (counted X n) P.
Proof.
  constructor; [|done]. intros e st He. apply counted_event.
  by eapply passEvent_not_registration.
Qed.

Lemma counted_KeptAt X n Q : KeptAt (counted X n) Q.
Proof.
  split; [intros; by apply counted_event|]. intros st [Hm _] _ Hvis.
  assert (Q ≠ X) by (intros ->; by eapply marked_not_visiting).
  split; [apply counted_Stable|]. split; constructor; try done.
  - intros n' st'. apply counted_event. simpl. by apply bool_decide_eq_false_2.
  - intros st' [? ?]. split; [|done]. by apply marked_insert.
Qed.

Lemma importSrc_counted H X n fuel rPath P sk :
  preserves (counted X n) (importSrc H fuel rPath P sk).
Proof. apply importSrc_preserves. apply counted_KeptAt. Qed.

Lemma finishImport_counted H X n sk acc st name st' :
  counted X n st →
  finishImport H X sk acc st = (Ok name, st') → counted X (S n) st'.
Proof.
  intros [Hm Hn] Hr.
  apply finishImport_spec in Hr as [[Hno _]|Hreg]; [by destruct (Hno name)|].
  destruct Hreg
    as (st1 & gs & initNodes & post & retries & Hl & Hre & _ & -> & Hpost).
  destruct Hl as (_&_&_&_&_&Hrd&_&Hev).
  assert (Forall (lowering X) (retries ++ (EvCfg X <$> la_rootNodes acc)))
    as Hnew.
  { apply Forall_app. split.
    - eapply Forall_impl; [exact Hre|]. intros e ?. by left.
    - apply Forall_fmap, Forall_forall. intros root _. right. by eexists. }
  set (new := retries ++ (EvCfg X <$> la_rootNodes acc)) in *.
  split; [unfold marked; simpl; by rewrite Hrd|].
  simpl. rewrite Hev, !registrations_app, Hn.
  rewrite (registrations_none X new)
    by (by eapply lowering_not_registration).
  change (EvRegister X (la_pkgName acc) :: EvResizeFrame :: post)
    with ([EvRegister X (la_pkgName acc)] ++ [EvResizeFrame] ++ post).
  rewrite !registrations_app, (registrations_none X post).
  - unfold registrations. rewrite filter_cons.
    destruct (decide _) as [|Hf]; [simpl; lia|].
    destruct Hf. simpl. by rewrite bool_decide_eq_true_2.
  - apply initEvent_not_registration.
    destruct Hpost as [(gv & _ & _ & ->)|(e & [=] & _)].
    apply initialization_initEvent.
Qed.

(** The registration at the end of a loading that nested imports only
    interrupted. *)
Lemma loaded_counted H X n sk acc st0 st name st' :
  counted X n st0 →
  (∀ I, Stable I X → (∀ fuel r Q sk, preserves I (importSrc H fuel r Q sk)) →
        I st0 → I st) →
  finishImport H X sk acc st = (Ok name, st') →
  counted X (S n) st' ∧ ∃ t, registeredAs X t name st'.
Proof.
  intros Hc0 Hload Hr.
  assert (counted X n st) as Hc.
  { apply Hload; [apply counted_Stable| |done].
    intros. apply importSrc_counted. }
  split; [by eapply finishImport_counted|].
  apply finishImport_spec in Hr as [[Hno _]|Hreg]; [by destruct (Hno name)|].
  destruct Hreg
    as (st3 & gs & initNodes & post & retries & _ & _ & _ & -> & Hp).
  destruct Hp as [(gv & [= ->] & _)|(e & [=] & _)].
  exists (sym gs). split; simpl; apply lookup_insert_eq.
Qed.

(** X10. A call of [importSrc] that returns a name leaves the path
    registered under that name. If the path was registered before the call,
    the interpreter is unchanged; if not, the path is marked as visited
    after the call and was registered exactly once during it. *)
Theorem importSrc_success (H : Host) fuel rPath P sk st name st' :
  importSrc H fuel rPath P sk st = (Ok name, st') →
  is_Some (srcPkg st' !! P) ∧ pkgNames st' !! P = Some name ∧
  (is_Some (srcPkg st !! P) → st' = st) ∧
  (srcPkg st !! P = None →
   marked P st' ∧
   registrations P (events st') = S (registrations P (events st))).
Proof.
  intros Hr.
  destruct (importSrc_registers H _ _ _ _ _ _ _ Hr) as (t & Ht & Hn).
  split; [by exists t|]. split; [done|].
  destruct fuel as [|fuel]; [done|]. simpl in Hr.
  apply importSrcBody_cases in Hr as [(t' & Hreg & -> & _)|(Hreg & Hr)].
  { split; [done|]. intros Hno. congruence. }
  split; [intros [? ?]; congruence|]. intros _.
  destruct Hr as [(_ & r1 & _ & Hs)|(dir & rPath' & _ & Hr)];
    [by inversion Hs|].
  destruct Hr as [(_ & [=] & _)|(_ & st1 & Hr & ->)].
  apply directoryRun_cases in Hr
    as [(e & _ & [=] & _)|(files & _ & [(r1 & _ & Hs)|(acc & st2 & Hl & Hr)])];
    [by inversion Hs|].
  eapply (loaded_counted H P (registrations P (events st)) sk acc
            (addEvents [EvReadDir dir] (begun P st))) in Hr as [[Hm Hc] _].
  - done.
  - split; [apply begun_marked|]. simpl. by rewrite registrations_snoc_other.
  - intros I HS HI HI0.
    eapply (preserves_run I); [|exact HI0|exact Hl].
    by apply loadFiles_preserves.
Qed.

Lemma importSrc_success_witness :
  let H := Demo.hostOf Demo.fooWorld in
  let st' := (importSrc H 2 "" "foo" true Demo.fresh).2 in
  pkgNames st' !! "foo" = Some "foo".
Proof.
  intros H st'.
  apply (proj1 (proj2 (importSrc_success H 2 "" "foo" true Demo.fresh "foo"
                         st' ltac:(vm_compute; reflexivity)))).
Defined.

(** X11. [importSrcArchive] does not look at the registry: each call that
    returns a name registers "/" once more, also when "/" was registered
    before, and leaves it registered under the returned name and marked.
    A later [importSrc] of "/" is answered with that name from the
    registry. *)
Theorem importSrcArchive_registers_again (H : Host) fuel reader sk st name
    st' :
  importSrcArchive H fuel reader sk st = (Ok name, st') →
  registrations "/" (events st') = S (registrations "/" (events st)) ∧
  is_Some (srcPkg st' !! "/") ∧ pkgNames st' !! "/" = Some name ∧
  marked "/" st' ∧
  ∀ fuel' rPath sk',
    importSrc H (S fuel') rPath "/" sk' st' = (Ok name, st').
Proof.
  intros Hr.
  apply importSrcArchiveBody_cases in Hr
    as [(_ & r1 & _ & Hs)|(dir & rPath' & st1 & _ & Hr & ->)];
    [by inversion Hs|].
  apply archiveRun_cases in Hr
    as [(e & _ & [=] & _)|(entries & _ & [(r1 & _ & Hs)|(acc & st2 & Hl & Hr)])];
    [by inversion Hs|].
  eapply (loaded_counted H "/" (registrations "/" (events st)) sk acc
            (begun "/" st)) in Hr as [[Hm Hc] (t & Ht & Hn)].
  - split; [done|]. split; [by exists t|]. split; [done|]. split; [done|].
    intros fuel' rPath sk'. by eapply importSrc_hit.
  - split; [apply begun_marked|done].
  - intros I HS HI HI0.
    eapply (preserves_run I); [|exact HI0|exact Hl].
    by apply loadEntries_preserves.
Qed.

Lemma importSrcArchive_registers_again_witness :
  let H := Demo.hostOf archiveWorld in
  let reader :=
    GzipStream [TarFile (TarHeader TypeReg "a.go")
                  (inr "package foo; func A()")] in
  let st1 := (importSrcArchive H 1 reader true Demo.fresh).2 in
  let st2 := (importSrcArchive H 1 reader true st1).2 in
  registrations "/" (events st2) = S (registrations "/" (events st1)).
Proof.
  intros H reader st1 st2.
  apply (proj1 (importSrcArchive_registers_again H 1 reader true st1 "foo"
                  st2 ltac:(vm_compute; reflexivity))).
Defined.

(** ** The marker of an archive *)

(** X12. [importSrcArchive] marks "/" as visited as soon as the directory
    is found, without a look at the marker, and the marker stays however
    the call ends, also when the stream is not a gzip stream. If "/" is
    not registered then, every later [importSrc] of "/" that resolves
    reports an import cycle. *)
Theorem importSrcArchive_marks (H : Host) fuel reader sk st d :
  (resolve H "." "/" st).1 = Ok d →
  let st' := (importSrcArchive H fuel reader sk st).2 in
  marked "/" st' ∧
  (srcPkg st' !! "/" = None →
   ∀ fuel' rPath sk' d',
     (resolve H rPath "/" st').1 = Ok d' →
     importSrc H (S fuel') rPath "/" sk' st' =
     (Fail (ErrImportCycle "/"), addEvents [EvCycle "/" (importing st')] st')).
Proof.
  intros Hres st'.
  assert (marked "/" st') as Hm.
  { subst st'.
    destruct (importSrcArchive H fuel reader sk st) as [r st1] eqn:Hr.
    apply importSrcArchiveBody_cases in Hr
      as [(_ & r1 & Hres' & Hs)|(dir & rPath' & st2 & _ & Hr & ->)].
    { rewrite Hres' in Hres. simpl in Hres. subst r1. inversion Hs. }
    cut (marked "/" st2); [done|].
    eapply (preserves_run (marked "/") _ (begun "/" st));
      [|apply begun_marked|exact Hr].
    apply archive_preserves.
    - by constructor.
    - intros. apply importSrc_marked.
    - by constructor. }
  split; [done|]. intros Hreg fuel' rPath sk' d' Hres'.
  by eapply importSrc_revisit.
Qed.

Lemma importSrcArchive_marks_witness :
  let H := Demo.hostOf archiveWorld in
  marked "/"
    (importSrcArchive H 1 (GzipBad (ErrOther "gzip: invalid header")) true
       Demo.fresh).2.
Proof.
  intros H.
  apply (importSrcArchive_marks H 1 (GzipBad (ErrOther "gzip: invalid header"))
           true Demo.fresh ("/go/src", ".")).
  vm_compute. reflexivity.
Defined.

(** ** Entries of an archive that are passed over *)

(** The entries of an archive that the loop of [importSrcArchive] does not
    pass over: the regular files that [skipFile] accepts, and the failures
    of [tarReader.Next()]. *)
Definition loads (H : Host) (skipTest : bool) (entry : tarEntry) : bool :=
  match entry with
  | TarBad _ => true
  | TarFile header _ =>
      match Typeflag header with
      | TypeReg => negb (skipFile H (Name header) skipTest)
      | _ => false
      end
  end.

Lemma loadEntry_passed H importer dir rPath P sk acc entry :
  loads H sk entry = false →
  loadEntry H importer dir rPath P sk acc entry = mret acc.
Proof.
  destruct entry as [[[] name] body|err]; simpl; try done.
  by destruct (skipFile H name sk).
Qed.

Lemma loadEntries_filter H importer dir rPath P sk entries acc st :
  foldM (loadEntry H importer dir rPath P sk)
    (filter (λ e, loads H sk e = true) entries) acc st =
  foldM (loadEntry H importer dir rPath P sk) entries acc st.
Proof.
  revert acc st.
  induction entries as [|entry entries IH]; intros acc st; [done|].
  rewrite filter_cons. destruct (decide _) as [|Hno].
  - cbn [foldM]. rewrite !bind_unfold.
    by destruct (loadEntry _ _ _ _ _ _ _ _ _) as [[acc1|err| |] st1].
  - cbn [foldM]. rewrite loadEntry_passed by by destruct (loads H sk entry).
    apply IH.
Qed.

(** X13. The loop of [importSrcArchive] passes over every entry that is not
    a regular file (directories, links, ...) and over the regular files
    that [skipFile] rejects, without reading their content: an archive and
    the archive without these entries are imported alike, with the same
    result and the same final state. *)
Theorem importSrcArchive_passes_over (H : Host) fuel entries sk st :
  importSrcArchive H fuel (GzipStream entries) sk st =
  importSrcArchive H fuel
    (GzipStream (filter (λ e, loads H sk e = true) entries)) sk st.
Proof.
  unfold importSrcArchive, importSrcArchiveBody. rewrite !bind_unfold.
  destruct (resolve H "." "/" st) as [[[dir rPath]|e| |] st1]; try done.
  rewrite !bind_modify. unfold finally. rewrite !bind_unfold.
  by rewrite loadEntries_filter.
Qed.

(** ** A directory without sources *)

Lemma loadFiles_skipped H importer dir rPath P sk files acc st :
  (∀ f, f ∈ files → skipFile H f sk = true) →
  foldM (loadFile H importer dir rPath P sk) files acc st = (Ok acc, st).
Proof.
  induction files as [|f files IH]; intros Hskip; [done|].
  cbn [foldM]. rewrite bind_unfold. unfold loadFile at 1.
  rewrite (Hskip f) by left.
  apply IH. intros f' Hf'. apply Hskip. by right.
Qed.

Lemma bind_ret {A B} (a : A) (k : A → M B) st : (mret a ≫= k) st = k a st.
Proof. reflexivity. Qed.

(** [finishImport] when no file was loaded: nothing to retry and nothing to
    lower. *)
Lemma finishImport_empty H P sk st :
  finishImport H P sk (LoadAcc "" [] ∅) st =
  match scopes st !! P with
  | None => (Panic, st)
  | Some gs =>
      match genGlobalVars H [] gs with
      | inl e => (Fail e, registeredState P "" gs [] st)
      | inr gv => (Ok "", registeredState P "" gs [EvRun gv NilFrame] st)
      end
  end.
Proof.
  unfold finishImport. cbn [la_revisit la_rootNodes la_pkgName].
  rewrite map_to_list_empty. cbn [foldM]. rewrite !bind_ret.
  unfold packageScope. rewrite bind_unfold, bind_gets.
  destruct (scopes st !! P) as [gs|]; [|done]. cbn [mret M_ret].
  rewrite !bind_modify, !bind_emit, !addEvents_app, bind_ret, bind_unfold.
  destruct (genGlobalVars H [] gs) as [e|gv]; cbn [orFail fail mret M_ret];
    [done|].
  change (run gv NilFrame) with (emit (EvRun gv NilFrame)).
  rewrite bind_emit, addEvents_app.
  by destruct (sym gs !! mainID).
Qed.

Lemma importSrc_all_skipped H fuel rPath P sk st dir rPath' files :
  srcPkg st !! P = None →
  default false (rdir st !! P) = false →
  (resolve H rPath P st).1 = Ok (dir, rPath') →
  readDir H dir = inr files →
  (∀ f, f ∈ files → skipFile H f sk = true) →
  importSrc H (S fuel) rPath P sk st =
  let '(r, st1) :=
    finishImport H P sk (LoadAcc "" [] ∅)
      (addEvents [EvReadDir dir] (begun P st)) in
  (r, ended st1).
Proof.
  intros Hreg Hvis Hres%resolve_run Hdir Hskip.
  cbn [importSrc]. unfold importSrcBody.
  rewrite bind_gets, Hreg, bind_unfold, Hres, !bind_gets, Hvis.
  rewrite !bind_modify. unfold finally.
  rewrite bind_emit, bind_unfold, Hdir. cbn [orFail mret M_ret].
  rewrite bind_unfold, loadFiles_skipped by done. done.
Qed.

(** X14. The import of a directory in which [skipFile] rejects every entry
    (an empty directory among them) reads and parses nothing. It
    dereferences the scope of the path all the same: when the path has no
    scope, the call panics; when it has one, the path is registered under
    the empty package name, and the call returns the empty name unless
    [genGlobalVars] fails. *)
Theorem importSrc_no_sources (H : Host) fuel rPath P sk st dir rPath' files :
  srcPkg st !! P = None →
  default false (rdir st !! P) = false →
  (resolve H rPath P st).1 = Ok (dir, rPath') →
  readDir H dir = inr files →
  (∀ f, f ∈ files → skipFile H f sk = true) →
  let r := importSrc H (S fuel) rPath P sk st in
  (scopes st !! P = None →
   r.1 = Panic ∧ events r.2 = events st ++ [EvReadDir dir] ∧
   srcPkg r.2 !! P = None) ∧
  (∀ gs, scopes st !! P = Some gs →
         r.1 = match genGlobalVars H [] gs with
               | inl e => Fail e
               | inr gv => Ok ""
               end ∧
         events r.2 =
           events st ++ [EvReadDir dir; EvRegister P ""; EvResizeFrame] ++
           match genGlobalVars H [] gs with
           | inl e => []
           | inr gv => [EvRun gv NilFrame]
           end ∧
         srcPkg r.2 !! P = Some (sym gs) ∧ pkgNames r.2 !! P = Some "").
Proof.
  intros Hreg Hvis Hres Hdir Hskip r. subst r.
  erewrite importSrc_all_skipped by done.
  rewrite finishImport_empty.
  change (scopes (addEvents [EvReadDir dir] (begun P st)) !! P)
    with (scopes st !! P).
  split.
  - intros ->. by cbn.
  - intros gs ->.
    destruct (genGlobalVars H [] gs) as [e|gv]; cbn;
      rewrite !lookup_insert_eq, <- ?app_assoc; done.
Qed.

(** A directory with a text file only. *)
Definition docWorld : Demo.world := {|
  Demo.w_dirs := [("/go/src/doc", ["README"])];
  Demo.w_files := [("/go/src/doc/README", "read me")];
  Demo.w_parse := [];
  Demo.w_imports := [];
  Demo.w_decls := [];
  Demo.w_inits := [];
  Demo.w_genRun := [];
  Demo.w_globals := inr (Node 0)
|}.

Lemma importSrc_no_sources_witness :
  (importSrc (Demo.hostOf docWorld) 1 "" "doc" true Demo.fresh).1 = Panic.
Proof.
  apply (proj1 (importSrc_no_sources (Demo.hostOf docWorld) 0 "" "doc" true
                  Demo.fresh "/go/src/doc" "" ["README"]
                  ltac:(reflexivity) ltac:(reflexivity)
                  ltac:(vm_compute; reflexivity) ltac:(reflexivity)
                  ltac:(intros f ->%list_elem_of_singleton; reflexivity))).
  reflexivity.
Defined.

(** ** The files of a package and its name *)

(** The files handed to the parser in the events [l]. *)
Definition parsedFiles (l : list event) : list string :=
  omap (λ e, match e with EvAst _ name _ => Some name | _ => None end) l.

(** [if pkgName == "" { pkgName = pname }], for a file that parsed to a root
    node and is not in conflict. *)
Definition pickName (pkgName pname : string) : string :=
  if decide (pkgName = "") then pname else pkgName.

(** The first name of [l] that is not empty. *)
Definition firstName (l : list string) : string :=
  default "" (head (filter (λ n, n ≠ "") l)).

(** The name of a regular file of an archive that [skipFile] accepts. *)
Definition entrySource (H : Host) (skipTest : bool) (entry : tarEntry)
  : option string :=
  match entry with
  | TarFile header _ =>
      match Typeflag header with
      | TypeReg =>
          if skipFile H (Name header) skipTest then None
          else Some (Name header)
      | _ => None
      end
  | TarBad _ => None
  end.

(** What the loading of sources has done, in the events [tr] of the package,
    when it goes on: the files [fs] were parsed, and [pkgName] went from the
    one of [acc] to the one of [acc']. *)
Definition loadedFiles (acc acc' : loadAcc) (fs : list string)
    (tr : list event) : Prop :=
  parsedFiles tr = fs ∧
  la_pkgName acc' = foldl pickName (la_pkgName acc) (parsedNames tr).

(** What a step of the loading has done when it was to parse the files
    [fs]: all of it, or the first part when it stopped. *)
Definition loadStep (r : outcome loadAcc) (acc : loadAcc) (fs : list string)
    (tr : list event) : Prop :=
  match r with
  | Ok acc' => loadedFiles acc acc' fs tr
  | _ => parsedFiles tr `prefix_of` fs
  end.

Lemma parsedFiles_app l1 l2 :
  parsedFiles (l1 ++ l2) = parsedFiles l1 ++ parsedFiles l2.
Proof. apply omap_app. Qed.

Lemma parsedNames_app l1 l2 :
  parsedNames (l1 ++ l2) = parsedNames l1 ++ parsedNames l2.
Proof. apply omap_app. Qed.

Lemma parsedFiles_eventsOf_notAst P l :
  Forall notAst l → parsedFiles (eventsOf P l) = [].
Proof.
  induction 1 as [|e l He _ IH]; [done|].
  unfold eventsOf. rewrite filter_cons.
  destruct (decide _); [|done]. by destruct e.
Qed.

Lemma loadedFiles_app acc1 acc2 acc3 fs1 fs2 tr1 tr2 :
  loadedFiles acc1 acc2 fs1 tr1 → loadedFiles acc2 acc3 fs2 tr2 →
  loadedFiles acc1 acc3 (fs1 ++ fs2) (tr1 ++ tr2).
Proof.
  intros [<- Hn1] [<- Hn2]. split; [apply parsedFiles_app|].
  by rewrite parsedNames_app, foldl_app, <- Hn1.
Qed.

Lemma loadStep_app acc1 acc2 fs1 fs2 tr1 tr2 r :
  loadedFiles acc1 acc2 fs1 tr1 → loadStep r acc2 fs2 tr2 →
  loadStep r acc1 (fs1 ++ fs2) (tr1 ++ tr2).
Proof.
  intros Hl1 Hl2.
  assert (parsedFiles tr2 `prefix_of` fs2 →
          parsedFiles (tr1 ++ tr2) `prefix_of` fs1 ++ fs2) as Hpre.
  { destruct Hl1 as [<- _]. rewrite parsedFiles_app. apply prefix_app. }
  destruct r; simpl in *; [by eapply loadedFiles_app|by apply Hpre..].
Qed.

Lemma loadStep_stops (r1 r : outcome loadAcc) acc fs fs' tr :
  stops r1 r → loadStep r1 acc fs tr → loadStep r acc (fs ++ fs') tr.
Proof. intros Hs Hl. destruct Hs; simpl in *; by apply prefix_app_r. Qed.

Section Tracking.

Context (H : Host) (importer : string → string → bool → M string).
Context (Hquiet : ∀ X tr r Q sk, preserves (quiet X tr) (importer r Q sk)).

Lemma loadSource_files dir rPath P sk name buf acc trq st r st' :
  quiet P trq st →
  loadSource H importer dir rPath P sk name buf acc st = (r, st') →
  ∃ tr, quiet P (trq ++ tr) st' ∧ loadStep r acc [name] tr.
Proof.
  intros Hq. unfold loadSource. rewrite bind_emit, bind_unfold.
  set (res := parse H buf name).
  assert (quiet P (trq ++ [EvAst P name res]) (addEvents [EvAst P name res] st))
    as Hq1 by (by apply quiet_own).
  destruct res as [e|[pname [root|]]] eqn:Hres; simpl.
  { intros [= <- <-]. exists [EvAst P name (inl e)]. split; [done|].
    simpl. reflexivity. }
  2:{ intros [= <- <-]. by exists [EvAst P name (inr (pname, None))]. }
  rewrite bind_gets, bind_unfold, astDot_step.
  set (st1 := if astDot _ then _ else _).
  assert (quiet P (trq ++ [EvAst P name (inr (pname, Some root))]) st1) as Hq2.
  { subst st1. destruct (astDot _); [by apply quiet_other|done]. }
  clearbody st1. rewrite bind_unfold.
  assert (∀ pkgName,
            pkgName = pickName (la_pkgName acc) pname →
            (list ← gta H importer root (effectivePkg rPath P) P;
             mret (LoadAcc pkgName (la_rootNodes acc ++ [root])
                     (<[effectivePkg rPath P :=
                          default [] (la_revisit acc !! effectivePkg rPath P)
                          ++ list]> (la_revisit acc)))) st1 = (r, st') →
            ∃ tr, quiet P (trq ++ tr) st' ∧ loadStep r acc [name] tr)
    as Hgta.
  { intros pkgName Hpk Hr.
    exists [EvAst P name (inr (pname, Some root)); EvGta P root].
    apply bind_inv in Hr as [(list & st2 & Hg & Hr)|(r1 & Hg & Hs)].
    - inversion Hr; subst; clear Hr.
      eapply gta_quiet in Hg; [|exact Hquiet|exact Hq2].
      rewrite <- app_assoc in Hg. by split.
    - eapply gta_quiet in Hg; [|exact Hquiet|exact Hq2].
      rewrite <- app_assoc in Hg. split; [done|].
      destruct Hs; simpl; reflexivity. }
  destruct (decide (la_pkgName acc = "")) as [Hempty|Hne]; simpl.
  { apply Hgta. unfold pickName. by rewrite decide_True. }
  destruct (bool_decide (la_pkgName acc ≠ pname) && sk); simpl.
  { intros [= <- <-]. exists [EvAst P name (inr (pname, Some root))].
    split; [done|]. simpl. reflexivity. }
  apply Hgta. unfold pickName. by rewrite decide_False.
Qed.

Lemma loadFile_files dir rPath P sk acc file trq st r st' :
  quiet P trq st →
  loadFile H importer dir rPath P sk acc file st = (r, st') →
  ∃ tr, quiet P (trq ++ tr) st' ∧
        loadStep r acc
          (if skipFile H file sk then [] else [Join [dir; file]]) tr.
Proof.
  intros Hq. unfold loadFile. destruct (skipFile H file sk).
  { intros [= <- <-]. exists []. by rewrite app_nil_r. }
  rewrite bind_emit, bind_unfold.
  assert (quiet P trq (addEvents [EvReadFile (Join [dir; file])] st)) as Hq1
    by (by apply quiet_other).
  destruct (readFile H (Join [dir; file])) as [e|buf]; simpl.
  { intros [= <- <-]. exists []. rewrite app_nil_r. split; [done|].
    apply prefix_nil. }
  by apply loadSource_files.
Qed.

Lemma loadEntry_files dir rPath P sk acc entry trq st r st' :
  quiet P trq st →
  loadEntry H importer dir rPath P sk acc entry st = (r, st') →
  ∃ tr, quiet P (trq ++ tr) st' ∧
        loadStep r acc
          (match entrySource H sk entry with
           | Some name => [Join [dir; name]]
           | None => []
           end) tr.
Proof.
  intros Hq. unfold loadEntry, entrySource.
  destruct entry as [header body|err].
  2:{ intros [= <- <-]. exists []. rewrite app_nil_r. split; [done|].
      apply prefix_nil. }
  destruct (Typeflag header);
    try (intros [= <- <-]; exists []; by rewrite app_nil_r).
  destruct (skipFile H (Name header) sk).
  { intros [= <- <-]. exists []. by rewrite app_nil_r. }
  rewrite bind_unfold. destruct body as [e|buf]; simpl.
  { intros [= <- <-]. exists []. rewrite app_nil_r. split; [done|].
    apply prefix_nil. }
  by apply loadSource_files.
Qed.

End Tracking.

(** A loop over the sources, by [loadFile] or by [loadEntry]. *)
Lemma loadLoop_files {A} (body : loadAcc → A → M loadAcc) P
    (files : A → list string) :
  (∀ acc x trq st r st',
     quiet P trq st → body acc x st = (r, st') →
     ∃ tr, quiet P (trq ++ tr) st' ∧ loadStep r acc (files x) tr) →
  ∀ l acc trq st r st',
    quiet P trq st → foldM body l acc st = (r, st') →
    ∃ tr, quiet P (trq ++ tr) st' ∧
          loadStep r acc (concat (files <$> l)) tr.
Proof.
  intros Hbody l. induction l as [|x l IH]; intros acc trq st r st' Hq.
  { simpl. intros [= <- <-]. exists []. by rewrite app_nil_r. }
  simpl. intros Hr.
  apply bind_inv in Hr as [(acc1 & st1 & Hx & Hr)|(r1 & Hx & Hs)].
  - destruct (Hbody _ _ _ _ _ _ Hq Hx) as (tr1 & Hq1 & Hl1).
    destruct (IH _ _ _ _ _ Hq1 Hr) as (tr2 & Hq2 & Hl2).
    exists (tr1 ++ tr2). rewrite app_assoc. split; [done|].
    by eapply loadStep_app.
  - destruct (Hbody _ _ _ _ _ _ Hq Hx) as (tr1 & Hq1 & Hl1).
    exists tr1. split; [done|]. by eapply loadStep_stops.
Qed.

Lemma concat_accepted {A B} (ok : A → bool) (f : A → B) (l : list A) :
  concat ((λ x, if ok x then [] else [f x]) <$> l) =
  f <$> filter (λ x, ok x = false) l.
Proof.
  induction l as [|x l IH]; [done|].
  rewrite fmap_cons, filter_cons. cbn [concat]. rewrite IH.
  destruct (ok x); by destruct (decide _).
Qed.

Lemma concat_omap {A B C} (g : A → option B) (f : B → C) (l : list A) :
  concat ((λ x, match g x with Some b => [f b] | None => [] end) <$> l) =
  f <$> omap g l.
Proof.
  induction l as [|x l IH]; [done|].
  rewrite fmap_cons. cbn [concat omap list_omap]. rewrite IH.
  by destruct (g x).
Qed.

Lemma foldl_pickName cur l :
  foldl pickName cur l = if decide (cur = "") then firstName l else cur.
Proof.
  revert cur. induction l as [|n l IH]; intros cur; simpl.
  { by destruct (decide _). }
  rewrite IH. unfold pickName, firstName. rewrite filter_cons.
  destruct (decide (cur = "")) as [->|]; [|by rewrite decide_False].
  destruct (decide (n = "")) as [->|]; [by rewrite decide_False by auto|].
  by rewrite decide_True.
Qed.

(** The files of [P] that were parsed, in the events [new] of an import of
    [P] that was to parse the files [fs]: the first part of [fs], and all
    of [fs] when the import returns a name, which is then the first name
    that is not empty. *)
Definition parsedOf (P : string) (new : list event) (fs : list string)
    (r : outcome string) : Prop :=
  parsedFiles (eventsOf P new) `prefix_of` fs ∧
  ∀ name, r = Ok name →
          parsedFiles (eventsOf P new) = fs ∧
          name = firstName (parsedNames (eventsOf P new)).

(** The end of an import of [P] whose loading did the events [trL] of [P]
    and stopped with [r1], or was followed by [finishImport]. *)
Lemma loaded_parsedOf H P sk fs trL st0 st1 r1 r st' new :
  quiet P (eventsOf P (events st0) ++ trL) st1 →
  loadStep r1 (LoadAcc "" [] ∅) fs trL →
  (stops r1 r ∧ st' = st1 ∨
   ∃ acc, r1 = Ok acc ∧ finishImport H P sk acc st1 = (r, st')) →
  events st' = events st0 ++ new →
  parsedOf P new fs r.
Proof.
  intros [_ Hq] Hstep Hend Hnew. unfold parsedOf.
  destruct Hend as [[Hs ->]|(acc & -> & Hr)].
  - assert (eventsOf P new = trL) as ->.
    { apply (app_inv_head (eventsOf P (events st0))).
      by rewrite <- eventsOf_app, <- Hnew. }
    split; [by destruct Hs|]. intros name ->. inversion Hs.
  - assert (∀ name, r = Ok name → name = la_pkgName acc) as Hname.
    { intros name ->.
      apply finishImport_spec in Hr as [[Hno _]|Hreg'];
        [by destruct (Hno name)|].
      destruct Hreg' as (? & ? & ? & ? & ? & _ & _ & _ & _ & Hp).
      by destruct Hp as [(gv & [= ->] & _)|(e & [=] & _)]. }
    apply finishImport_notAst in Hr as (more & Hev & Hmore).
    assert (eventsOf P new = trL ++ eventsOf P more) as ->.
    { apply (app_inv_head (eventsOf P (events st0))).
      by rewrite <- eventsOf_app, <- Hnew, Hev, eventsOf_app, Hq, app_assoc. }
    rewrite parsedFiles_app, parsedNames_app.
    rewrite parsedFiles_eventsOf_notAst, parsedNames_eventsOf_notAst by done.
    rewrite !app_nil_r. destruct Hstep as [Hfs Hacc].
    split; [by rewrite Hfs|]. intros name Hok. split; [done|].
    by rewrite (Hname name Hok), Hacc, foldl_pickName.
Qed.

Lemma nothing_parsedOf P fs (r : outcome string) :
  (∀ name, r ≠ Ok name) → parsedOf P [] fs r.
Proof.
  intros Hno. split; [apply prefix_nil|]. intros name ->. by destruct (Hno name).
Qed.

Lemma importSrc_loaded H fuel rPath P sk st r st' new dir rPath' files :
  importSrc H fuel rPath P sk st = (r, st') →
  srcPkg st !! P = None →
  events st' = events st ++ new →
  (resolve H rPath P st).1 = Ok (dir, rPath') →
  readDir H dir = inr files →
  parsedOf P new
    ((λ f, Join [dir; f]) <$> filter (λ f, skipFile H f sk = false) files) r.
Proof.
  intros Hr Hreg Hnew Hres Hdir.
  assert (∀ st1, events st1 = events st1 ++ new → new = []) as Hnil.
  { intros st1 Hst1. apply (app_inv_head (events st1)). by rewrite app_nil_r. }
  destruct fuel as [|fuel]; simpl in Hr.
  { inversion Hr; subst. rewrite (Hnil _ Hnew). by apply nothing_parsedOf. }
  apply importSrcBody_cases in Hr as [(t & ? & _)|(_ & Hr)]; [congruence|].
  destruct Hr as [(_ & r1 & Hres' & Hs)|(dir' & rPath'' & Hres' & Hr)].
  { rewrite Hres' in Hres. simpl in Hres. subst r1. inversion Hs. }
  rewrite Hres' in Hres. simpl in Hres. injection Hres as -> ->.
  destruct Hr as [(_ & -> & ->)|(_ & st1 & Hr & ->)].
  { simpl in Hnew. apply app_inv_head in Hnew as <-.
    split; [apply prefix_nil|]. by intros name. }
  assert (quiet P (eventsOf P (events st))
            (addEvents [EvReadDir dir] (begun P st))) as Hq0.
  { split; [apply begun_marked|]. simpl. by rewrite eventsOf_snoc_other. }
  apply directoryRun_cases in Hr
    as [(e & Hdir' & _)|(files' & Hdir' & Hr)]; [congruence|].
  rewrite Hdir in Hdir'. injection Hdir' as <-.
  assert (∃ r1 st2,
            foldM (loadFile H (importSrc H fuel) dir rPath' P sk) files
              (LoadAcc "" [] ∅) (addEvents [EvReadDir dir] (begun P st)) =
            (r1, st2) ∧
            (stops r1 r ∧ st1 = st2 ∨
             ∃ acc, r1 = Ok acc ∧ finishImport H P sk acc st2 = (r, st1)))
    as (r1 & st2 & Hl & Hend).
  { destruct Hr as [(r1 & Hl & Hs)|(acc & st2 & Hl & Hr)]; eauto 10. }
  destruct (loadLoop_files (loadFile H (importSrc H fuel) dir rPath' P sk) P
              (λ f, if skipFile H f sk then [] else [Join [dir; f]])
              (λ acc0 x trq s r0 s' Hq Hx,
                 loadFile_files H _
                   (λ X tr r Q sk', importSrc_quiet H X tr fuel r Q sk')
                   dir rPath' P sk acc0 x trq s r0 s' Hq Hx)
              _ _ _ _ _ _ Hq0 Hl) as (trL & Hq & Hfiles).
  rewrite (concat_accepted (λ f, skipFile H f sk) (λ f, Join [dir; f]))
    in Hfiles.
  eapply (loaded_parsedOf H _ sk _ trL st st2 r1 r st1);
    [exact Hq|exact Hfiles| |exact Hnew].
  destruct Hend as [[Hs ->]|Hend]; [by left|by right].
Qed.

Lemma importSrcArchive_loaded H fuel entries sk st r st' new dir rPath' :
  importSrcArchive H fuel (GzipStream entries) sk st = (r, st') →
  events st' = events st ++ new →
  (resolve H "." "/" st).1 = Ok (dir, rPath') →
  parsedOf "/" new
    ((λ n, Join [dir; n]) <$> omap (entrySource H sk) entries) r.
Proof.
  intros Hr Hnew Hres.
  apply importSrcArchiveBody_cases in Hr
    as [(_ & r1 & Hres' & Hs)|(dir' & rPath'' & st1 & Hres' & Hr & ->)].
  { rewrite Hres' in Hres. simpl in Hres. subst r1. inversion Hs. }
  rewrite Hres' in Hres. simpl in Hres. injection Hres as -> ->.
  assert (quiet "/" (eventsOf "/" (events st)) (begun "/" st)) as Hq0.
  { split; [apply begun_marked|done]. }
  apply archiveRun_cases in Hr
    as [(e & [=] & _)|(entries' & [= <-] & Hr)].
  assert (∃ r1 st2,
            foldM (loadEntry H (importSrc H fuel) dir rPath' "/" sk) entries
              (LoadAcc "" [] ∅) (begun "/" st) = (r1, st2) ∧
            (stops r1 r ∧ st1 = st2 ∨
             ∃ acc, r1 = Ok acc ∧ finishImport H "/" sk acc st2 = (r, st1)))
    as (r1 & st2 & Hl & Hend).
  { destruct Hr as [(r1 & Hl & Hs)|(acc & st2 & Hl & Hr)]; eauto 10. }
  destruct (loadLoop_files (loadEntry H (importSrc H fuel) dir rPath' "/" sk)
              "/"
              (λ entry, match entrySource H sk entry with
                        | Some n => [Join [dir; n]]
                        | None => []
                        end)
              (λ acc0 x trq s r0 s' Hq Hx,
                 loadEntry_files H _
                   (λ X tr r Q sk', importSrc_quiet H X tr fuel r Q sk')
                   dir rPath' "/" sk acc0 x trq s r0 s' Hq Hx)
              _ _ _ _ _ _ Hq0 Hl) as (trL & Hq & Hfiles).
  rewrite (concat_omap (entrySource H sk) (λ n, Join [dir; n])) in Hfiles.
  eapply (loaded_parsedOf H _ sk _ trL st st2 r1 r st1);
    [exact Hq|exact Hfiles| |exact Hnew].
  destruct Hend as [[Hs ->]|Hend]; [by left|by right].
Qed.

(** X15. In an import of an unregistered path [P], the files handed to the
    parser for [P] are the entries of the directory that [skipFile]
    accepts, each under its name joined to the directory, in the order of
    [ioutil.ReadDir], each once: all of them when the import returns a
    name, and the first ones when it stops. For an archive they are the
    regular files that [skipFile] accepts, in the order of the archive. No
    rejected file is parsed. *)
Theorem parsed_files_in_order (H : Host) :
  (∀ fuel rPath P sk st r st' new dir rPath' files,
     importSrc H fuel rPath P sk st = (r, st') →
     srcPkg st !! P = None →
     events st' = events st ++ new →
     (resolve H rPath P st).1 = Ok (dir, rPath') →
     readDir H dir = inr files →
     let accepted :=
       (λ f, Join [dir; f]) <$> filter (λ f, skipFile H f sk = false) files in
     parsedFiles (eventsOf P new) `prefix_of` accepted ∧
     (∀ name, r = Ok name → parsedFiles (eventsOf P new) = accepted)) ∧
  (∀ fuel entries sk st r st' new dir rPath',
     importSrcArchive H fuel (GzipStream entries) sk st = (r, st') →
     events st' = events st ++ new →
     (resolve H "." "/" st).1 = Ok (dir, rPath') →
     let accepted :=
       (λ n, Join [dir; n]) <$> omap (entrySource H sk) entries in
     parsedFiles (eventsOf "/" new) `prefix_of` accepted ∧
     (∀ name, r = Ok name → parsedFiles (eventsOf "/" new) = accepted)).
Proof.
  split.
  - intros fuel rPath P sk st r st' new dir rPath' files Hr Hreg Hnew Hres
      Hdir accepted.
    destruct (importSrc_loaded _ _ _ _ _ _ _ _ _ _ _ _ Hr Hreg Hnew Hres Hdir)
      as [Hpre Hok].
    split; [done|]. intros name Hname. by destruct (Hok name Hname).
  - intros fuel entries sk st r st' new dir rPath' Hr Hnew Hres accepted.
    destruct (importSrcArchive_loaded _ _ _ _ _ _ _ _ _ _ Hr Hnew Hres)
      as [Hpre Hok].
    split; [done|]. intros name Hname. by destruct (Hok name Hname).
Qed.

Lemma parsed_files_in_order_witness :
  let H := Demo.hostOf Demo.fooWorld in
  let st' := (importSrc H 2 "" "foo" true Demo.fresh).2 in
  parsedFiles (eventsOf "foo" (events st')) =
  ["/go/src/foo/a.go"; "/go/src/foo/b.go"].
Proof.
  intros H st'.
  apply (proj2 (proj1 (parsed_files_in_order H) 2 "" "foo" true Demo.fresh
                  (Ok "foo") st' (events st') "/go/src/foo" ""
                  ["a.go"; "b.go"; "README"]
                  ltac:(vm_compute; reflexivity) ltac:(reflexivity)
                  ltac:(vm_compute; reflexivity)
                  ltac:(vm_compute; reflexivity) ltac:(reflexivity))
           "foo").
  reflexivity.
Defined.

(** X16. The name that an import returns, and under which it registers the
    package, is the package name of the first file of the package that
    parsed to a root node with a name that is not empty (the empty name
    when there is none). With [skipTest] unset the files that follow may
    name other packages: they are loaded, and the name stays. *)
Theorem package_name_first (H : Host) :
  (∀ fuel rPath P sk st name st' new,
     importSrc H fuel rPath P sk st = (Ok name, st') →
     srcPkg st !! P = None →
     events st' = events st ++ new →
     name = firstName (parsedNames (eventsOf P new))) ∧
  (∀ fuel entries sk st name st' new,
     importSrcArchive H fuel (GzipStream entries) sk st = (Ok name, st') →
     events st' = events st ++ new →
     name = firstName (parsedNames (eventsOf "/" new))).
Proof.
  split.
  - intros fuel rPath P sk st name st' new Hr Hreg Hnew.
    assert (∃ dir rPath' files,
              (resolve H rPath P st).1 = Ok (dir, rPath') ∧
              readDir H dir = inr files) as (dir & rPath' & files & Hres & Hdir).
    { destruct fuel as [|fuel]; [done|]. simpl in Hr.
      apply importSrcBody_cases in Hr as [(t & ? & _)|(_ & Hr)]; [congruence|].
      destruct Hr as [(_ & r1 & _ & Hs)|(dir & rPath' & Hres & Hr)];
        [by inversion Hs|].
      destruct Hr as [(_ & [=] & _)|(_ & st1 & Hr & _)].
      apply directoryRun_cases in Hr
        as [(e & _ & [=] & _)|(files & Hdir & _)].
      exists dir, rPath', files. by rewrite Hres. }
    destruct (importSrc_loaded _ _ _ _ _ _ _ _ _ _ _ _ Hr Hreg Hnew Hres Hdir)
      as [_ Hok].
    by destruct (Hok name eq_refl).
  - intros fuel entries sk st name st' new Hr Hnew.
    assert (∃ dir rPath', (resolve H "." "/" st).1 = Ok (dir, rPath'))
      as (dir & rPath' & Hres).
    { apply importSrcArchiveBody_cases in Hr
        as [(_ & r1 & _ & Hs)|(dir & rPath' & st1 & Hres & _)];
        [by inversion Hs|].
      exists dir, rPath'. by rewrite Hres. }
    destruct (importSrcArchive_loaded _ _ _ _ _ _ _ _ _ _ Hr Hnew Hres)
      as [_ Hok].
    by destruct (Hok name eq_refl).
Qed.

Lemma package_name_first_witness :
  let H := Demo.hostOf Demo.mixedWorld in
  let st' := (importSrc H 2 "" "mix" false Demo.fresh).2 in
  "foo" = firstName (parsedNames (eventsOf "mix" (events st'))).
Proof.
  intros H st'.
  apply (proj1 (package_name_first H) 2 "" "mix" false Demo.fresh "foo" st'
           (events st')).
  - vm_compute. reflexivity.
  - vm_compute. reflexivity.
  - vm_compute. reflexivity.
Defined.

(** ** One retry for each import *)

(** [e] is a call of [gtaRetry] on the package [P]. *)
Definition isRetry (P : string) (e : event) : bool :=
  match e with
  | EvGtaRetry p _ => bool_decide (p = P)
  | _ => false
  end.

(** The number of calls of [gtaRetry] on [P] in the events [l]. *)
Definition retryCount (P : string) (l : list event) : nat :=
  length (filter (λ e, isRetry P e = true) l).

Lemma retryCount_app P l1 l2 :
  retryCount P (l1 ++ l2) = retryCount P l1 + retryCount P l2.
Proof. unfold retryCount. by rewrite filter_app, length_app. Qed.

Lemma retryCount_snoc_other P l e :
  isRetry P e = false → retryCount P (l ++ [e]) = retryCount P l.
Proof.
  intros He. rewrite retryCount_app. unfold retryCount at 2.
  rewrite filter_cons, decide_False by congruence. simpl. lia.
Qed.

Lemma retryCount_le P l : retryCount P l ≤ length l.
Proof. apply length_filter. Qed.

Lemma retryCount_none P l :
  Forall (λ e, isRetry P e = false) l → retryCount P l = 0.
Proof.
  induction 1 as [|e l He _ IH]; [done|].
  unfold retryCount in *. rewrite filter_cons, decide_False by congruence.
  done.
Qed.

(** [P] is marked and [gtaRetry] was called [n] times on it. *)
Definition retried (P : string) (n : nat) (st : Interpreter) : Prop :=
  marked P st ∧ retryCount P (events st) = n.

Lemma retried_event P n e st :
  isRetry P e = false → retried P n st → retried P n (addEvents [e] st).
Proof.
  intros He [Hm Hn]. split; [done|]. simpl.
  by rewrite retryCount_snoc_other.
Qed.

Lemma retried_KeptAt P n Q : KeptAt (retried P n) Q.
Proof.
  split; [intros; by apply retried_event|]. intros st [Hm _] _ Hvis.
  assert (Q ≠ P) by (intros ->; by eapply marked_not_visiting).
  split; [|split]; constructor; try done.
  - intros e st' He. apply retried_event.
    destruct e; simpl in *; try done.
    apply bool_decide_eq_true_1 in He. subst.
    by apply bool_decide_eq_false_2.
  - intros; by apply retried_event.
  - intros st' [? ?]. split; [|done]. by apply marked_insert.
Qed.

(** The events and the writes of the loading are not calls of [gtaRetry]. *)
Local Ltac retried_leaf :=
  first [ by (intros ? ?; apply retried_event)
        | by (intros ? ?) ].

Section Retries.

Context (H : Host).

Lemma importSrc_retried P n fuel rPath Q sk :
  preserves (retried P n) (importSrc H fuel rPath Q sk).
Proof. apply importSrc_preserves. apply retried_KeptAt. Qed.

Lemma loadSource_retried P n fuel dir rPath sk name buf acc :
  preserves (retried P n)
    (loadSource H (importSrc H fuel) dir rPath P sk name buf acc).
Proof.
  unfold loadSource, gta.
  repeat (pres_step; try retried_leaf; try apply importSrc_retried).
Qed.

Lemma loadFile_retried P n fuel dir rPath sk acc file :
  preserves (retried P n)
    (loadFile H (importSrc H fuel) dir rPath P sk acc file).
Proof.
  unfold loadFile.
  repeat (pres_step; try retried_leaf; try apply loadSource_retried).
Qed.

Lemma loadEntry_retried P n fuel dir rPath sk acc entry :
  preserves (retried P n)
    (loadEntry H (importSrc H fuel) dir rPath P sk acc entry).
Proof.
  unfold loadEntry.
  repeat (pres_step; try retried_leaf; try apply loadSource_retried).
Qed.

(** The variable [revisit] has no key but [sub]. *)
Definition oneKey (sub : string) (acc : loadAcc) : Prop :=
  ∀ k, k ≠ sub → la_revisit acc !! k = None.

Lemma loadSource_oneKey importer dir rPath P sk name buf acc st acc' st' :
  oneKey (effectivePkg rPath P) acc →
  loadSource H importer dir rPath P sk name buf acc st = (Ok acc', st') →
  oneKey (effectivePkg rPath P) acc'.
Proof.
  intros Hacc. unfold loadSource. rewrite bind_emit, bind_unfold.
  destruct (parse H buf name) as [e|[pname [root|]]]; simpl; [done| |].
  2:{ by intros [= <- <-]. }
  rewrite bind_gets, bind_unfold, astDot_step, bind_unfold.
  set (st1 := if astDot _ then _ else _). clearbody st1.
  assert (∀ pkgName,
            (list ← gta H importer root (effectivePkg rPath P) P;
             mret (LoadAcc pkgName (la_rootNodes acc ++ [root])
                     (<[effectivePkg rPath P :=
                          default [] (la_revisit acc !! effectivePkg rPath P)
                          ++ list]> (la_revisit acc)))) st1 = (Ok acc', st') →
            oneKey (effectivePkg rPath P) acc') as Hgta.
  { intros pkgName Hr.
    apply bind_inv in Hr as [(list & st2 & _ & Hr)|(r1 & _ & Hs)];
      [|by inversion Hs].
    inversion Hr; subst. intros k Hk. simpl.
    rewrite lookup_insert_ne by done. by apply Hacc. }
  destruct (decide (la_pkgName acc = "")); simpl; [apply Hgta|].
  destruct (bool_decide (la_pkgName acc ≠ pname) && sk); simpl; [done|].
  apply Hgta.
Qed.

Lemma loadFile_oneKey importer dir rPath P sk acc file st acc' st' :
  oneKey (effectivePkg rPath P) acc →
  loadFile H importer dir rPath P sk acc file st = (Ok acc', st') →
  oneKey (effectivePkg rPath P) acc'.
Proof.
  intros Hacc. unfold loadFile. destruct (skipFile H file sk).
  { by intros [= <- <-]. }
  rewrite bind_emit, bind_unfold.
  destruct (readFile H _) as [e|buf]; simpl; [done|].
  by apply loadSource_oneKey.
Qed.

Lemma loadEntry_oneKey importer dir rPath P sk acc entry st acc' st' :
  oneKey (effectivePkg rPath P) acc →
  loadEntry H importer dir rPath P sk acc entry st = (Ok acc', st') →
  oneKey (effectivePkg rPath P) acc'.
Proof.
  intros Hacc. unfold loadEntry. destruct entry as [header body|err]; [|done].
  destruct (Typeflag header); try by intros [= <- <-].
  destruct (skipFile H (Name header) sk); [by intros [= <- <-]|].
  rewrite bind_unfold. destruct body as [e|buf]; simpl; [done|].
  by apply loadSource_oneKey.
Qed.

Lemma loadLoop_oneKey {A} (body : loadAcc → A → M loadAcc) sub :
  (∀ acc x st acc' st',
     oneKey sub acc → body acc x st = (Ok acc', st') → oneKey sub acc') →
  ∀ l acc st acc' st',
    oneKey sub acc → foldM body l acc st = (Ok acc', st') → oneKey sub acc'.
Proof.
  intros Hbody l. induction l as [|x l IH]; intros acc st acc' st' Hacc.
  { simpl. by intros [= <- <-]. }
  simpl. intros Hr.
  apply bind_inv in Hr as [(acc1 & st1 & Hx & Hr)|(r1 & _ & Hs)];
    [|by inversion Hs].
  eapply IH; [|exact Hr]. by eapply Hbody.
Qed.

Lemma oneKey_length sub acc :
  oneKey sub acc → length (map_to_list (la_revisit acc)) ≤ 1.
Proof.
  intros Hone. destruct (la_revisit acc !! sub) as [v|] eqn:Hsub.
  - assert (la_revisit acc = {[sub := v]}) as ->.
    { apply map_eq. intros k. destruct (decide (k = sub)) as [->|Hk].
      - by rewrite lookup_singleton_eq.
      - rewrite lookup_singleton_ne by done. by apply Hone. }
    rewrite map_to_list_singleton. simpl. lia.
  - assert (la_revisit acc = ∅) as ->.
    { apply map_eq. intros k. rewrite lookup_empty.
      destruct (decide (k = sub)) as [->|Hk]; [done|by apply Hone]. }
    rewrite map_to_list_empty. simpl. lia.
Qed.

(** A call of [gtaRetry] is one event and at most a new scope. *)
Lemma gtaRetry_lowered P nodes st r st' :
  gtaRetry H nodes P st = (r, st') → lowered st [EvGtaRetry P nodes] st'.
Proof.
  unfold gtaRetry, packageScope. rewrite bind_emit, bind_unfold, bind_gets.
  assert (lowered st [EvGtaRetry P nodes] (addEvents [EvGtaRetry P nodes] st))
    as Hl by apply (lowered_event st [] st), lowered_refl.
  destruct (scopes _ !! P) as [sc|]; simpl; [|by intros [= <- <-]].
  rewrite bind_unfold.
  destruct (retry H nodes P sc) as [e|sc']; simpl; intros [= <- <-]; [done|].
  by apply lowered_scopes.
Qed.

Lemma retryLoop_count P (l : list (string * list node)) st r st' :
  foldM (λ _ '(_, nodes), gtaRetry H nodes P) l () st = (r, st') →
  ∃ new, lowered st new st' ∧ length new ≤ length l.
Proof.
  revert st. induction l as [|[k nodes] l IH]; intros st; simpl.
  { intros [= <- <-]. exists []. split; [apply lowered_refl|done]. }
  intros Hr.
  apply bind_inv in Hr as [([] & st1 & Hx & Hr)|(r1 & Hx & _)].
  - apply gtaRetry_lowered in Hx. apply IH in Hr as (new & Hl & Hlen).
    exists ([EvGtaRetry P nodes] ++ new). split.
    + by eapply lowered_trans.
    + simpl. lia.
  - apply gtaRetry_lowered in Hx. exists [EvGtaRetry P nodes].
    split; [done|]. simpl. lia.
Qed.

(** [gtaRetry] was called [n] times on [P]. *)
Definition retriedSince (P : string) (n : nat) (st : Interpreter) : Prop :=
  retryCount P (events st) = n.

(** After its loop over [revisit], [finishImport] does not call
    [gtaRetry]. *)
Lemma finishImport_retried P sk acc st r st' :
  length (map_to_list (la_revisit acc)) ≤ 1 →
  finishImport H P sk acc st = (r, st') →
  retryCount P (events st') ≤ S (retryCount P (events st)).
Proof.
  intros Hlen Hr. unfold finishImport in Hr.
  assert (∀ e, isRetry P e = false →
               ∀ s n, retriedSince P n s →
                      retriedSince P n (set_events (λ l, l ++ [e]) s)) as Hev.
  { intros e He s n <-. unfold retriedSince. simpl.
    by rewrite retryCount_snoc_other. }
  apply bind_inv in Hr as [([] & st1 & Hretry & Hr)|(r1 & Hretry & _)].
  - apply retryLoop_count in Hretry as (new & Hl & Hnew).
    destruct Hl as (_&_&_&_&_&_&_&Hl).
    assert (retriedSince P (retryCount P (events st1)) st') as Hst'.
    { eapply (preserves_run _ _ st1); [|reflexivity|exact Hr].
      unfold cfg, packageScope.
      repeat (pres_step; try (intros ? ?; by apply Hev); try done). }
    unfold retriedSince in Hst'. rewrite Hst', Hl, retryCount_app.
    pose proof (retryCount_le P new). lia.
  - apply retryLoop_count in Hretry as (new & Hl & Hnew).
    destruct Hl as (_&_&_&_&_&_&_&Hl).
    rewrite Hl, retryCount_app. pose proof (retryCount_le P new). lia.
Qed.

End Retries.

Lemma retried_since P n st0 st new :
  retryCount P (events st0) = n → events st = events st0 ++ new →
  retryCount P (events st) ≤ S n → retryCount P new ≤ 1.
Proof. intros <- ->. rewrite retryCount_app. lia. Qed.

Lemma loaded_retried_once H P sk acc st0 st r st' :
  retried P (retryCount P (events st0)) st →
  length (map_to_list (la_revisit acc)) ≤ 1 →
  finishImport H P sk acc st = (r, st') →
  retryCount P (events st') ≤ S (retryCount P (events st0)).
Proof.
  intros [_ Hn] Hlen Hr. rewrite <- Hn. by eapply finishImport_retried.
Qed.

(** X17. [gtaRetry] is called at most once on the package in an import,
    however the import ends: the key of [revisit] is the same for every file
    of the package, so that the loop over this map, whose order Go leaves
    open, has one turn at most. *)
Theorem gtaRetry_at_most_once (H : Host) :
  (∀ fuel rPath P sk st r st' new,
     importSrc H fuel rPath P sk st = (r, st') →
     events st' = events st ++ new →
     retryCount P new ≤ 1) ∧
  (∀ fuel reader sk st r st' new,
     importSrcArchive H fuel reader sk st = (r, st') →
     events st' = events st ++ new →
     retryCount "/" new ≤ 1).
Proof.
  assert (∀ st new, events st = events st ++ new → new = []) as Hnil.
  { intros st new Hnew. apply (app_inv_head (events st)).
    by rewrite app_nil_r. }
  split.
  - intros fuel rPath P sk st r st' new Hr Hnew.
    destruct fuel as [|fuel]; simpl in Hr.
    { inversion Hr; subst. rewrite (Hnil _ _ Hnew). cbn. lia. }
    apply importSrcBody_cases in Hr as [(t & _ & -> & _)|(_ & Hr)].
    { rewrite (Hnil _ _ Hnew). cbn. lia. }
    destruct Hr as [(-> & _)|(dir & rPath' & _ & Hr)].
    { rewrite (Hnil _ _ Hnew). cbn. lia. }
    destruct Hr as [(_ & _ & ->)|(_ & st1 & Hr & ->)].
    { simpl in Hnew. apply app_inv_head in Hnew as <-.
      rewrite retryCount_none by (by repeat constructor). lia. }
    eapply (retried_since P _ st (ended st1)); [done|exact Hnew|].
    change (events (ended st1)) with (events st1).
    assert (retried P (retryCount P (events st))
              (addEvents [EvReadDir dir] (begun P st))) as Hst0.
    { split; [apply begun_marked|]. simpl.
      by rewrite retryCount_snoc_other. }
    apply directoryRun_cases in Hr
      as [(e & _ & _ & ->)|(files & _ & [(r1 & Hl & _)|(acc & st2 & Hl & Hr)])].
    + destruct Hst0 as [_ ->]. lia.
    + eapply (preserves_run (retried P (retryCount P (events st)))) in Hl
        as [_ ->]; [lia| |exact Hst0].
      apply preserves_foldM. intros. apply loadFile_retried.
    + eapply loaded_retried_once; [|
        eapply (oneKey_length (effectivePkg rPath' P))|exact Hr].
      * eapply (preserves_run (retried P _)); [|exact Hst0|exact Hl].
        apply preserves_foldM. intros. apply loadFile_retried.
      * eapply (loadLoop_oneKey _ _ (λ _ _ _ _ _, loadFile_oneKey H _ _ _ _ _ _ _ _ _ _));
          [|exact Hl]. by intros k.
  - intros fuel reader sk st r st' new Hr Hnew.
    apply importSrcArchiveBody_cases in Hr
      as [(-> & _)|(dir & rPath' & st1 & _ & Hr & ->)].
    { rewrite (Hnil _ _ Hnew). cbn. lia. }
    eapply (retried_since "/" _ st (ended st1)); [done|exact Hnew|].
    change (events (ended st1)) with (events st1).
    assert (retried "/" (retryCount "/" (events st)) (begun "/" st)) as Hst0.
    { split; [apply begun_marked|done]. }
    apply archiveRun_cases in Hr
      as [(e & _ & _ & ->)|(entries & _ & [(r1 & Hl & _)|(acc & st2 & Hl & Hr)])].
    + destruct Hst0 as [_ ->]. lia.
    + eapply (preserves_run (retried "/" (retryCount "/" (events st)))) in Hl
        as [_ ->]; [lia| |exact Hst0].
      apply preserves_foldM. intros. apply loadEntry_retried.
    + eapply loaded_retried_once; [|
        eapply (oneKey_length (effectivePkg rPath' "/"))|exact Hr].
      * eapply (preserves_run (retried "/" _)); [|exact Hst0|exact Hl].
        apply preserves_foldM. intros. apply loadEntry_retried.
      * eapply (loadLoop_oneKey _ _ (λ _ _ _ _ _, loadEntry_oneKey H _ _ _ _ _ _ _ _ _ _));
          [|exact Hl]. by intros k.
Qed.

Lemma gtaRetry_at_most_once_witness :
  let H := Demo.hostOf Demo.fooWorld in
  let st' := (importSrc H 2 "" "foo" true Demo.fresh).2 in
  retryCount "foo" (events st') ≤ 1.
Proof.
  intros H st'.
  apply (proj1 (gtaRetry_at_most_once H) 2 "" "foo" true Demo.fresh
           (importSrc H 2 "" "foo" true Demo.fresh).1 st').
  - vm_compute. reflexivity.
  - vm_compute. reflexivity.
Defined.

(** ** The nesting of imports ends *)

(** The test of line 71, [interp.rdir[importPath]]. *)
Definition visiting (X : string) (st : Interpreter) : bool :=
  default false (rdir st !! X).

(** The number of paths of [U] that are not marked as visited. *)
Definition unvisited (U : list string) (st : Interpreter) : nat :=
  length (filter (λ X, visiting X st = false) U).

Definition atMost (U : list string) (n : nat) (st : Interpreter) : Prop :=
  unvisited U st ≤ n.

Lemma visiting_mark X P st :
  visiting X (set_rdir <[P := true]> st) =
  if decide (X = P) then true else visiting X st.
Proof.
  unfold visiting. simpl. destruct (decide (X = P)) as [->|Hne].
  - by rewrite lookup_insert_eq.
  - by rewrite lookup_insert_ne.
Qed.

Lemma unvisited_mark U P st :
  unvisited U (set_rdir <[P := true]> st) ≤ unvisited U st.
Proof.
  unfold unvisited. induction U as [|X U IH]; [done|].
  rewrite !filter_cons, visiting_mark.
  destruct (decide (X = P)) as [->|Hne].
  - rewrite decide_False by done. destruct (decide _); simpl; lia.
  - destruct (decide (visiting X st = false)); simpl; lia.
Qed.

Lemma unvisited_mark_new U P st :
  P ∈ U → visiting P st = false →
  unvisited U (set_rdir <[P := true]> st) < unvisited U st.
Proof.
  intros HP Hvis. unfold unvisited.
  induction U as [|X U IH]; [by inversion HP|].
  rewrite !filter_cons, visiting_mark.
  destruct (decide (X = P)) as [->|Hne].
  - rewrite decide_False by done. rewrite decide_True by done.
    pose proof (unvisited_mark U P st) as Hle. unfold unvisited in Hle.
    simpl. lia.
  - apply elem_of_cons in HP as [->|HP]; [done|].
    specialize (IH HP).
    destruct (decide (visiting X st = false)); simpl; lia.
Qed.

Lemma unvisited_le U st : unvisited U st ≤ length U.
Proof. apply length_filter. Qed.

(** [ends I m]: from a state with [I], the run of [m] does not reach the
    bound on the nesting of imports, and [I] holds after it. *)
Definition ends {A} (I : Interpreter → Prop) (m : M A) : Prop :=
  ∀ st, I st → (m st).1 ≠ OutOfFuel ∧ I (m st).2.

Section EndsLogic.

Context (I : Interpreter → Prop).

Lemma ends_ret {A} (a : A) : ends I (mret a).
Proof. by intros st. Qed.

Lemma ends_fail {A} e : ends I (@fail A e).
Proof. by intros st. Qed.

Lemma ends_panic {A} : ends I (@panic A).
Proof. by intros st. Qed.

Lemma ends_gets {A} (f : Interpreter → A) : ends I (gets f).
Proof. by intros st. Qed.

Lemma ends_orFail {A} (r : error + A) : ends I (orFail r).
Proof. by destruct r; intros st. Qed.

Lemma ends_modify f : (∀ st, I st → I (f st)) → ends I (modify f).
Proof. intros Hf st HI. split; [done|]. by apply Hf. Qed.

Lemma ends_emit e :
  (∀ st, I st → I (set_events (λ l, l ++ [e]) st)) → ends I (emit e).
Proof. apply ends_modify. Qed.

Lemma ends_bind {A B} (m : M A) (k : A → M B) :
  ends I m → (∀ a, ends I (k a)) → ends I (m ≫= k).
Proof.
  intros Hm Hk st HI. destruct (Hm st HI) as [Hr HI']. rewrite bind_unfold.
  destruct (m st) as [[a|e| |] st']; simpl in *; try done.
  by apply Hk.
Qed.

Lemma ends_foldM {A B} (body : B → A → M B) l acc :
  (∀ acc x, x ∈ l → ends I (body acc x)) → ends I (foldM body l acc).
Proof.
  revert acc. induction l as [|x l IH]; intros acc Hbody; simpl.
  - apply ends_ret.
  - apply ends_bind; [apply Hbody; by left|].
    intros acc'. apply IH. intros acc'' y Hy. apply Hbody. by right.
Qed.

Lemma ends_finally {A} (m : M A) after :
  ends I m → (∀ st, I st → I (after st)) → ends I (finally m after).
Proof.
  intros Hm Ha st HI. destruct (Hm st HI) as [Hr HI']. unfold finally.
  destruct (m st); simpl in *. auto.
Qed.

End EndsLogic.

(** One step through the text of the pipeline. *)
Ltac ends_step :=
  match goal with
  | |- ends _ (mbind _ _) => apply ends_bind; [|intros ?]
  | |- ends _ (mret _) => apply ends_ret
  | |- ends _ (fail _) => apply ends_fail
  | |- ends _ panic => apply ends_panic
  | |- ends _ (gets _) => apply ends_gets
  | |- ends _ (orFail _) => apply ends_orFail
  | |- ends _ (foldM _ _ _) => apply ends_foldM; intros ? ? ?
  | |- ends _ (run _ _) => unfold run
  | |- ends _ (emit _) => apply ends_emit; intros ? ?
  | |- ends _ (modify _) => apply ends_modify; intros ? ?
  | |- ends _ (match ?x with _ => _ end) => destruct x
  | |- ends _ (let '(_, _) := ?x in _) => destruct x
  | |- ends _ (if ?x then _ else _) => destruct x
  end.

Section Nesting.

Context (H : Host) (U : list string).
Context (HU : ∀ root ipath sk, (ipath, sk) ∈ imports H root → ipath ∈ U).

Section Levels.

Context (n : nat) (importer : string → string → bool → M string).
Context (Himp : ∀ r Q sk, Q ∈ U → ends (atMost U n) (importer r Q sk)).

Lemma gta_ends root rPath P :
  ends (atMost U n) (gta H importer root rPath P).
Proof.
  unfold gta. ends_step; [by ends_step|].
  ends_step; [by ends_step|]. ends_step.
  { apply ends_foldM. intros names [ipath sk] Hin.
    ends_step; [|by ends_step]. apply Himp. by eapply HU. }
  repeat (ends_step; try done).
Qed.

Lemma loadSource_ends dir rPath P sk name buf acc :
  ends (atMost U n) (loadSource H importer dir rPath P sk name buf acc).
Proof.
  unfold loadSource. repeat (ends_step; try done; try apply gta_ends).
Qed.

Lemma loadFile_ends dir rPath P sk acc file :
  ends (atMost U n) (loadFile H importer dir rPath P sk acc file).
Proof.
  unfold loadFile. repeat (ends_step; try done; try apply loadSource_ends).
Qed.

Lemma loadEntry_ends dir rPath P sk acc entry :
  ends (atMost U n) (loadEntry H importer dir rPath P sk acc entry).
Proof.
  unfold loadEntry. repeat (ends_step; try done; try apply loadSource_ends).
Qed.

Lemma finishImport_ends P sk acc :
  ends (atMost U n) (finishImport H P sk acc).
Proof.
  unfold finishImport, gtaRetry, cfg, packageScope.
  repeat (ends_step; try done).
Qed.

Lemma directoryRun_ends dir rPath P sk :
  ends (atMost U n) (directoryRun H importer dir rPath P sk).
Proof.
  unfold directoryRun.
  repeat (ends_step; try done; try apply loadFile_ends;
          try apply finishImport_ends).
Qed.

Lemma archiveRun_ends dir rPath P sk reader :
  ends (atMost U n) (archiveRun H importer dir rPath P sk reader).
Proof.
  unfold archiveRun.
  repeat (ends_step; try done; try apply loadEntry_ends;
          try apply finishImport_ends).
Qed.

End Levels.

Lemma atMost_le n m st : n ≤ m → atMost U n st → atMost U m st.
Proof. unfold atMost. lia. Qed.

(** An import of a path of [U] needs one level of nesting for each path of
    [U] that is not marked. *)
Lemma importSrc_ends fuel :
  ∀ n, n < fuel →
       ∀ rPath Q sk, Q ∈ U → ends (atMost U n) (importSrc H fuel rPath Q sk).
Proof.
  induction fuel as [|fuel IH]; intros n Hn rPath Q sk HQ st HI; [lia|].
  cbn [importSrc].
  destruct (importSrcBody H (importSrc H fuel) rPath Q sk st) as [r st']
    eqn:Hr.
  simpl. apply importSrcBody_cases in Hr as [(t & _ & -> & ->)|(_ & Hr)].
  { split; [by destruct (pkgNames st !! Q)|done]. }
  destruct Hr as [(-> & r1 & Hres & Hs)|(dir & rPath' & _ & Hr)].
  { split; [|done]. intros ->. inversion Hs; subst.
    apply (resolve_ends H rPath Q st). by rewrite Hres. }
  destruct Hr as [(_ & -> & ->)|(Hvis & st1 & Hr & ->)]; [done|].
  assert (atMost U (n - 1) (begun Q st) ∧ 0 < n) as [HI1 Hpos].
  { pose proof (unvisited_mark_new U Q st HQ Hvis) as Hlt.
    unfold atMost in *.
    change (unvisited U (begun Q st))
      with (unvisited U (set_rdir <[Q := true]> st)). lia. }
  destruct (directoryRun_ends (n - 1) (importSrc H fuel)
              (λ r Q' sk' HQ', IH (n - 1) ltac:(lia) r Q' sk' HQ')
              dir rPath' Q sk (begun Q st) HI1) as [Hno HI2].
  rewrite Hr in Hno, HI2. simpl in *. split; [done|].
  apply (atMost_le (n - 1)); [lia|done].
Qed.

End Nesting.

(** X19. The nesting of imports ends: when the import declarations that
    [gta] resolves from source name paths of a finite list [U] only, a call
    of [importSrc] or of [importSrcArchive] goes at most as deep as there
    are paths of [U] that are not marked as visited, plus one level for the
    call itself. A bound on the nesting above that is not reached: each
    nested import marks a path that was not marked, and a marked path is
    answered at once, from the registry or as an import cycle. *)
Theorem import_nesting_ends (H : Host) (U : list string) :
  (∀ root ipath sk, (ipath, sk) ∈ imports H root → ipath ∈ U) →
  (∀ fuel rPath P sk st,
     unvisited U st + 1 < fuel →
     (importSrc H fuel rPath P sk st).1 ≠ OutOfFuel) ∧
  (∀ fuel reader sk st,
     unvisited U st < fuel →
     (importSrcArchive H fuel reader sk st).1 ≠ OutOfFuel) ∧
  (∀ st, unvisited U st ≤ length U).
Proof.
  intros HU. split; [|split; [|intros; apply unvisited_le]].
  - intros fuel rPath P sk st Hfuel.
    destruct fuel as [|fuel]; [lia|]. cbn [importSrc].
    destruct (importSrcBody H (importSrc H fuel) rPath P sk st) as [r st']
      eqn:Hr.
    simpl. apply importSrcBody_cases in Hr as [(t & _ & -> & ->)|(_ & Hr)].
    { by destruct (pkgNames st !! P). }
    destruct Hr as [(-> & r1 & Hres & Hs)|(dir & rPath' & _ & Hr)].
    { intros ->. inversion Hs; subst.
      apply (resolve_ends H rPath P st). by rewrite Hres. }
    destruct Hr as [(_ & -> & ->)|(Hvis & st1 & Hr & ->)]; [done|].
    assert (atMost U (unvisited U st) (begun P st)) as HI1.
    { apply unvisited_mark. }
    destruct (directoryRun_ends H U HU (unvisited U st) (importSrc H fuel)
                (λ r Q' sk' HQ',
                   importSrc_ends H U HU fuel (unvisited U st) ltac:(lia)
                     r Q' sk' HQ')
                dir rPath' P sk (begun P st) HI1) as [Hno _].
    by rewrite Hr in Hno.
  - intros fuel reader sk st Hfuel.
    destruct (importSrcArchive H fuel reader sk st) as [r st'] eqn:Hr.
    simpl. apply importSrcArchiveBody_cases in Hr
      as [(-> & r1 & Hres & Hs)|(dir & rPath' & st1 & _ & Hr & ->)].
    { intros ->. inversion Hs; subst.
      apply (resolve_ends H "." "/" st). by rewrite Hres. }
    assert (atMost U (unvisited U st) (begun "/" st)) as HI1.
    { apply unvisited_mark. }
    destruct (archiveRun_ends H U HU (unvisited U st) (importSrc H fuel)
                (λ r Q' sk' HQ',
                   importSrc_ends H U HU fuel (unvisited U st) ltac:(lia)
                     r Q' sk' HQ')
                dir rPath' "/" sk reader (begun "/" st) HI1) as [Hno _].
    by rewrite Hr in Hno.
Qed.

Lemma cycleWorld_imports root ipath sk :
  (ipath, sk) ∈ imports (Demo.hostOf Demo.cycleWorld) root →
  ipath ∈ ["a"; "b"].
Proof.
  destruct root as [k]. destruct k as [|[|[|k]]]; cbn; intros Hin.
  - by apply elem_of_nil in Hin.
  - apply list_elem_of_singleton in Hin as [= -> _]. right. left.
  - apply list_elem_of_singleton in Hin as [= -> _]. left.
  - by apply elem_of_nil in Hin.
Qed.

Lemma import_nesting_ends_witness :
  (importSrc (Demo.hostOf Demo.cycleWorld) 4 "" "a" true Demo.fresh).1 ≠
  OutOfFuel.
Proof.
  apply (proj1 (import_nesting_ends (Demo.hostOf Demo.cycleWorld) ["a"; "b"]
                  cycleWorld_imports)).
  vm_compute. lia.
Defined.
